(** * Lazor solver: puzzle file, placement enumeration, beam simulation
      and figure

    A shallow embedding of [lazer_final5.py]: [Lazor_Solution] with the
    three nested [combinations] loops of [__call__], the beam
    simulation of [check_solution] and the helpers [pos_chk], [reflect]
    and [refract]; [Input.__call__] from the lines of the file on; and
    [SaveSolution.build_figure].  The properties of the solving engine
    come first, then those of the parser and of the figure, and of the
    three together. *)

From Stdlib Require Import ZArith List Lia Bool Arith Ascii String.
From stdpp Require Import base decidable option numbers list gmap strings.

Open Scope Z_scope.

(** ** Coordinates

    The parser builds every beam and target coordinate as [int * 0.5]
    (or [height - int * 0.5]), and the simulator only adds, subtracts and
    negates such values, or forms [(v * 2 - 1) / 2].  Every float the
    simulator handles is therefore an exact multiple of one half; the
    float [v] is represented by the integer [2 * v]. *)

Record half : Set := Half { twice : Z }.

Global Instance half_eq_dec : EqDecision half.
Proof. solve_decision. Defined.

(** [float(n)] for a Python int [n]. *)
Definition of_int (n : Z) : half := Half (2 * n).

(** [v.is_integer()] *)
Definition is_integer (v : half) : bool := Z.even (twice v).

Definition hadd (a b : half) : half := Half (twice a + twice b).
Definition hsub (a b : half) : half := Half (twice a - twice b).
Definition hneg (a : half) : half := Half (- twice a).

(** [(v * 2 - 1) / 2], that is [v - 0.5]. *)
Definition lower_half (v : half) : half := Half (twice v - 1).

Definition hltb (a b : half) : bool := twice a <? twice b.
Definition hleb (a b : half) : bool := twice a <=? twice b.

Declare Scope half_scope.
Delimit Scope half_scope with half.
Bind Scope half_scope with half.
Infix "+" := hadd : half_scope.
Infix "-" := hsub : half_scope.
Notation "- a" := (hneg a) : half_scope.

(** ** [itertools.combinations]

    The [r]-element selections of [l], in the order of their index
    tuples: one empty selection when [r = 0], none when [r] exceeds the
    length of [l]. *)
Fixpoint combinations {T : Type} (l : list T) (r : nat) : list (list T) :=
  match r with
  | O => [[]]
  | S r' =>
      match l with
      | [] => []
      | x :: t => map (cons x) (combinations t r') ++ combinations t r
      end
  end.

(** ** Puzzle data *)

(** A grid cell, [[x, y]] with the origin at the bottom left. *)
Definition cell : Set := (Z * Z)%type.

(** The block labels ['A'] (reflect), ['B'] (opaque) and ['C'] (refract). *)
Inductive block : Set := blockA | blockB | blockC.

Global Instance block_eq_dec : EqDecision block.
Proof. solve_decision. Defined.

(** A point of intersection [[x, y]]. *)
Definition point : Set := (half * half)%type.

(** A lazor [(x, y, vx, vy)]. *)
Definition lazer : Set := (half * half * half * half)%type.

(** What the body of [while True] does with the beam once the targets
    have been checked: [break] (with the beams to append to
    [active_lasers]) or go round again with a new beam state. *)
Inductive beam_step : Set :=
| Break (new_lasers : list lazer)
| Again (l : lazer).

(** The control state of [check_solution]: the targets still to hit, the
    beam being traced by the inner loop ([None] at the test of the
    outer [while active_lasers]), and the queue [active_lasers]. *)
Record config : Set := Config {
  remaining_points : list point;
  current : option lazer;
  active_lasers : list lazer
}.

Inductive sim_step : Set :=
| Return (b : bool)
| Next (c : config).

Module Lazor_Solution.

(** The attributes of the object. *)
Record t : Type := Build {
  o_l : list cell;
  size : Z * Z;
  lazers : list lazer;
  points : list point;
  A : nat;
  B : nat;
  C : nat;
  A_l : list cell;
  B_l : list cell;
  C_l : list cell;
  sel_comb : gmap cell block
}.

(** [self.sel_comb = d] *)
Definition set_sel_comb (d : gmap cell block) (self : t) : t :=
  Build (o_l self) (size self) (lazers self) (points self)
        (A self) (B self) (C self) (A_l self) (B_l self) (C_l self) d.

(** *** Blocks met by a beam *)

(** [upd_pos in self.sel_comb] and [self.sel_comb[upd_pos]]: the keys of
    the dictionary are tuples of ints, [upd_pos] is a tuple of floats; a
    float equals (and hashes like) an int only when it is integral. *)
Definition sel_comb_get (self : t) (upd_pos : half * half) : option block :=
  if is_integer upd_pos.1 && is_integer upd_pos.2
  then sel_comb self !! (twice upd_pos.1 / 2, twice upd_pos.2 / 2)
  else None.

(** [pos_chk] *)
Definition pos_chk (self : t) (upd_pos : half * half) : bool :=
  let '(x, y) := upd_pos in
  (hleb (of_int 0) x && hltb x (of_int (size self).1))
  && (hleb (of_int 0) y && hltb y (of_int (size self).2)).

(** [reflect] *)
Definition reflect (l : lazer) : lazer :=
  let '(x, y, vx, vy) := l in
  if is_integer x
  then ((x - vx)%half, (y + vy)%half, (- vx)%half, vy)
  else ((x + vx)%half, (y - vy)%half, vx, (- vy)%half).

(** [refract] *)
Definition refract (l : lazer) : list lazer :=
  let '(x, y, vx, vy) := l in
  let path1 := ((x + vx)%half, (y + vy)%half, vx, vy) in
  let path2 :=
    if is_integer x
    then ((x - vx)%half, (y + vy)%half, (- vx)%half, vy)
    else ((x + vx)%half, (y - vy)%half, vx, (- vy)%half) in
  [path1; path2].

(** *** [check_solution] *)

(** The cell the beam is about to enter (the [upd_pos] of
    [check_solution]). *)
Definition upd_pos (l : lazer) : half * half :=
  let '(x, y, vx, vy) := l in
  if is_integer x && hltb vx (of_int 0)
  then ((x - of_int 1)%half, lower_half y)
  else if is_integer x && hltb (of_int 0) vx
  then (x, lower_half y)
  else if negb (is_integer x) && hltb vy (of_int 0)
  then (lower_half x, (y - of_int 1)%half)
  else (lower_half x, y).

(** The part of the loop body after the target check. *)
Definition lazer_step (self : t) (l : lazer) : beam_step :=
  let '(x, y, vx, vy) := l in
  let up := upd_pos l in
  if negb (pos_chk self up) then Break []
  else match sel_comb_get self up with
       | Some blockA => Again (reflect l)
       | Some blockC => Break (refract l)
       | Some blockB => Break []
       | None => Again ((x + vx)%half, (y + vy)%half, vx, vy)
       end.

(** [list(filter(lambda p: p != pos, remaining_points))] *)
Definition remove_point (pos : point) (remaining_points : list point)
  : list point :=
  filter (λ p, p ≠ pos) remaining_points.

(** One pass through a loop head of [check_solution]. *)
Definition step (self : t) (c : config) : sim_step :=
  match current c with
  | None =>
      match active_lasers c with
      | [] => Return (bool_decide (remaining_points c = []))
      | l :: rest => Next (Config (remaining_points c) (Some l) rest)
      end
  | Some l =>
      let '(x, y, _, _) := l in
      let rem := remove_point (x, y) (remaining_points c) in
      match rem with
      | [] => Return true
      | _ :: _ =>
          match lazer_step self l with
          | Break new_lasers =>
              Next (Config rem None (active_lasers c ++ new_lasers))
          | Again l' => Next (Config rem (Some l') (active_lasers c))
          end
      end
  end.

(** Iterating [step]; [None] when the loops are still running after
    [fuel] passes. *)
Fixpoint run (self : t) (fuel : nat) (c : config) : option bool :=
  match fuel with
  | O => None
  | S fuel' =>
      match step self c with
      | Return b => Some b
      | Next c' => run self fuel' c'
      end
  end.

Definition check_solution (fuel : nat) (self : t) : option bool :=
  run self fuel (Config (points self) None (lazers self)).

(** *** [__call__] *)

(** [for pos in block_position: self.sel_comb[(pos[0], pos[1])] = block_name] *)
Definition put_blocks (d : gmap cell block) (block_name : block)
  (block_position : list cell) : gmap cell block :=
  foldl (λ d pos, <[(pos.1, pos.2) := block_name]> d) d block_position.

Definition put_lists (d : gmap cell block) (lists : list (list cell * block))
  : gmap cell block :=
  foldl (λ d '(block_position, block_name),
           put_blocks d block_name block_position) d lists.

(** The dictionary built in the innermost loop: the chosen cells, then
    the fixed blocks. *)
Definition new_sel_comb (self : t) (a_comb b_comb c_comb : list cell)
  : gmap cell block :=
  let d := put_lists ∅ [(a_comb, blockA); (b_comb, blockB); (c_comb, blockC)] in
  put_lists d [(A_l self, blockA); (B_l self, blockB); (C_l self, blockC)].

(** [[pos for pos in o_l if pos not in comb]] *)
Definition not_chosen (o_l comb : list cell) : list cell :=
  filter (λ pos, pos ∉ comb) o_l.

(** How a [for] loop of [__call__] ends. *)
Inductive loop_result : Type :=
| Hang                                    (* a simulation is still running *)
| Returned (d : gmap cell block) (self : t)   (* [return self.sel_comb] *)
| Completed (self : t).                   (* the loop ran to its end *)

Fixpoint for_i_c (fuel : nat) (self : t) (a_comb b_comb : list cell)
  (o_lC : list (list cell)) : loop_result :=
  match o_lC with
  | [] => Completed self
  | i_c :: rest =>
      let self := set_sel_comb (new_sel_comb self a_comb b_comb i_c) self in
      match check_solution fuel self with
      | None => Hang
      | Some true => Returned (sel_comb self) self
      | Some false => for_i_c fuel self a_comb b_comb rest
      end
  end.

Fixpoint for_i_b (fuel : nat) (self : t) (a_comb o_l : list cell)
  (o_lB : list (list cell)) : loop_result :=
  match o_lB with
  | [] => Completed self
  | i_b :: rest =>
      let o_l_b := not_chosen o_l i_b in
      match for_i_c fuel self a_comb i_b (combinations o_l_b (C self)) with
      | Completed self => for_i_b fuel self a_comb o_l rest
      | r => r
      end
  end.

Fixpoint for_i_a (fuel : nat) (self : t) (o_lA : list (list cell))
  : loop_result :=
  match o_lA with
  | [] => Completed self
  | i_a :: rest =>
      let o_l := not_chosen (o_l self) i_a in
      match for_i_b fuel self i_a o_l (combinations o_l (B self)) with
      | Completed self => for_i_a fuel self rest
      | r => r
      end
  end.

(** [__call__]: [None] while running; otherwise the value returned (a
    dictionary, or Python's [None] when the loops run to their end)
    and the object as the call leaves it. *)
Definition call (fuel : nat) (self : t)
  : option (option (gmap cell block) * t) :=
  match for_i_a fuel self (combinations (o_l self) (A self)) with
  | Hang => None
  | Returned d self => Some (Some d, self)
  | Completed self => Some (None, self)
  end.

(** The dictionaries the three loops build, in the order they build
    them. *)
Definition candidates (self : t) : list (gmap cell block) :=
  i_a ← combinations (o_l self) (A self);
  let o_l := not_chosen (o_l self) i_a in
  i_b ← combinations o_l (B self);
  let o_l_b := not_chosen o_l i_b in
  i_c ← combinations o_l_b (C self);
  [new_sel_comb self i_a i_b i_c].

End Lazor_Solution.

Import Lazor_Solution.

(** ** Beam states and the half-integer invariant *)

(** Exactly one of [x], [y] is an integer, the other lies half a unit
    off, and both deltas are among [-0.5], [0] and [0.5]. *)
Definition half_integer_inv (l : lazer) : Prop :=
  let '(x, y, dx, dy) := l in
  is_integer x = negb (is_integer y)
  ∧ (-1 ≤ twice dx ≤ 1) ∧ (-1 ≤ twice dy ≤ 1).

(** Both deltas are non-zero: the beam travels along a diagonal. *)
Definition diagonal (l : lazer) : Prop :=
  let '(_, _, dx, dy) := l in twice dx ≠ 0 ∧ twice dy ≠ 0.

(** The deltas are both zero or both non-zero. *)
Definition deltas_agree (l : lazer) : Prop :=
  let '(_, _, dx, dy) := l in twice dx = 0 ↔ twice dy = 0.

(** The entered cell as the specification words it: column [x] if
    [dx > 0] else [x - 1] and row [y - 0.5] when [x] is the integer
    coordinate; row [y] if [dy > 0] else [y - 1] and column [x - 0.5]
    when [y] is. *)
Definition entered_cell_spec (l : lazer) : half * half :=
  let '(x, y, dx, dy) := l in
  if is_integer x
  then (if hltb (of_int 0) dx then x else (x - of_int 1)%half, lower_half y)
  else (lower_half x, if hltb (of_int 0) dy then y else (y - of_int 1)%half).

(** The beam state after one plain advance, [x += vx; y += vy]. *)
Definition advance (l : lazer) : lazer :=
  let '(x, y, vx, vy) := l in ((x + vx)%half, (y + vy)%half, vx, vy).

(** The position [[x, y]] of a beam. *)
Definition pos (l : lazer) : point := (l.1.1.1, l.1.1.2).

(** ** Notions for the simulation and the solver *)

(** [c'] is the control state one pass after [c]. *)
Definition next_config (self : t) (c c' : config) : Prop :=
  step self c = Next c'.

(** [s2] is [s1] up to the attribute [sel_comb]. *)
Definition same_puzzle (s1 s2 : t) : Prop := ∃ d, s2 = set_sel_comb d s1.

(** What [__call__] hands back: nothing yet, a dictionary, or [None]. *)
Definition returned (r : loop_result) : option (option (gmap cell block)) :=
  match r with
  | Hang => None
  | Returned d _ => Some (Some d)
  | Completed _ => Some None
  end.

(** Trying dictionaries one after the other, as the innermost loop
    body does. *)
Fixpoint scan (fuel : nat) (self : t) (ds : list (gmap cell block))
  : loop_result :=
  match ds with
  | [] => Completed self
  | d :: rest =>
      let self := set_sel_comb d self in
      match check_solution fuel self with
      | None => Hang
      | Some true => Returned d self
      | Some false => scan fuel self rest
      end
  end.

(** The first dictionary of [ds] on which the simulation succeeds, when
    every simulation before it returns within [fuel] passes. *)
Fixpoint first_success (fuel : nat) (self : t) (ds : list (gmap cell block))
  : option (option (gmap cell block)) :=
  match ds with
  | [] => Some None
  | d :: rest =>
      match check_solution fuel (set_sel_comb d self) with
      | None => None
      | Some true => Some (Some d)
      | Some false => first_success fuel self rest
      end
  end.

(** The simulation of [self] with the dictionary [d] returns [b]. *)
Definition sim_reports (self : t) (d : gmap cell block) (b : bool) : Prop :=
  ∃ fuel, check_solution fuel (set_sel_comb d self) = Some b.

(** [__call__] returns [r], given enough passes. *)
Definition call_returns (self : t) (r : option (gmap cell block)) : Prop :=
  ∃ fuel0, ∀ fuel, (fuel0 ≤ fuel)%nat →
    ∃ self', call fuel self = Some (r, self').

(** The dictionary of the fixed blocks alone. *)
Definition fixed_blocks (self : t) : gmap cell block :=
  put_lists ∅ [(A_l self, blockA); (B_l self, blockB); (C_l self, blockC)].

(** The binomial coefficient, by Pascal's rule. *)
Fixpoint binom (n k : nat) : nat :=
  match k with
  | O => 1
  | S k' =>
      match n with
      | O => 0
      | S n' => binom n' k' + binom n' k
      end
  end%nat.

(** ** The enumeration as the specification words it

    Section 4.1: subsets of the open-cell list in index order; the
    Opaque subsets over the cells not chosen for Reflect, the Split
    subsets over the remaining cells; a Placement the union of the
    fixed cells and the chosen ones. *)

(** Every selection of elements of a list, one that takes an element
    before one that leaves it out. *)
Fixpoint selections {T : Type} (l : list T) : list (list T) :=
  match l with
  | [] => [[]]
  | x :: rest => (cons x <$> selections rest) ++ selections rest
  end.

(** The subsets of [n] elements, in the order of their index tuples. *)
Definition subsets {T : Type} (l : list T) (n : nat) : list (list T) :=
  filter (λ s, length s = n) (selections l).

(** The cells not chosen. *)
Definition remaining (cells chosen : list cell) : list cell :=
  list_difference cells chosen.

(** The cells of one piece kind. *)
Definition kind_map (kind : block) (cells : list cell) : gmap cell block :=
  gset_to_gmap kind (list_to_set cells).

(** The fixed cells alone.  (Of two maps that overlap, which the data
    model excludes, the left one prevails in a union.) *)
Definition fixed_placement_spec (self : t) : gmap cell block :=
  kind_map blockC (C_l self) ∪ kind_map blockB (B_l self)
  ∪ kind_map blockA (A_l self).

(** A Placement: the union of the fixed cells and the chosen ones. *)
Definition placement_spec (self : t)
  (reflect_cells opaque_cells split_cells : list cell) : gmap cell block :=
  fixed_placement_spec self
  ∪ (kind_map blockC split_cells ∪ kind_map blockB opaque_cells
     ∪ kind_map blockA reflect_cells).

(** The sequence of Placements. *)
Definition placements_spec (self : t) : list (gmap cell block) :=
  reflect_cells ← subsets (o_l self) (A self);
  opaque_cells ← subsets (remaining (o_l self) reflect_cells) (B self);
  split_cells ←
    subsets (remaining (remaining (o_l self) reflect_cells) opaque_cells)
      (C self);
  [placement_spec self reflect_cells opaque_cells split_cells].

(** ** Notions for the trace of a single beam *)

(** The beam states at the head of the inner loop in its first [fuel]
    passes, the targets left aside: the trace ends at a [break]. *)
Fixpoint beam_path (self : t) (fuel : nat) (l : lazer) : list lazer :=
  match fuel with
  | O => []
  | S fuel' =>
      l :: match lazer_step self l with
           | Break _ => []
           | Again l' => beam_path self fuel' l'
           end
  end.

(** The beam state at the head of the loop in pass [n], if the trace
    gets that far. *)
Fixpoint beam_at (self : t) (n : nat) (l : lazer) : option lazer :=
  match n with
  | O => Some l
  | S n' =>
      match lazer_step self l with
      | Break _ => None
      | Again l' => beam_at self n' l'
      end
  end.

(** Does the loop go round again after a pass on [l]? *)
Definition continues (self : t) (l : lazer) : bool :=
  match lazer_step self l with
  | Break _ => false
  | Again _ => true
  end.

(** The sense in which a diagonal beam turns around the cells it
    crosses: [0] or [2], the same before and after every advance and
    every reflection. *)
Definition circuit (l : lazer) : Z :=
  let '(x, y, vx, vy) := l in
  (twice x * twice vy - twice y * twice vx + twice vx * twice vy) mod 4.

(** A beam state the invariant holds for, on a diagonal, of the given
    circuit. *)
Definition on_circuit (k : Z) (l : lazer) : Prop :=
  half_integer_inv l ∧ diagonal l ∧ circuit l = k.

(** The cell a beam enters and the side through which it enters it:
    [0] left, [1] right, [2] bottom, [3] top. *)
Definition slot (l : lazer) : cell * Z :=
  let '(x, y, vx, vy) := l in
  let up := upd_pos l in
  ((twice up.1 / 2, twice up.2 / 2),
   if is_integer x then (if hltb vx (of_int 0) then 1 else 0)
   else (if hltb vy (of_int 0) then 3 else 2)).

(** Every cell of a [w] by [h] board with each of its four sides. *)
Definition slots (w h : Z) : list (cell * Z) :=
  c ← seqZ 0 w; r ← seqZ 0 h; e ← [0; 1; 2; 3]; [((c, r), e)].

(** A beam travelling along the row [y = y0 / 2]. *)
Definition horizontal (y0 : Z) (l : lazer) : Prop :=
  let '(_, y, vx, vy) := l in
  twice y = y0 ∧ twice vy = 0 ∧ (twice vx = 1 ∨ twice vx = -1).

(** Such a beam is known by its abscissa and its direction. *)
Definition horizontal_code (l : lazer) : Z * Z :=
  let '(x, _, vx, _) := l in (twice x, twice vx).

(** The abscissas and directions of the beams along a row from which
    the loop goes on. *)
Definition horizontal_codes (w : Z) : list (Z * Z) :=
  ((λ x, (x, 1)) <$> seqZ 0 (2 * w)) ++ ((λ x, (x, -1)) <$> seqZ 1 (2 * w)).

(** A beam travelling along the column [x = x0 / 2]. *)
Definition vertical (x0 : Z) (l : lazer) : Prop :=
  let '(x, _, vx, vy) := l in
  twice x = x0 ∧ twice vx = 0 ∧ (twice vy = 1 ∨ twice vy = -1).

(** Such a beam is known by its ordinate and its direction. *)
Definition vertical_code (l : lazer) : Z * Z :=
  let '(_, y, _, vy) := l in (twice y, twice vy).

(** The ordinates and directions of the beams along a column from which
    the loop goes on: on a grid line no block is ever looked up, between
    two grid lines the cell below a downward beam is. *)
Definition vertical_codes (h x0 : Z) : list (Z * Z) :=
  ((λ y, (y, 1)) <$> seqZ 0 (2 * h))
  ++ ((λ y, (y, -1)) <$> seqZ (if Z.even x0 then 0 else 2) (2 * h)).

(** ** Further notions for the solver *)

(** The cells of the fixed blocks. *)
Definition fixed_cells (self : t) : list cell :=
  A_l self ++ B_l self ++ C_l self.

(** The open cells a dictionary gives the label [b]. *)
Definition cells_with (self : t) (d : gmap cell block) (b : block)
  : list cell :=
  filter (λ pos, d !! pos = Some b) (o_l self).

(** ** Further notions for the simulation *)

(** [self.points = ps] *)
Definition set_points (ps : list point) (self : t) : t :=
  Build (o_l self) (size self) (lazers self) ps
        (A self) (B self) (C self) (A_l self) (B_l self) (C_l self)
        (sel_comb self).

(** [self.lazers = ls] *)
Definition set_lazers (ls : list lazer) (self : t) : t :=
  Build (o_l self) (size self) ls (points self)
        (A self) (B self) (C self) (A_l self) (B_l self) (C_l self)
        (sel_comb self).

(** The beam states that come up when the beams [F] are traced: the
    beams themselves, what a pass of the loop makes of such a state,
    and the beams a split appends to the queue. *)
Inductive beam_closure (self : t) (F : list lazer) : lazer → Prop :=
| closure_base l : l ∈ F → beam_closure self F l
| closure_again l l' :
    beam_closure self F l → lazer_step self l = Again l' →
    beam_closure self F l'
| closure_break l new_lasers l' :
    beam_closure self F l → lazer_step self l = Break new_lasers →
    l' ∈ new_lasers → beam_closure self F l'.

(** The beam states that come up in a simulation of [self]. *)
Definition traced (self : t) : lazer → Prop :=
  beam_closure self (lazers self).

(** With the dictionary [d], every target is the position of a beam
    state that comes up when the beams are traced. *)
Definition solves (self : t) (d : gmap cell block) : Prop :=
  ∀ p, p ∈ points self →
    ∃ l, traced (set_sel_comb d self) l ∧ pos l = p.

(** The beams still to be dealt with: the one being traced and the
    queue. *)
Definition frontier (c : config) : list lazer :=
  option_list (current c) ++ active_lasers c.

(** ** Notions for boards with opaque blocks only, and for whole
    simulations *)

(** Every block of the dictionary is a ['B']. *)
Definition opaque_only (self : t) : Prop :=
  ∀ k b, sel_comb self !! k = Some b → b = blockB.

(** One of the deltas is not zero. *)
Definition moving (l : lazer) : Prop :=
  let '(_, _, vx, vy) := l in twice vx ≠ 0 ∨ twice vy ≠ 0.

(** A bound on the passes of the inner loop still to come for a beam
    that nothing turns: none when the cell it enters is off the board,
    else the half units left to the far side of the board in the sense
    of its travel. *)
Definition passes_left (self : t) (l : lazer) : nat :=
  let '(x, y, vx, vy) := l in
  if pos_chk self (upd_pos l)
  then Z.to_nat (if 0 <? twice vx then 2 * (size self).1 + 2 - twice x
                 else if twice vx <? 0 then twice x + 1
                 else if 0 <? twice vy then 2 * (size self).2 + 2 - twice y
                 else twice y + 1)
  else 0%nat.

(** The longer side of the board plus one cell, in half units. *)
Definition span (self : t) : nat :=
  Z.to_nat (2 * Z.max (size self).1 (size self).2 + 2).

(** A bound on the passes of [check_solution] still to come. *)
Definition potential (self : t) (c : config) : nat :=
  (match current c with
   | Some l => passes_left self l + 1
   | None => 0
   end + length (active_lasers c) * (span self + 2))%nat.

(** A beam state the invariant holds for, with deltas both zero or both
    non-zero. *)
Definition well_formed (l : lazer) : Prop :=
  half_integer_inv l ∧ deltas_agree l.

(** ** The puzzle file

    [Input.__call__], from the lines of the file on.  The built-ins it
    calls on strings are taken as given, and the numbers of the file as
    small enough for their halves to be exact floats. *)

Module Input.

(** [line.split()], [line.strip()], and [int(tok)] with [None] where it
    raises [ValueError]. *)
Record builtins : Type := Builtins {
  split : string → list string;
  strip : string → string;
  int : string → option Z
}.

(** The places where [SystemExit] is raised. *)
Inductive exit : Set :=
| no_grid_markers
| no_open_positions
| invalid_count (identifier : string)
| invalid_lazor
| invalid_poi
| no_blocks
| no_lazors.

(** A value, [SystemExit], or an uncaught [IndexError]. *)
Inductive outcome (T : Type) : Type :=
| Ok (v : T)
| SystemExit (e : exit)
| IndexError.
Arguments Ok {T} v.
Arguments SystemExit {T} e.
Arguments IndexError {T}.

(** The attributes [width] and [height] of the object. *)
Record t : Set := Build { width : Z; height : Z }.

(** The dictionary [input_data]. *)
Record data : Set := Data {
  Size : Z * Z;
  o_l : list cell;
  Lazers : list lazer;
  Points : list point;
  A : Z;
  B : Z;
  C : Z;
  x_l : list cell;
  A_l : list cell;
  B_l : list cell;
  C_l : list cell
}.

(** The five position lists filled while the grid is read. *)
Record grid : Set := Grid {
  o_positions : list cell;
  x_positions : list cell;
  A_blocks : list cell;
  B_blocks : list cell;
  C_blocks : list cell
}.

(** The [if token == ...] chain: the position goes to the end of the
    list of its token, and nowhere for any other token. *)
Definition add_position (token : string) (position : cell) (g : grid) : grid :=
  if decide (token = "o")
  then Grid (o_positions g ++ [position]) (x_positions g) (A_blocks g)
            (B_blocks g) (C_blocks g)
  else if decide (token = "x")
  then Grid (o_positions g) (x_positions g ++ [position]) (A_blocks g)
            (B_blocks g) (C_blocks g)
  else if decide (token = "A")
  then Grid (o_positions g) (x_positions g) (A_blocks g ++ [position])
            (B_blocks g) (C_blocks g)
  else if decide (token = "B")
  then Grid (o_positions g) (x_positions g) (A_blocks g)
            (B_blocks g ++ [position]) (C_blocks g)
  else if decide (token = "C")
  then Grid (o_positions g) (x_positions g) (A_blocks g) (B_blocks g)
            (C_blocks g ++ [position])
  else g.

(** [for x, token in enumerate(tokens)], from column [x] on. *)
Fixpoint scan_tokens (x y : Z) (tokens : list string) (g : grid) : grid :=
  match tokens with
  | [] => g
  | token :: rest => scan_tokens (x + 1) y rest (add_position token (x, y) g)
  end.

(** [for y, line in enumerate(lines[start_idx:stop_idx], start=1)], from
    row [y] on, with [self.width] and [self.height]. *)
Fixpoint scan_rows (py : builtins) (y : Z) (rows : list string) (g : grid)
  (self : t) : grid * t :=
  match rows with
  | [] => (g, self)
  | line :: rest =>
      let tokens := split py line in
      let g := scan_tokens 0 y tokens g in
      scan_rows py (y + 1) rest g
        (Build (Z.max (width self) (Z.of_nat (length tokens))) y)
  end.

(** [position[1] = self.height - position[1]] on every position. *)
Definition flip (height : Z) (block_list : list cell) : list cell :=
  (λ position, (position.1, height - position.2)) <$> block_list.

(** What the lines after the grid have set so far. *)
Record settings : Set := Settings {
  A_count : Z;
  B_count : Z;
  C_count : Z;
  lazors : list (list Z);
  points : list (list Z)
}.

(** [[int(tok) for tok in tokens]], [None] when an [int] raises. *)
Definition ints (py : builtins) (tokens : list string) : option (list Z) :=
  mapM (int py) tokens.

(** [line.startswith('#')] *)
Definition is_comment (line : string) : bool :=
  match line with
  | String c _ => bool_decide (c = "#"%char)
  | EmptyString => false
  end.

(** The body of the loop over the lines after the grid. *)
Definition config_line (py : builtins) (line : string) (c : settings)
  : outcome settings :=
  let line := strip py line in
  if bool_decide (line = "") || is_comment line then Ok c
  else
    match split py line with
    | [] => IndexError
    | identifier :: rest =>
        let tokens := identifier :: rest in
        if bool_decide (identifier ∈ ["A"; "B"; "C"])
        then match last tokens ≫= int py with
             | None => SystemExit (invalid_count identifier)
             | Some count =>
                 if decide (identifier = "A")
                 then Ok (Settings count (B_count c) (C_count c)
                                 (lazors c) (points c))
                 else if decide (identifier = "B")
                 then Ok (Settings (A_count c) count (C_count c)
                                 (lazors c) (points c))
                 else Ok (Settings (A_count c) (B_count c) count
                                 (lazors c) (points c))
             end
        else if decide (identifier = "L")
        then match ints py (take 4 rest) with
             | None => SystemExit invalid_lazor
             | Some lazor =>
                 Ok (Settings (A_count c) (B_count c) (C_count c)
                            (lazors c ++ [lazor]) (points c))
             end
        else if decide (identifier = "P")
        then match ints py (take 2 rest) with
             | None => SystemExit invalid_poi
             | Some poi =>
                 Ok (Settings (A_count c) (B_count c) (C_count c)
                            (lazors c) (points c ++ [poi]))
             end
        else Ok c
    end.

Fixpoint config_lines (py : builtins) (lines : list string) (c : settings)
  : outcome settings :=
  match lines with
  | [] => Ok c
  | line :: rest =>
      match config_line py line c with
      | Ok c => config_lines py rest c
      | e => e
      end
  end.

(** The four in-place updates of a lazor; a list with fewer than four
    numbers makes one of them raise.  The floats [x * 0.5],
    [height - y * 0.5], [vx * 0.5] and [vy * -0.5] are given as exact
    halves, which they are for numbers within [2 ^ 53] (see [exact]
    below); beyond, Python works on the nearest float or raises
    [OverflowError], which is not followed here. *)
Definition transform_lazor (height : Z) (lazor : list Z) : outcome lazer :=
  match lazor with
  | x :: y :: vx :: vy :: _ =>
      Ok (Half x, Half (2 * height - y), Half vx, Half (- vy))
  | _ => IndexError
  end.

(** The two in-place updates of a point, with exact halves as for a
    lazor. *)
Definition transform_poi (height : Z) (poi : list Z) : outcome point :=
  match poi with
  | x :: y :: _ => Ok (Half x, Half (2 * height - y))
  | _ => IndexError
  end.

Fixpoint transform_all {T U : Type} (f : T → outcome U) (l : list T)
  : outcome (list U) :=
  match l with
  | [] => Ok []
  | x :: rest =>
      match f x with
      | Ok y =>
          match transform_all f rest with
          | Ok ys => Ok (y :: ys)
          | SystemExit e => SystemExit e
          | IndexError => IndexError
          end
      | SystemExit e => SystemExit e
      | IndexError => IndexError
      end
  end.

(** [lines.index(x)] *)
Definition index (x : string) (lines : list string) : option nat :=
  fst <$> list_find (λ line, line = x) lines.

(** [__call__], on the lines read from the file: the dictionary and the
    object as the call leaves it. *)
Definition call (py : builtins) (self : t) (lines : list string)
  : outcome (data * t) :=
  match index "GRID START" lines, index "GRID STOP" lines with
  | Some start, Some stop_idx =>
      let start_idx := S start in
      let '(g, self) :=
        scan_rows py 1 (take (stop_idx - start_idx) (drop start_idx lines))
          (Grid [] [] [] [] []) self in
      if bool_decide (o_positions g = []) then SystemExit no_open_positions
      else
        let h := height self in
        match config_lines py (drop (S stop_idx) lines)
                (Settings 0 0 0 [] []) with
        | Ok c =>
            if bool_decide (A_count c = 0 ∧ B_count c = 0 ∧ C_count c = 0)
            then SystemExit no_blocks
            else if bool_decide (lazors c = []) then SystemExit no_lazors
            else
              match transform_all (transform_lazor h) (lazors c) with
              | Ok lazers =>
                  match transform_all (transform_poi h) (points c) with
                  | Ok pois =>
                      Ok (Data (width self, h) (flip h (o_positions g))
                               lazers pois
                               (A_count c) (B_count c) (C_count c)
                               (flip h (x_positions g))
                               (flip h (A_blocks g)) (flip h (B_blocks g))
                               (flip h (C_blocks g)),
                          self)
                  | SystemExit e => SystemExit e
                  | IndexError => IndexError
                  end
              | SystemExit e => SystemExit e
              | IndexError => IndexError
              end
        | SystemExit e => SystemExit e
        | IndexError => IndexError
        end
  | _, _ => SystemExit no_grid_markers
  end.

End Input.

(** All the cells the grid lists. *)
Definition grid_cells (g : Input.grid) : list cell :=
  Input.o_positions g ++ Input.x_positions g ++ Input.A_blocks g
  ++ Input.B_blocks g ++ Input.C_blocks g.

Definition input_cells (d : Input.data) : list cell :=
  Input.o_l d ++ Input.x_l d ++ Input.A_l d ++ Input.B_l d ++ Input.C_l d.

(** The cells listed up to a place in the grid: distinct, in rows [1]
    to [y], left of column [x] in row [y] and of column [w] above. *)
Definition cells_before (w x y : Z) (cells : list cell) : Prop :=
  NoDup cells
  ∧ ∀ p, p ∈ cells →
         0 ≤ p.1 ∧ 1 ≤ p.2 ≤ y ∧ (p.2 = y → p.1 < x) ∧ (p.2 < y → p.1 < w).

(** A line after the grid with all its fields: blank or a comment once
    stripped, or with a first word, followed by four words at least
    when it is ['L'] and by two at least when it is ['P']. *)
Definition enough_fields (py : Input.builtins) (line : string) : bool :=
  let line := Input.strip py line in
  bool_decide (line = "") || Input.is_comment line
  || match Input.split py line with
     | [] => false
     | identifier :: rest =>
         (if decide (identifier = "L") then bool_decide (4 ≤ length rest)%nat
          else true)
         && (if decide (identifier = "P") then bool_decide (2 ≤ length rest)%nat
             else true)
     end.

(** Every lazor read so far has four numbers and every target two. *)
Definition full_length (c : Input.settings) : Prop :=
  Forall (λ lazor, length lazor = 4%nat) (Input.lazors c)
  ∧ Forall (λ poi, length poi = 2%nat) (Input.points c).

(** The tokens of the grid that stand for a cell. *)
Definition grid_tokens : list string := ["o"; "x"; "A"; "B"; "C"].

(** The list of positions a token of the grid goes to. *)
Definition positions (token : string) (g : Input.grid) : list cell :=
  if decide (token = "o") then Input.o_positions g
  else if decide (token = "x") then Input.x_positions g
  else if decide (token = "A") then Input.A_blocks g
  else if decide (token = "B") then Input.B_blocks g
  else if decide (token = "C") then Input.C_blocks g
  else [].

(** The entry of the dictionary the cells of a token end up in. *)
Definition listed (token : string) (d : Input.data) : list cell :=
  if decide (token = "o") then Input.o_l d
  else if decide (token = "x") then Input.x_l d
  else if decide (token = "A") then Input.A_l d
  else if decide (token = "B") then Input.B_l d
  else if decide (token = "C") then Input.C_l d
  else [].

(** [lines[start_idx:stop_idx]], the rows of the grid. *)
Definition grid_rows (lines : list string) : list string :=
  match Input.index "GRID START" lines, Input.index "GRID STOP" lines with
  | Some start, Some stop_idx =>
      take (stop_idx - S start) (drop (S start) lines)
  | _, _ => []
  end.

(** The token at place [x] of row [y] of the grid, both counted from
    zero, the rows from the top. *)
Definition token_at (py : Input.builtins) (rows : list string) (x y : Z)
  : option string :=
  rows !! Z.to_nat y ≫= λ line, Input.split py line !! Z.to_nat x.

(** [len(line.split())] for the longest row, [0] for no row. *)
Definition longest_row (py : Input.builtins) (rows : list string) : nat :=
  max_list_with (λ line, length (Input.split py line)) rows.

(** An int that a float holds exactly, whatever its parity: at most
    [2 ^ 53] in absolute value.  Beyond, [int * 0.5] works on the
    nearest float, or raises [OverflowError]. *)
Definition exact (n : Z) : Prop := Z.abs n ≤ 9007199254740992.

(** The numbers of a lazor or of a target for which the floats of
    [Input.__call__] are exact on a board of the given height: each of
    them, and [2 * height - y] for the second. *)
Definition exact_numbers (height : Z) (numbers : list Z) : Prop :=
  Forall exact numbers
  ∧ ∀ y, numbers !! 1%nat = Some y → exact (2 * height - y).





(** [Lazor_Solution.__init__].  The block counts are natural numbers in
    this development; with a negative count [combinations] raises
    [ValueError]. *)
Definition init (input_data : Input.data) : t :=
  Build (Input.o_l input_data) (Input.Size input_data)
        (Input.Lazers input_data) (Input.Points input_data)
        (Z.to_nat (Input.A input_data)) (Z.to_nat (Input.B input_data))
        (Z.to_nat (Input.C input_data))
        (Input.A_l input_data) (Input.B_l input_data) (Input.C_l input_data)
        ∅.

(** ** The figure of a solution

    [SaveSolution.build_figure]: the grid of colour numbers handed to
    the drawing code. *)

Module SaveSolution.

(** [color_mapping.get(block_type, 0)] for the labels of a dictionary
    of the solver. *)
Definition color_mapping (block_type : block) : Z :=
  match block_type with
  | blockA => 1
  | blockB => 2
  | blockC => 3
  end.

(** Where the index [i] falls in a list of length [n]: counted from the
    end when negative, nowhere ([IndexError]) beyond either end. *)
Definition place (n : nat) (i : Z) : option nat :=
  if decide (0 ≤ i < Z.of_nat n) then Some (Z.to_nat i)
  else if decide (- Z.of_nat n ≤ i < 0) then Some (Z.to_nat (Z.of_nat n + i))
  else None.

(** [figure[r][c] = v] *)
Definition set_item (figure : list (list Z)) (r c v : Z)
  : option (list (list Z)) :=
  i ← place (length figure) r;
  row ← figure !! i;
  j ← place (length row) c;
  Some (<[i := <[j := v]> row]> figure).

(** [for (x, y), v in cells: figure[size[1] - y - 1][x] = v] *)
Fixpoint paint (size : Z * Z) (cells : list (cell * Z))
  (figure : list (list Z)) : option (list (list Z)) :=
  match cells with
  | [] => Some figure
  | ((x, y), v) :: rest =>
      set_item figure (size.2 - y - 1) x v ≫= paint size rest
  end.

(** [build_figure], on the items of [self.sel_comb] in the order the
    dictionary yields them and on [self.info['x_l']]; [None] for
    [IndexError]. *)
Definition build_figure (items : list (cell * block)) (x_l : list cell)
  (size : Z * Z) : option (list (list Z)) :=
  let figure := replicate (Z.to_nat size.2) (replicate (Z.to_nat size.1) 0) in
  figure ← paint size (prod_map id color_mapping <$> items) figure;
  paint size ((λ position, (position, 4)) <$> x_l) figure.

End SaveSolution.

(** The entry of the figure for the cell [k] of a board of the given
    size: row [size[1] - y - 1], column [x]. *)
Definition figure_at (size : Z * Z) (figure : list (list Z)) (k : cell)
  : option Z :=
  figure !! Z.to_nat (size.2 - k.2 - 1) ≫= (.!! Z.to_nat k.1).

(** [size[1]] rows of [size[0]] entries. *)
Definition well_shaped (size : Z * Z) (figure : list (list Z)) : Prop :=
  length figure = Z.to_nat size.2
  ∧ Forall (λ row, length row = Z.to_nat size.1) figure.

(** The cell [k] lies on a board of the given size. *)
Definition on_board (size : Z * Z) (k : cell) : Prop :=
  0 ≤ k.1 < size.1 ∧ 0 ≤ k.2 < size.2.

(** The number [build_figure] writes for a token of the grid, a cell
    that is neither blocked nor a fixed block showing what the
    dictionary holds for it. *)
Definition token_color (token : string) (placed : option block) : Z :=
  if decide (token = "x") then 4
  else if decide (token = "A") then 1
  else if decide (token = "B") then 2
  else if decide (token = "C") then 3
  else from_option SaveSolution.color_mapping 0 placed.

(** ** Example puzzles *)

(** A one-cell board whose cell splits the beam entering from the left;
    another beam waits in the queue and one target is never hit. *)
Definition split_board : t :=
  Build [] (1, 1) [] [] 0 0 0 [] [] [(0, 0)] {[ (0, 0) := blockC ]}.

Definition split_config : config :=
  Config [(Half 9, Half 9)] (Some (Half 0, Half 1, Half 1, Half 1))
         [(Half 1, Half 0, Half 1, Half 1)].

(** A board with two targets; the beam starts on the first of them. *)
Definition two_targets : list point := [(Half 0, Half 1); (Half 9, Half 9)].

(** Scenario A: a fully open two by two board, one reflect block to
    place, the beam entering at the left of the bottom-left cell and
    travelling up and right, the target in the middle of the top edge
    of the top-left cell. *)
Definition scenario_a : t :=
  Build [(0, 1); (1, 1); (0, 0); (1, 0)] (2, 2)
        [(Half 0, Half 1, Half 1, Half 1)] [(Half 1, Half 4)]
        1 0 0 [] [] [] ∅.

Definition scenario_abc : t :=
  Build [(0, 1); (1, 1); (0, 0); (1, 0)] (2, 2)
        [(Half 0, Half 1, Half 1, Half 1)] [(Half 1, Half 4)]
        1 1 1 [] [] [] ∅.

(** A three by three board with fixed reflect blocks on the four cells
    next to the centre; the beam starts on the bottom edge of the
    centre cell and the target lies in a corner of the board. *)
Definition mirror_ring : t :=
  let self :=
    Build [(0, 2); (2, 2); (1, 1); (0, 0); (2, 0)] (3, 3)
          [(Half 3, Half 2, Half 1, Half 1)] [(Half 0, Half 0)]
          0 0 0 [(1, 2); (0, 1); (2, 1); (1, 0)] [] [] ∅ in
  set_sel_comb (fixed_blocks self) self.

Definition ring_beam (n : nat) : lazer :=
  match n with
  | 0 => (Half 4, Half 3, Half 1, Half 1)
  | 1 => (Half 3, Half 4, Half (-1), Half 1)
  | 2 => (Half 2, Half 3, Half (-1), Half (-1))
  | _ => (Half 3, Half 2, Half 1, Half (-1))
  end%nat.

Definition ring_next (n : nat) : nat :=
  match n with 0 => 1 | 1 => 2 | 2 => 3 | _ => 0 end%nat.

(** One open cell and two reflect blocks to place. *)
Definition crowded : t :=
  Build [(0, 0)] (1, 1) [(Half 0, Half 1, Half 1, Half 1)] [(Half 1, Half 2)]
        2 0 0 [] [] [] ∅.

(** A two by two board with one opaque block to place. *)
Definition opaque_puzzle : t :=
  Build [(0, 1); (1, 1); (0, 0); (1, 0)] (2, 2)
        [(Half 0, Half 1, Half 1, Half 1)] [(Half 1, Half 4)]
        0 1 0 [] [] [] ∅.

(** A two by two board whose target lies on a corner of cells. *)
Definition corner_target : t :=
  Build [(0, 1); (1, 1); (0, 0); (1, 0)] (2, 2)
        [(Half 0, Half 1, Half 1, Half 1)] [(Half 2, Half 2)]
        1 0 0 [] [] [] ∅.

(** *** A puzzle file

    Stand-ins for the built-ins, good for lines of words separated by
    single blanks, with no blank around them, and for decimal numbers
    with an optional minus sign. *)

Fixpoint words (cur line : string) : list string :=
  match line with
  | EmptyString => if decide (cur = "") then [] else [cur]
  | String c rest =>
      if decide (c = " "%char)
      then (if decide (cur = "") then words "" rest
            else cur :: words "" rest)
      else words (cur +:+ String c "") rest
  end.

Definition digit (c : ascii) : option Z :=
  let n := Z.of_N (N_of_ascii c) in
  if decide (48 ≤ n ≤ 57) then Some (n - 48) else None.

Fixpoint decimal (acc : Z) (tok : string) : option Z :=
  match tok with
  | EmptyString => Some acc
  | String c rest => d ← digit c; decimal (10 * acc + d) rest
  end.

Definition number (tok : string) : option Z :=
  match tok with
  | EmptyString => None
  | String c rest =>
      if decide (c = "-"%char)
      then (if decide (rest = "") then None else Z.opp <$> decimal 0 rest)
      else decimal 0 tok
  end.

Definition plain_builtins : Input.builtins :=
  Input.Builtins (words "") id number.

(** A two by two grid with one fixed reflect block, one reflect block
    to place, one lazor and one target. *)
Definition small_file : list string :=
  ["GRID START"; "o o"; "o A"; "GRID STOP"; "A 1"; "L 0 1 1 -1"; "P 3 2"].

Definition small_data : Input.data :=
  Input.Data (2, 2) [(0, 1); (1, 1); (0, 0)]
    [(Half 0, Half 3, Half 1, Half 1)] [(Half 3, Half 2)]
    1 0 0 [] [(1, 0)] [] [].

(** A file with a solution: a two by two grid with one blocked cell,
    one reflect block to place, one lazor and one target. *)
Definition solved_file : list string :=
  ["GRID START"; "o o"; "x o"; "GRID STOP"; "A 1"; "L 0 3 1 -1"; "P 1 0"].

Definition solved_data : Input.data :=
  Input.Data (2, 2) [(0, 1); (1, 1); (1, 0)]
    [(Half 0, Half 1, Half 1, Half 1)] [(Half 1, Half 4)]
    1 0 0 [(0, 0)] [] [] [].

(** *** A puzzle on which the solver hangs *)

(** A three by three grid with three fixed reflect blocks round the
    centre and two open cells; one reflect block to place. *)
Definition hang_file : list string :=
  ["GRID START"; "x o o"; "A x A"; "x A x"; "GRID STOP";
   "A 1"; "L 3 4 1 -1"; "P 2 1"].

Definition hang_data : Input.data :=
  Input.Data (3, 3) [(1, 2); (2, 2)]
    [(Half 3, Half 2, Half 1, Half 1)] [(Half 2, Half 5)]
    1 0 0 [(0, 2); (1, 1); (0, 0); (2, 0)] [(0, 1); (2, 1); (1, 0)] [] [].

(** The first Placement closes the ring of reflect blocks, the second
    leaves it open. *)
Definition hang_closed : gmap cell block :=
  {[ (1, 2) := blockA; (0, 1) := blockA; (2, 1) := blockA;
     (1, 0) := blockA ]}.

Definition hang_open : gmap cell block :=
  {[ (2, 2) := blockA; (0, 1) := blockA; (2, 1) := blockA;
     (1, 0) := blockA ]}.

(** ** Arithmetic on halves *)

(** Let [lia] see through division and remainder by a constant. *)
Ltac Zify.zify_post_hook ::= Z.to_euclidean_division_equations.

Lemma Z_even_cases (z : Z) :
  (Z.even z = true ∧ z mod 2 = 0) ∨ (Z.even z = false ∧ z mod 2 = 1).
Proof.
  destruct (Z.even z) eqn:E; [left | right]; split; try reflexivity.
  - apply Z.even_spec in E. destruct E as [m ->]. lia.
  - rewrite <- Z.negb_odd in E. apply negb_false_iff, Z.odd_spec in E.
    destruct E as [m ->]. lia.
Qed.

Ltac unfold_half :=
  unfold is_integer, hadd, hsub, hneg, lower_half, hltb, hleb, of_int in *;
  simpl twice in *.

Ltac destruct_lazer l :=
  let x := fresh "x" in let y := fresh "y" in
  let vx := fresh "vx" in let vy := fresh "vy" in
  destruct l as [[[[x] [y]] [vx]] [vy]].

(** Split on the parity of every integer whose evenness is tested. *)
Ltac even_cases :=
  repeat match goal with
    | H : context [Z.even ?z] |- _ =>
        let E := fresh "E" in
        destruct (Z_even_cases z) as [[E ?] | [E ?]]; rewrite ?E in *; clear E
    | |- context [Z.even ?z] =>
        let E := fresh "E" in
        destruct (Z_even_cases z) as [[E ?] | [E ?]]; rewrite ?E in *; clear E
    end.

Ltac ltb_cases :=
  repeat match goal with
    | |- context [?a <? ?b] => destruct (Z.ltb_spec a b)
    | H : context [?a <? ?b] |- _ => destruct (Z.ltb_spec a b)
    | |- context [?a <=? ?b] => destruct (Z.leb_spec a b)
    | H : context [?a <=? ?b] |- _ => destruct (Z.leb_spec a b)
    end.

(** ** The entered cell and the reflected beam *)

Lemma refract_paths (l : lazer) : refract l = [advance l; reflect l].
Proof.
  destruct l as [[[x y] vx] vy]. unfold refract, reflect, advance.
  destruct (is_integer x); reflexivity.
Qed.

(** C4, as stated, fails: with [x = 1] on a grid line and [dx = 0] the
    code takes its last branch and yields [(0.5, 0.5)], not the cell
    [(0, 0)]. *)
Lemma upd_pos_zero_delta_counterexample :
  let l := (Half 2, Half 1, Half 0, Half 1) in
  half_integer_inv l ∧ upd_pos l = (Half 1, Half 1)
  ∧ entered_cell_spec l = (Half 0, Half 0)
  ∧ upd_pos l ≠ entered_cell_spec l.
Proof. simpl. repeat split; try lia; try reflexivity. discriminate. Qed.

(** C4 (amended): for a beam state satisfying the half-integer invariant
    whose delta along its integer axis is not zero, [upd_pos] is the
    entered cell of the specification. *)
Theorem upd_pos_entered_cell (l : lazer) :
  half_integer_inv l →
  (let '(x, y, dx, dy) := l in
   (is_integer x = true → twice dx ≠ 0) ∧ (is_integer y = true → twice dy ≠ 0)) →
  upd_pos l = entered_cell_spec l.
Proof.
  destruct_lazer l. unfold half_integer_inv, upd_pos, entered_cell_spec.
  unfold_half. intros (Hxy & Hvx & Hvy) [Hx Hy].
  even_cases; simpl in *; try discriminate;
    ltb_cases; simpl; try reflexivity; try lia;
    exfalso; (apply Hx || apply Hy); (reflexivity || lia).
Qed.

Lemma upd_pos_entered_cell_witness :
  upd_pos (Half 2, Half 1, Half (-1), Half 1)
  = entered_cell_spec (Half 2, Half 1, Half (-1), Half 1).
Proof.
  apply (upd_pos_entered_cell (Half 2, Half 1, Half (-1), Half 1)).
  - simpl. repeat split; lia.
  - simpl. split; intros; [lia | discriminate].
Defined.

(** C5: under the half-integer invariant [reflect] negates the delta of
    the integer axis, steps back along it and forward along the other
    axis. *)
Theorem reflect_integer_axis (x y dx dy : half) :
  half_integer_inv (x, y, dx, dy) →
  (is_integer x = true →
   reflect (x, y, dx, dy) = ((x - dx)%half, (y + dy)%half, (- dx)%half, dy))
  ∧ (is_integer y = true →
     reflect (x, y, dx, dy) = ((x + dx)%half, (y - dy)%half, dx, (- dy)%half)).
Proof.
  intros (Hxy & _). unfold reflect. split; intros H.
  - rewrite H. reflexivity.
  - rewrite H in Hxy. simpl in Hxy. rewrite Hxy. reflexivity.
Qed.

Lemma reflect_integer_axis_witness :
  reflect (Half 4, Half 3, Half 1, Half 1) = (Half 3, Half 4, Half (-1), Half 1)
  ∧ reflect (Half 3, Half 4, Half (-1), Half 1)
    = (Half 2, Half 3, Half (-1), Half (-1)).
Proof.
  split.
  - apply (reflect_integer_axis (Half 4) (Half 3) (Half 1) (Half 1));
      [simpl; repeat split; lia | reflexivity].
  - apply (reflect_integer_axis (Half 3) (Half 4) (Half (-1)) (Half 1));
      [simpl; repeat split; lia | reflexivity].
Defined.

(** ** One simulation step keeps the beam well formed *)

(** C8, as stated, fails: a beam on the grid line [x = 0] with deltas
    [(0.5, 0)] satisfies the invariant and advances to [(0.5, 0.5)],
    where neither coordinate is an integer. *)
Lemma advance_zero_delta_counterexample :
  let self := Build [] (1, 1) [] [] 0 0 0 [] [] [] ∅ in
  let l := (Half 0, Half 1, Half 1, Half 0) in
  half_integer_inv l
  ∧ lazer_step self l = Again (Half 1, Half 1, Half 1, Half 0)
  ∧ ¬ half_integer_inv (Half 1, Half 1, Half 1, Half 0).
Proof.
  simpl. split; [repeat split; lia |]. split; [reflexivity |].
  intros (H & _). discriminate H.
Qed.

Lemma advance_reflect_rest (l : lazer) :
  twice l.1.2 = 0 → twice l.2 = 0 → advance l = l ∧ reflect l = l.
Proof.
  destruct_lazer l. simpl. intros -> ->. unfold advance, reflect.
  unfold_half. rewrite !Z.add_0_r, !Z.sub_0_r. simpl.
  by destruct (Z.even x).
Qed.

Lemma advance_inv (l : lazer) :
  half_integer_inv l → diagonal l →
  half_integer_inv (advance l) ∧ diagonal (advance l).
Proof.
  destruct_lazer l. unfold half_integer_inv, diagonal, advance. unfold_half.
  intros (Hxy & Hvx & Hvy) (Hx & Hy).
  assert (vx = 1 ∨ vx = -1) as [-> | ->] by lia;
    assert (vy = 1 ∨ vy = -1) as [-> | ->] by lia;
    (split; [| lia]); (split; [| lia]);
    even_cases; simpl in *; try discriminate; try reflexivity; lia.
Qed.

Lemma reflect_inv (l : lazer) :
  half_integer_inv l → diagonal l →
  half_integer_inv (reflect l) ∧ diagonal (reflect l).
Proof.
  destruct_lazer l. unfold half_integer_inv, diagonal, reflect. unfold_half.
  intros (Hxy & Hvx & Hvy) (Hx & Hy).
  assert (vx = 1 ∨ vx = -1) as [-> | ->] by lia;
    assert (vy = 1 ∨ vy = -1) as [-> | ->] by lia;
    even_cases; simpl in *; try discriminate;
    (split; [| lia]); (split; [| lia]);
    even_cases; simpl in *; try discriminate; try reflexivity; lia.
Qed.

Lemma lazer_step_eq (self : t) (l : lazer) :
  lazer_step self l
  = if negb (pos_chk self (upd_pos l)) then Break []
    else match sel_comb_get self (upd_pos l) with
         | Some blockA => Again (reflect l)
         | Some blockC => Break (refract l)
         | Some blockB => Break []
         | None => Again (advance l)
         end.
Proof. destruct l as [[[x y] vx] vy]. reflexivity. Qed.

Lemma step_current (self : t) (c : config) (l : lazer) :
  current c = Some l →
  step self c
  = match remove_point (pos l) (remaining_points c) with
    | [] => Return true
    | p :: rem =>
        match lazer_step self l with
        | Break new_lasers =>
            Next (Config (p :: rem) None (active_lasers c ++ new_lasers))
        | Again l' => Next (Config (p :: rem) (Some l') (active_lasers c))
        end
    end.
Proof.
  intros Hcur. unfold step. rewrite Hcur.
  destruct l as [[[x y] vx] vy]. unfold pos. simpl.
  destruct (remove_point (x, y) (remaining_points c)); reflexivity.
Qed.

(** While targets are outstanding, a pass of [check_solution] on the
    current beam does to it what [lazer_step] says. *)
Lemma step_follows_lazer_step (self : t) (c c' : config) (l : lazer) :
  current c = Some l → step self c = Next c' →
  match lazer_step self l with
  | Again l' => current c' = Some l' ∧ active_lasers c' = active_lasers c
  | Break new_lasers =>
      current c' = None ∧ active_lasers c' = active_lasers c ++ new_lasers
  end.
Proof.
  intros Hcur. rewrite (step_current self c l Hcur).
  destruct (remove_point _ _); [discriminate |].
  destruct (lazer_step self l); intros [= <-]; by split.
Qed.

Lemma lazer_step_cases (self : t) (l : lazer) :
  (lazer_step self l = Break [] ∨ lazer_step self l = Break (refract l))
  ∨ ((lazer_step self l = Again (advance l)
      ∨ lazer_step self l = Again (reflect l))
     ∧ pos_chk self (upd_pos l) = true).
Proof.
  destruct l as [[[x y] vx] vy]. unfold lazer_step.
  destruct (pos_chk self _); simpl; [| by left; left].
  destruct (sel_comb_get self _) as [[| |] |]; auto.
Qed.

Lemma deltas_agree_cases (l : lazer) :
  deltas_agree l → diagonal l ∨ (twice l.1.2 = 0 ∧ twice l.2 = 0).
Proof. destruct_lazer l. unfold deltas_agree, diagonal. simpl. lia. Qed.

Lemma diagonal_deltas_agree (l : lazer) : diagonal l → deltas_agree l.
Proof. destruct_lazer l. unfold deltas_agree, diagonal. simpl. lia. Qed.

Lemma advance_reflect_inv (l : lazer) :
  half_integer_inv l → deltas_agree l →
  (half_integer_inv (advance l) ∧ deltas_agree (advance l))
  ∧ (half_integer_inv (reflect l) ∧ deltas_agree (reflect l)).
Proof.
  intros Hinv [Hdiag | [Hvx Hvy]]%deltas_agree_cases.
  - destruct (advance_inv l Hinv Hdiag), (reflect_inv l Hinv Hdiag).
    auto using diagonal_deltas_agree.
  - destruct (advance_reflect_rest l Hvx Hvy) as [-> ->].
    assert (deltas_agree l) by (destruct_lazer l; simpl in *; lia). done.
Qed.

(** C8 (amended): for a beam state satisfying the half-integer invariant
    whose deltas are both zero or both non-zero, the advanced beam, the
    reflected beam and both beams of a split satisfy it again, and so
    does whatever one pass of the simulation loop makes of the beam. *)
Theorem step_preserves_half_integer_inv (l : lazer) :
  half_integer_inv l → deltas_agree l →
  (half_integer_inv (advance l) ∧ deltas_agree (advance l))
  ∧ (half_integer_inv (reflect l) ∧ deltas_agree (reflect l))
  ∧ Forall (λ l', half_integer_inv l' ∧ deltas_agree l') (refract l)
  ∧ ∀ self : t,
      match lazer_step self l with
      | Again l' => half_integer_inv l' ∧ deltas_agree l'
      | Break new_lasers =>
          Forall (λ l', half_integer_inv l' ∧ deltas_agree l') new_lasers
      end.
Proof.
  intros Hinv Hagree.
  destruct (advance_reflect_inv l Hinv Hagree) as [Ha Hr].
  assert (Forall (λ l', half_integer_inv l' ∧ deltas_agree l') (refract l))
    as Hs.
  { rewrite refract_paths. constructor; [done |]. by constructor. }
  split; [done |]. split; [done |]. split; [done |]. intros self.
  destruct (lazer_step_cases self l) as [[-> | ->] | [[-> | ->] _]];
    auto.
Qed.

Lemma step_preserves_half_integer_inv_witness :
  half_integer_inv (reflect (Half 4, Half 3, Half 1, Half 1))
  ∧ deltas_agree (reflect (Half 4, Half 3, Half 1, Half 1)).
Proof.
  apply (step_preserves_half_integer_inv (Half 4, Half 3, Half 1, Half 1));
    simpl; repeat split; lia.
Defined.

(** ** Splitting *)

(** C6: when the beam being traced meets a ['C'] block (targets are
    still outstanding and the entered cell is on the board), the pass
    ends this beam's trace and leaves the queue extended, at its end,
    by exactly two beams: the advanced beam and the reflected beam.
    The beams queued before are popped first, in their order. *)
Theorem split_enqueues_two (self : t) (c : config) (l : lazer) :
  current c = Some l →
  remove_point (pos l) (remaining_points c) ≠ [] →
  pos_chk self (upd_pos l) = true →
  sel_comb_get self (upd_pos l) = Some blockC →
  let rem := remove_point (pos l) (remaining_points c) in
  let children := [advance l; reflect l] in
  refract l = children
  ∧ step self c = Next (Config rem None (active_lasers c ++ children))
  ∧ (∀ fuel l1 rest,
       active_lasers c = l1 :: rest →
       run self (S (S fuel)) c
       = run self fuel (Config rem (Some l1) (rest ++ children)))
  ∧ (∀ fuel,
       active_lasers c = [] →
       run self (S (S fuel)) c
       = run self fuel (Config rem (Some (advance l)) [reflect l])).
Proof.
  intros Hcur Hrem Hpos Hget rem children.
  assert (step self c = Next (Config rem None (active_lasers c ++ children)))
    as Hstep.
  { rewrite (step_current self c l Hcur). fold rem.
    destruct rem as [| p rem'] eqn:E; [done |].
    rewrite lazer_step_eq, Hpos, Hget. simpl.
    rewrite refract_paths. reflexivity. }
  split; [apply refract_paths |]. split; [exact Hstep |].
  split; [intros fuel l1 rest Hq | intros fuel Hq];
    cbn [run]; rewrite Hstep; unfold step at 1; simpl;
    rewrite Hq; reflexivity.
Qed.

Lemma split_enqueues_two_witness :
  step split_board split_config
  = Next (Config [(Half 9, Half 9)] None
            [(Half 1, Half 0, Half 1, Half 1);
             (Half 1, Half 2, Half 1, Half 1);
             (Half (-1), Half 2, Half (-1), Half 1)]).
Proof.
  refine (proj1 (proj2 (split_enqueues_two split_board split_config
                          (Half 0, Half 1, Half 1, Half 1) _ _ _ _))).
  - reflexivity.
  - vm_compute. discriminate.
  - reflexivity.
  - vm_compute. reflexivity.
Defined.

(** ** The outstanding targets *)

Lemma remove_point_length pos rem :
  (length (remove_point pos rem) ≤ length rem)%nat.
Proof. apply length_filter. Qed.

Lemma remove_point_elem_of pos rem p :
  p ∈ remove_point pos rem → p ∈ rem.
Proof. unfold remove_point. rewrite list_elem_of_filter. tauto. Qed.

Lemma next_config_remaining (self : t) (c c' : config) :
  next_config self c c' →
  remaining_points c' = remaining_points c
  ∨ (∃ l, current c = Some l
          ∧ remaining_points c' = remove_point (pos l) (remaining_points c)
          ∧ remaining_points c' ≠ []).
Proof.
  unfold next_config. destruct (current c) as [l |] eqn:Hcur.
  - rewrite (step_current self c l Hcur). intros Hstep. right. exists l.
    destruct (remove_point _ _) as [| p rem]; [discriminate |].
    destruct (lazer_step self l); inversion Hstep; subst; simpl; done.
  - unfold step. rewrite Hcur.
    destruct (active_lasers c); [discriminate |].
    intros Hstep. inversion Hstep; subst. by left.
Qed.

Lemma run_return_true (self : t) (c : config) (l : lazer) (fuel : nat) :
  current c = Some l →
  remove_point (pos l) (remaining_points c) = [] →
  run self (S fuel) c = Some true.
Proof.
  intros Hcur Hrem. cbn [run].
  rewrite (step_current self c l Hcur), Hrem. reflexivity.
Qed.

(** C7: along one run of [check_solution] the list of outstanding
    targets never grows, a point once removed stays out, a run that
    still has targets to hit never continues without one, and the pass
    in which the last target is removed returns [True]. *)
Theorem targets_monotone (self : t) (c c' : config) :
  rtc (next_config self) c c' →
  (length (remaining_points c') ≤ length (remaining_points c))%nat
  ∧ (∀ p, p ∉ remaining_points c → p ∉ remaining_points c')
  ∧ (remaining_points c ≠ [] → remaining_points c' ≠ [])
  ∧ (∀ l fuel,
       current c' = Some l →
       remove_point (pos l) (remaining_points c') = [] →
       step self c' = Return true ∧ run self (S fuel) c' = Some true).
Proof.
  intros Hrtc.
  assert ((length (remaining_points c') ≤ length (remaining_points c))%nat
          ∧ (∀ p, p ∉ remaining_points c → p ∉ remaining_points c')
          ∧ (remaining_points c ≠ [] → remaining_points c' ≠ [])) as H.
  { induction Hrtc as [c | c c1 c' Hstep _ (IHlen & IHin & IHne)].
    - repeat split; auto.
    - destruct (next_config_remaining self c c1 Hstep)
        as [Heq | (l & _ & Heq & Hne)]; rewrite Heq in *.
      + repeat split; auto.
      + split; [| split].
        * pose proof (remove_point_length (pos l) (remaining_points c)). lia.
        * intros p Hp. apply IHin. intros Hin. apply Hp.
          by eapply remove_point_elem_of.
        * intros _. by apply IHne. }
  destruct H as (Hlen & Hin & Hne).
  split; [done |]. split; [done |]. split; [done |].
  intros l fuel Hcur Hrem. split.
  - rewrite (step_current self c' l Hcur). by rewrite Hrem.
  - by eapply run_return_true.
Qed.

Lemma targets_monotone_witness :
  let c := Config two_targets None [(Half 0, Half 1, Half 1, Half 1)] in
  let c' := Config [(Half 9, Half 9)] None
              [(Half 1, Half 2, Half 1, Half 1);
               (Half (-1), Half 2, Half (-1), Half 1)] in
  (length (remaining_points c') ≤ length (remaining_points c))%nat
  ∧ (∀ p, p ∉ remaining_points c → p ∉ remaining_points c').
Proof.
  intros c c'.
  refine (let H := targets_monotone split_board c c' _ in
          conj (proj1 H) (proj1 (proj2 H))).
  eapply rtc_l; [| eapply rtc_l; [| apply rtc_refl]].
  - reflexivity.
  - vm_compute. reflexivity.
Defined.

(** ** The solver as a scan of the candidate list *)

Lemma same_puzzle_refl self : same_puzzle self self.
Proof. exists (sel_comb self). by destruct self. Qed.

Lemma same_puzzle_set d self : same_puzzle self (set_sel_comb d self).
Proof. by exists d. Qed.

Lemma same_puzzle_trans s1 s2 s3 :
  same_puzzle s1 s2 → same_puzzle s2 s3 → same_puzzle s1 s3.
Proof. intros [d1 ->] [d2 ->]. by exists d2. Qed.

Lemma same_puzzle_sym s1 s2 : same_puzzle s1 s2 → same_puzzle s2 s1.
Proof. intros [d ->]. exists (sel_comb s1). by destruct s1. Qed.

Lemma same_puzzle_candidates s1 s2 :
  same_puzzle s1 s2 → candidates s2 = candidates s1.
Proof. by intros [d ->]. Qed.

Lemma first_success_same_puzzle fuel s1 s2 ds :
  same_puzzle s1 s2 → first_success fuel s2 ds = first_success fuel s1 ds.
Proof.
  intros [d ->]. induction ds as [| d' rest IH]; simpl; [done |].
  by rewrite IH.
Qed.

Lemma scan_same_puzzle fuel self ds s :
  scan fuel self ds = Completed s → same_puzzle self s.
Proof.
  revert self. induction ds as [| d rest IH]; intros self; simpl.
  - intros [= ->]. apply same_puzzle_refl.
  - destruct (check_solution _ _) as [[|] |]; try discriminate.
    intros H. apply IH in H.
    eapply same_puzzle_trans; [apply same_puzzle_set | exact H].
Qed.

Lemma returned_scan fuel self ds :
  returned (scan fuel self ds) = first_success fuel self ds.
Proof.
  revert self. induction ds as [| d rest IH]; intros self; simpl; [done |].
  destruct (check_solution _ _) as [[|] |]; try done.
  rewrite IH. apply first_success_same_puzzle, same_puzzle_set.
Qed.

Lemma scan_app fuel self ds1 ds2 :
  scan fuel self (ds1 ++ ds2)
  = match scan fuel self ds1 with
    | Completed s => scan fuel s ds2
    | r => r
    end.
Proof.
  revert self. induction ds1 as [| d rest IH]; intros self; simpl; [done |].
  destruct (check_solution _ _) as [[|] |]; try done.
Qed.

Lemma for_i_c_scan fuel self a_comb b_comb o_lC :
  for_i_c fuel self a_comb b_comb o_lC
  = scan fuel self (i_c ← o_lC; [new_sel_comb self a_comb b_comb i_c]).
Proof.
  revert self. induction o_lC as [| i_c rest IH]; intros self; simpl; [done |].
  destruct (check_solution _ _) as [[|] |]; try done.
  by rewrite IH.
Qed.

Lemma for_i_b_scan fuel self a_comb o_l o_lB :
  for_i_b fuel self a_comb o_l o_lB
  = scan fuel self
      (i_b ← o_lB;
       i_c ← combinations (not_chosen o_l i_b) (C self);
       [new_sel_comb self a_comb i_b i_c]).
Proof.
  revert self. induction o_lB as [| i_b rest IH]; intros self; [done |].
  cbn [for_i_b]. rewrite bind_cons, scan_app, for_i_c_scan.
  destruct (scan fuel self _) as [| d s | s] eqn:E; try done.
  apply scan_same_puzzle in E as [d ->]. by rewrite IH.
Qed.

Lemma for_i_a_scan fuel self self0 o_lA :
  same_puzzle self0 self →
  for_i_a fuel self o_lA
  = scan fuel self
      (i_a ← o_lA;
       let o_l := not_chosen (o_l self0) i_a in
       i_b ← combinations o_l (B self0);
       let o_l_b := not_chosen o_l i_b in
       i_c ← combinations o_l_b (C self0);
       [new_sel_comb self0 i_a i_b i_c]).
Proof.
  revert self. induction o_lA as [| i_a rest IH]; intros self Hsame; [done |].
  cbn [for_i_a]. rewrite bind_cons, scan_app, for_i_b_scan.
  destruct Hsame as [d0 ->]. simpl.
  destruct (scan fuel _ _) as [| d s | s] eqn:E; try done.
  apply scan_same_puzzle in E as [d ->]. apply IH. by exists d.
Qed.

Lemma call_scan fuel self :
  for_i_a fuel self (combinations (o_l self) (A self))
  = scan fuel self (candidates self).
Proof. apply (for_i_a_scan fuel self self), same_puzzle_refl. Qed.

(** [__call__] returns what scanning the candidates returns. *)
Lemma call_first_success fuel self :
  fst <$> call fuel self = first_success fuel self (candidates self).
Proof.
  unfold call. rewrite call_scan, <- returned_scan.
  by destruct (scan fuel self (candidates self)).
Qed.

Lemma scan_returned_same_puzzle fuel self ds d s :
  scan fuel self ds = Returned d s → same_puzzle self s.
Proof.
  revert self. induction ds as [| d' rest IH]; intros self; simpl; [done |].
  destruct (check_solution _ _) as [[|] |]; try done.
  - intros [= <- <-]. apply same_puzzle_set.
  - intros E. apply IH in E.
    eapply same_puzzle_trans; [apply same_puzzle_set | exact E].
Qed.

Lemma call_same_puzzle fuel self r s :
  call fuel self = Some (r, s) → same_puzzle self s.
Proof.
  unfold call. rewrite call_scan.
  destruct (scan fuel self _) as [| d s' | s'] eqn:E; intros [= <- <-].
  - by eapply scan_returned_same_puzzle.
  - by eapply scan_same_puzzle.
Qed.

(** ** More passes never change a result *)

Lemma run_mono (self : t) (fuel fuel' : nat) (c : config) (b : bool) :
  run self fuel c = Some b → (fuel ≤ fuel')%nat → run self fuel' c = Some b.
Proof.
  revert fuel' c. induction fuel as [| fuel IH]; intros fuel' c; [done |].
  destruct fuel' as [| fuel']; [lia |]. simpl.
  destruct (step self c); [done |]. intros H Hle. apply IH; [done | lia].
Qed.

Lemma check_solution_mono (self : t) (fuel fuel' : nat) (b : bool) :
  check_solution fuel self = Some b → (fuel ≤ fuel')%nat →
  check_solution fuel' self = Some b.
Proof. apply run_mono. Qed.

Lemma first_success_mono fuel fuel' self ds r :
  first_success fuel self ds = Some r → (fuel ≤ fuel')%nat →
  first_success fuel' self ds = Some r.
Proof.
  intros H Hle. induction ds as [| d rest IH]; simpl in *; [done |].
  destruct (check_solution fuel _) as [b |] eqn:E; [| done].
  rewrite (check_solution_mono _ _ _ _ E Hle). destruct b; auto.
Qed.

Lemma call_returns_iff fuel self r :
  (∃ self', call fuel self = Some (r, self'))
  ↔ first_success fuel self (candidates self) = Some r.
Proof.
  rewrite <- call_first_success. split.
  - intros [self' ->]. reflexivity.
  - destruct (call fuel self) as [[r' self'] |]; [| done].
    intros [= ->]. by exists self'.
Qed.

(** ** The solver returns the first success *)

Lemma sim_reports_common_fuel (self : t) (ds : list (gmap cell block)) :
  Forall (λ d, sim_reports self d false) ds →
  ∃ fuel0, ∀ fuel d, (fuel0 ≤ fuel)%nat → d ∈ ds →
    check_solution fuel (set_sel_comb d self) = Some false.
Proof.
  induction 1 as [| d ds [f Hf] _ [f0 IH]].
  - exists O. intros fuel d _ Hd. by apply elem_of_nil in Hd.
  - exists (f `max` f0)%nat. intros fuel d' Hle Hd.
    apply elem_of_cons in Hd as [-> | Hd].
    + eapply check_solution_mono; [exact Hf | lia].
    + apply IH; [lia | done].
Qed.

Lemma first_success_failures fuel self pre ds :
  (∀ d, d ∈ pre → check_solution fuel (set_sel_comb d self) = Some false) →
  first_success fuel self (pre ++ ds) = first_success fuel self ds.
Proof.
  induction pre as [| d pre IH]; intros H; simpl; [done |].
  rewrite (H d); [| by left]. apply IH. intros d' Hd'. apply H. by right.
Qed.

Lemma first_success_found fuel self ds d :
  first_success fuel self ds = Some (Some d) →
  ∃ pre post,
    ds = pre ++ d :: post
    ∧ Forall (λ d', check_solution fuel (set_sel_comb d' self) = Some false) pre
    ∧ check_solution fuel (set_sel_comb d self) = Some true.
Proof.
  induction ds as [| d' rest IH]; simpl; [done |].
  destruct (check_solution fuel (set_sel_comb d' self)) as [[|] |] eqn:E;
    [| | done].
  - intros [= ->]. exists [], rest. by repeat split.
  - intros H. destruct (IH H) as (pre & post & -> & Hpre & Hd).
    exists (d' :: pre), post. repeat split; [| done]. by constructor.
Qed.

(** ** Determinism *)

(** C9: two runs of [__call__] on the same puzzle, whatever dictionary
    an earlier run left in [sel_comb], return the same value; the
    second run returns whenever it is given as many passes as the
    first; and a run leaves the puzzle as it found it. *)
Theorem call_deterministic (self1 self2 : t) (fuel1 fuel2 : nat)
  (r1 : option (gmap cell block)) (s1 : t) :
  same_puzzle self1 self2 →
  call fuel1 self1 = Some (r1, s1) →
  (∀ r2 s2, call fuel2 self2 = Some (r2, s2) → r2 = r1)
  ∧ ((fuel1 ≤ fuel2)%nat → ∃ s2, call fuel2 self2 = Some (r1, s2))
  ∧ same_puzzle self1 s1.
Proof.
  intros Hsame Hcall.
  assert (first_success fuel1 self1 (candidates self1) = Some r1) as H1.
  { apply call_returns_iff. by exists s1. }
  assert (∀ fuel r, first_success fuel self2 (candidates self2) = Some r
                    ↔ first_success fuel self1 (candidates self1) = Some r)
    as Heq.
  { intros fuel r.
    by rewrite (same_puzzle_candidates _ _ Hsame),
         (first_success_same_puzzle _ _ _ _ Hsame). }
  split; [| split].
  - intros r2 s2 Hcall2.
    assert (first_success fuel2 self1 (candidates self1) = Some r2) as H2.
    { apply Heq, call_returns_iff. by exists s2. }
    destruct (Nat.le_ge_cases fuel1 fuel2) as [Hle | Hle].
    + rewrite (first_success_mono _ _ _ _ _ H1 Hle) in H2. congruence.
    + rewrite (first_success_mono _ _ _ _ _ H2 Hle) in H1. congruence.
  - intros Hle. apply call_returns_iff, Heq.
    by eapply first_success_mono.
  - by eapply call_same_puzzle.
Qed.

Lemma call_deterministic_witness :
  ∃ s2, call 10 (set_sel_comb {[ (0, 0) := blockB ]} scenario_a)
        = Some (Some {[ (1, 1) := blockA ]}, s2).
Proof.
  refine (proj1 (proj2 (call_deterministic scenario_a
            (set_sel_comb {[ (0, 0) := blockB ]} scenario_a) 10 10
            (Some {[ (1, 1) := blockA ]})
            (set_sel_comb {[ (1, 1) := blockA ]} scenario_a) _ _)) _).
  - exists {[ (0, 0) := blockB ]}. reflexivity.
  - vm_compute. reflexivity.
  - lia.
Defined.

(** ** No targets *)

(** C10: with an empty list of targets [check_solution] returns [True]
    whatever the dictionary and the beams, within two passes, and
    [__call__] returns the first dictionary its loops build. *)
Theorem no_targets_first_candidate (self : t) :
  points self = [] →
  (∀ fuel, (2 ≤ fuel)%nat → check_solution fuel self = Some true)
  ∧ (∀ fuel d, (2 ≤ fuel)%nat →
       check_solution fuel (set_sel_comb d self) = Some true)
  ∧ (∀ fuel d rest, (2 ≤ fuel)%nat →
       candidates self = d :: rest →
       ∃ self', call fuel self = Some (Some d, self')).
Proof.
  intros Hpoints.
  assert (∀ fuel s, points s = [] → (2 ≤ fuel)%nat →
                    check_solution fuel s = Some true) as Hcheck.
  { intros fuel s Hs Hle. destruct fuel as [| [| fuel]]; try lia.
    unfold check_solution. rewrite Hs. cbn [run]. unfold step at 1. simpl.
    destruct (lazers s) as [| l rest]; [done |].
    unfold step. simpl. by destruct l as [[[x y] vx] vy]. }
  split; [| split].
  - intros fuel Hle. by apply Hcheck.
  - intros fuel d Hle. by apply Hcheck.
  - intros fuel d rest Hle Hcand. apply call_returns_iff.
    rewrite Hcand. simpl. by rewrite Hcheck.
Qed.

Lemma no_targets_first_candidate_witness :
  ∃ self', call 2 (Build [(0, 0); (1, 0)] (2, 1)
                     [(Half 0, Half 1, Half 1, Half 1)] [] 1 0 0 [] [] [] ∅)
           = Some (Some {[ (0, 0) := blockA ]}, self').
Proof.
  refine (proj2 (proj2 (no_targets_first_candidate
            (Build [(0, 0); (1, 0)] (2, 1)
               [(Half 0, Half 1, Half 1, Half 1)] [] 1 0 0 [] [] [] ∅) _))
            2%nat {[ (0, 0) := blockA ]} [ {[ (1, 0) := blockA ]} ] _ _).
  - reflexivity.
  - lia.
  - vm_compute. reflexivity.
Defined.

(** ** Counting the candidates *)

Lemma binom_gt (n k : nat) : (n < k)%nat → binom n k = 0%nat.
Proof.
  revert k. induction n as [| n IH]; intros [| k] H; simpl; try lia.
  rewrite !IH; lia.
Qed.

(** [binom] is the usual quotient of factorials. *)
Lemma binom_fact (n k : nat) :
  (k ≤ n)%nat → (binom n k * (fact k * fact (n - k)) = fact n)%nat.
Proof.
  revert k. induction n as [| n IH]; intros [| k] H; try lia.
  - simpl. lia.
  - cbn [binom fact]. rewrite Nat.sub_0_r. cbn [fact]. lia.
  - cbn [binom]. replace (S n - S k)%nat with (n - k)%nat by lia.
    assert (k ≤ n)%nat as Hk by lia. specialize (IH k Hk) as IHk.
    destruct (decide (k = n)) as [-> | Hne].
    + rewrite (binom_gt n (S n)) by lia. rewrite Nat.sub_diag in *.
      cbn [fact] in *. nia.
    + assert (S k ≤ n)%nat as Hk' by lia. specialize (IH (S k) Hk').
      replace (n - k)%nat with (S (n - S k)) in * by lia.
      cbn [fact] in *. nia.
Qed.

Lemma length_combinations {T : Type} (l : list T) (r : nat) :
  length (combinations l r) = binom (length l) r.
Proof.
  revert r. induction l as [| x l IH]; intros [| r]; simpl; try done.
  by rewrite length_app, length_map, !IH.
Qed.

Lemma combinations_sublist {T : Type} (l c : list T) (r : nat) :
  c ∈ combinations l r → c `sublist_of` l ∧ length c = r.
Proof.
  revert r c. induction l as [| x l IH]; intros [| r] c; simpl.
  - intros ->%list_elem_of_singleton. split; [constructor | done].
  - by intros ?%elem_of_nil.
  - intros ->%list_elem_of_singleton. split; [apply sublist_nil_l | done].
  - rewrite elem_of_app, list_elem_of_fmap.
    intros [(c' & -> & Hc') | Hc].
    + destruct (IH _ _ Hc') as [Hsub <-]. split; [by constructor | done].
    + destruct (IH _ _ Hc) as [Hsub <-]. split; [by constructor | done].
Qed.

Lemma filter_iff_on {T : Type} (P Q : T → Prop)
  `{!∀ x, Decision (P x), !∀ x, Decision (Q x)} (l : list T) :
  (∀ x, x ∈ l → P x ↔ Q x) → filter P l = filter Q l.
Proof.
  induction l as [| x l IH]; intros Hiff; [done |].
  rewrite !filter_cons, IH by (intros y Hy; apply Hiff; by right).
  apply decide_ext, Hiff. by left.
Qed.

Lemma not_chosen_length (o_l comb : list cell) :
  NoDup o_l → comb `sublist_of` o_l →
  length (not_chosen o_l comb) = (length o_l - length comb)%nat.
Proof.
  unfold not_chosen. intros Hnd Hsub. induction Hsub as [| x c l Hsub IH | x c l Hsub IH].
  - done.
  - apply NoDup_cons in Hnd as [Hx Hnd].
    rewrite filter_cons_False by (intros H; apply H; by left). simpl.
    rewrite <- IH by done. f_equal. apply filter_iff_on.
    intros p Hp. rewrite not_elem_of_cons.
    split; [tauto |]. intros H. split; [| done]. by intros ->.
  - apply NoDup_cons in Hnd as [Hx Hnd].
    assert (x ∉ c) as Hxc. { intros H. apply Hx. by eapply elem_of_sublist. }
    rewrite filter_cons_True by done. simpl. rewrite IH by done.
    apply sublist_length in Hsub. lia.
Qed.

Lemma not_chosen_NoDup (o_l comb : list cell) :
  NoDup o_l → NoDup (not_chosen o_l comb).
Proof. apply NoDup_filter. Qed.

Lemma length_bind_const {T U : Type} (f : T → list U) (l : list T) (m : nat) :
  (∀ x, x ∈ l → length (f x) = m) →
  length (l ≫= f) = (length l * m)%nat.
Proof.
  induction l as [| x l IH]; intros H; [done |].
  rewrite bind_cons, length_app, IH, (H x); simpl; [lia | by left |].
  intros y Hy. apply H. by right.
Qed.

(** ** The trace of a single beam *)

(** Case analysis on a diagonal beam satisfying the invariant: the
    signs of its deltas and the parities of its coordinates. *)
Ltac diagonal_cases Hinv Hdiag :=
  unfold half_integer_inv, diagonal in Hinv, Hdiag; unfold_half;
  let Hxy := fresh "Hxy" in
  let Hvx := fresh "Hvx" in let Hvy := fresh "Hvy" in
  let Hx := fresh "Hx" in let Hy := fresh "Hy" in
  destruct Hinv as (Hxy & Hvx & Hvy); destruct Hdiag as (Hx & Hy);
  match type of Hvx with
  | _ ≤ ?vx ≤ _ =>
      let E := fresh "E" in
      assert (vx = 1 ∨ vx = -1) as [E | E] by lia; subst vx
  end;
  match type of Hvy with
  | _ ≤ ?vy ≤ _ =>
      let E := fresh "E" in
      assert (vy = 1 ∨ vy = -1) as [E | E] by lia; subst vy
  end;
  clear Hvx Hvy Hx Hy;
  even_cases; simpl in Hxy; try discriminate Hxy; clear Hxy.

Lemma advance_circuit (l : lazer) :
  half_integer_inv l → diagonal l → circuit (advance l) = circuit l.
Proof.
  destruct_lazer l. intros Hinv Hdiag. unfold circuit, advance.
  diagonal_cases Hinv Hdiag; lia.
Qed.

Lemma reflect_circuit (l : lazer) :
  half_integer_inv l → diagonal l → circuit (reflect l) = circuit l.
Proof.
  destruct_lazer l. intros Hinv Hdiag. unfold circuit, reflect.
  diagonal_cases Hinv Hdiag; unfold_half; even_cases; simpl; lia.
Qed.

Lemma lazer_step_again (self : t) (l l' : lazer) :
  lazer_step self l = Again l' →
  (l' = advance l ∨ l' = reflect l) ∧ pos_chk self (upd_pos l) = true.
Proof.
  destruct (lazer_step_cases self l) as [[-> | ->] | [[-> | ->] Hpos]];
    try discriminate; intros [= <-]; auto.
Qed.

Lemma lazer_step_on_circuit (self : t) (k : Z) (l l' : lazer) :
  on_circuit k l → lazer_step self l = Again l' → on_circuit k l'.
Proof.
  intros (Hinv & Hdiag & Hk) [[-> | ->] _]%lazer_step_again.
  - destruct (advance_inv l Hinv Hdiag). repeat split; try done.
    by rewrite advance_circuit.
  - destruct (reflect_inv l Hinv Hdiag). repeat split; try done.
    by rewrite reflect_circuit.
Qed.

(** On one circuit a beam state is determined by the cell it enters
    and the side it enters through. *)
Lemma slot_inj (k : Z) (l1 l2 : lazer) :
  on_circuit k l1 → on_circuit k l2 → slot l1 = slot l2 → l1 = l2.
Proof.
  destruct_lazer l1. destruct_lazer l2.
  intros (Hinv1 & Hdiag1 & Hk1) (Hinv2 & Hdiag2 & Hk2).
  unfold circuit in Hk1, Hk2. unfold slot, upd_pos.
  diagonal_cases Hinv1 Hdiag1; diagonal_cases Hinv2 Hdiag2;
    simpl; intros [=]; repeat f_equal; lia.
Qed.

Lemma elem_of_slots (w h c r e : Z) :
  ((c, r), e) ∈ slots w h ↔ (0 ≤ c < w ∧ 0 ≤ r < h ∧ 0 ≤ e ≤ 3).
Proof.
  unfold slots. rewrite list_elem_of_bind. split.
  - intros (c' & (r' & (e' & He & He')%list_elem_of_bind
                  & Hr)%list_elem_of_bind & Hc).
    apply list_elem_of_singleton in He as [= -> -> ->].
    apply elem_of_seqZ in Hc, Hr.
    repeat (apply elem_of_cons in He' as [-> | He']); try lia.
    by apply elem_of_nil in He'.
  - intros (Hc & Hr & He). exists c. split; [| apply elem_of_seqZ; lia].
    apply list_elem_of_bind. exists r. split; [| apply elem_of_seqZ; lia].
    apply list_elem_of_bind. exists e. split; [by apply list_elem_of_singleton |].
    assert (e = 0 ∨ e = 1 ∨ e = 2 ∨ e = 3) as He' by lia. clear -He'.
    destruct He' as [-> | [-> | [-> | ->]]];
      repeat first [by left | right].
Qed.

Lemma length_slots (w h : Z) :
  0 ≤ w → 0 ≤ h → Z.of_nat (length (slots w h)) = w * h * 4.
Proof.
  intros Hw Hh. unfold slots.
  rewrite (length_bind_const _ _ (Z.to_nat h * 4)%nat), length_seqZ; [lia |].
  intros c _. rewrite (length_bind_const _ _ 4%nat), length_seqZ; [lia |].
  done.
Qed.

(** Only the last state of a trace ends the loop. *)
Lemma beam_path_break_unique (self : t) (fuel : nat) (l x y : lazer) :
  x ∈ beam_path self fuel l → y ∈ beam_path self fuel l →
  continues self x = false → continues self y = false → x = y.
Proof.
  revert l. induction fuel as [| fuel IH]; intros l; cbn [beam_path].
  - by intros ?%elem_of_nil.
  - unfold continues at 1 2.
    destruct (lazer_step self l) as [new | l'] eqn:E.
    + by intros ->%list_elem_of_singleton ->%list_elem_of_singleton.
    + intros [-> | Hx]%elem_of_cons [-> | Hy]%elem_of_cons Hcx Hcy;
        unfold continues in *; rewrite ?E in *; try discriminate.
      by eapply IH.
Qed.

Lemma length_filter_split {T : Type} (P : T → Prop)
  `{!∀ x, Decision (P x)} (l : list T) :
  length l = (length (filter P l) + length (filter (λ x, ¬ P x) l))%nat.
Proof.
  induction l as [| x l IH]; [done |].
  rewrite !filter_cons. destruct (decide (P x)) as [Hx | Hx].
  - rewrite decide_False by tauto. simpl. lia.
  - rewrite decide_True by tauto. simpl. lia.
Qed.

Lemma NoDup_all_equal_length {T : Type} (l : list T) :
  NoDup l → (∀ x y, x ∈ l → y ∈ l → x = y) → (length l ≤ 1)%nat.
Proof.
  destruct l as [| x [| y l]]; simpl; [lia | lia |].
  intros [Hx _]%NoDup_cons Heq. exfalso. apply Hx.
  rewrite (Heq x y); [by left | by left | by right; left].
Qed.

Lemma length_remove_dups_cons {T : Type} `{EqDecision T} (x : T) (l : list T) :
  (length (remove_dups (x :: l)) ≤ S (length (remove_dups l)))%nat.
Proof. simpl. destruct (decide_rel elem_of x l); simpl; lia. Qed.

(** *** Counting the states of a trace

    A family [Inv] of beam states closed under the passes of the loop,
    told apart by a code; the codes of the states the loop goes on from
    lie in [codes], and two of these, [a] and [b], are never the code
    of a state reached by a pass.  Then a trace within the family has
    no more distinct states than there are codes: those reached by a
    pass and left by another take distinct codes other than [a] and
    [b], which leaves room for the first state and the last. *)
Section trace_count.

Context (self : t) {K : Type}.
Variables (Inv : lazer → Prop) (code : lazer → K) (codes : list K) (a b : K).
Hypothesis Inv_step :
  ∀ l l', Inv l → lazer_step self l = Again l' →
          Inv l' ∧ code l' ≠ a ∧ code l' ≠ b.
Hypothesis code_inj : ∀ l1 l2, Inv l1 → Inv l2 → code l1 = code l2 → l1 = l2.
Hypothesis code_in :
  ∀ l l', Inv l → lazer_step self l = Again l' → code l ∈ codes.
Hypothesis a_b : a ≠ b ∧ a ∈ codes ∧ b ∈ codes.

Lemma beam_path_successors (fuel : nat) (l0 l : lazer) :
  Inv l0 → lazer_step self l0 = Again l →
  Forall (λ x, Inv x ∧ code x ≠ a ∧ code x ≠ b) (beam_path self fuel l).
Proof using Inv_step.
  revert l0 l. induction fuel as [| fuel IH]; intros l0 l Hl0 Hstep;
    [constructor |].
  pose proof (Inv_step _ _ Hl0 Hstep) as Hl.
  cbn [beam_path]. constructor; [done |].
  destruct (lazer_step self l) as [new | l'] eqn:E; [constructor |].
  eapply IH; [apply Hl | done].
Qed.

(** The distinct states of a trace after its first pass. *)
Lemma beam_path_successors_distinct (fuel : nat) (l0 l : lazer) :
  Inv l0 → lazer_step self l0 = Again l →
  (length (remove_dups (beam_path self fuel l)) + 1 ≤ length codes)%nat.
Proof using Inv_step code_inj code_in a_b.
  intros Hl0 Hstep.
  pose proof (beam_path_successors fuel l0 l Hl0 Hstep) as Hall.
  pose proof (beam_path_break_unique self fuel l) as Hbreak.
  set (path := beam_path self fuel l) in *.
  set (D := remove_dups path).
  assert (NoDup D) as HD by apply NoDup_remove_dups.
  assert (∀ x, x ∈ D → x ∈ path) as HDin by (intros x; apply elem_of_remove_dups).
  rewrite (length_filter_split (λ x, continues self x = true) D).
  assert (length (filter (λ x, ¬ continues self x = true) D) ≤ 1)%nat as Hlast.
  { apply NoDup_all_equal_length; [by apply NoDup_filter |].
    intros x y [Hx Hxin]%list_elem_of_filter [Hy Hyin]%list_elem_of_filter.
    apply Hbreak; auto; by apply not_true_is_false. }
  set (Dc := filter (λ x, continues self x = true) D) in *.
  assert (∀ x, x ∈ Dc →
               continues self x = true ∧ Inv x ∧ code x ≠ a ∧ code x ≠ b)
    as HDc.
  { intros x [Hx Hxin]%list_elem_of_filter. split; [done |].
    rewrite Forall_forall in Hall. by apply Hall, HDin. }
  assert (NoDup (code <$> Dc)) as Hcodes.
  { apply NoDup_fmap_2_strong; [| by apply NoDup_filter].
    intros x y Hx Hy. apply code_inj; by apply HDc. }
  destruct a_b as (Hab & Ha & Hb).
  assert (NoDup (a :: b :: (code <$> Dc))) as Hnd.
  { apply NoDup_cons. split.
    - rewrite not_elem_of_cons, list_elem_of_fmap. split; [done |].
      intros (x & Hx & Hxin). by destruct (HDc x Hxin) as (_ & _ & Hne & _).
    - apply NoDup_cons. split; [| done]. rewrite list_elem_of_fmap.
      intros (x & Hx & Hxin). by destruct (HDc x Hxin) as (_ & _ & _ & Hne). }
  assert (a :: b :: (code <$> Dc) ⊆+ codes) as Hsub.
  { apply NoDup_submseteq; [done |]. intros s.
    rewrite !elem_of_cons, list_elem_of_fmap.
    intros [-> | [-> | (x & -> & Hxin)]]; [done | done |].
    destruct (HDc x Hxin) as (Hc & Hinv & _).
    unfold continues in Hc.
    destruct (lazer_step self x) as [| x'] eqn:E; [done |].
    by eapply code_in. }
  apply submseteq_length in Hsub. simpl in Hsub. rewrite length_fmap in Hsub.
  clearbody Dc D path. clear -Hsub Hlast. lia.
Qed.

(** The distinct states of a whole trace. *)
Lemma trace_count (fuel : nat) (l : lazer) :
  Inv l → (length (remove_dups (beam_path self fuel l)) ≤ length codes)%nat.
Proof using Inv_step code_inj code_in a_b.
  intros Hinv.
  assert (1 ≤ length codes)%nat as Hone.
  { destruct a_b as (_ & Ha & _). destruct codes; [| simpl; lia].
    by apply elem_of_nil in Ha. }
  destruct fuel as [| fuel]; [simpl; lia |].
  cbn [beam_path]. destruct (lazer_step self l) as [new | l'] eqn:E; [done |].
  pose proof (length_remove_dups_cons l (beam_path self fuel l')) as Hcons.
  pose proof (beam_path_successors_distinct fuel l l' Hinv E). lia.
Qed.

End trace_count.

(** *** Diagonal beams *)

Section diagonal_beam.

Context (self : t) (w h : Z).
Hypothesis Hsize : size self = (w, h).

Lemma pos_chk_slot (l : lazer) :
  half_integer_inv l → diagonal l →
  pos_chk self (upd_pos l) = true → slot l ∈ slots w h.
Proof using Hsize.
  destruct_lazer l. intros Hinv Hdiag. unfold pos_chk, slot, upd_pos.
  rewrite Hsize.
  diagonal_cases Hinv Hdiag; simpl;
    rewrite !andb_true_iff, !Z.leb_le, !Z.ltb_lt;
    intros [[? ?] [? ?]]; apply elem_of_slots; lia.
Qed.

(** A beam that has gone round the loop once no longer enters the
    bottom-left cell from outside the board. *)
Lemma successor_slot (l l' : lazer) :
  half_integer_inv l → diagonal l →
  lazer_step self l = Again l' →
  slot l' ≠ ((0, 0), 0) ∧ slot l' ≠ ((0, 0), 2).
Proof using Hsize.
  destruct_lazer l. intros Hinv Hdiag [Hl' Hpos]%lazer_step_again.
  revert Hpos. unfold pos_chk, upd_pos. rewrite Hsize.
  unfold advance, reflect in Hl'.
  diagonal_cases Hinv Hdiag; simpl;
    rewrite !andb_true_iff, !Z.leb_le, !Z.ltb_lt;
    intros [[? ?] [? ?]]; destruct Hl' as [-> | ->];
    unfold slot, upd_pos; unfold_half; even_cases; simpl;
    (split; intros [=]; lia).
Qed.

Lemma diagonal_trace_count (fuel : nat) (l : lazer) :
  0 < w → 0 < h → half_integer_inv l → diagonal l →
  Z.of_nat (length (remove_dups (beam_path self fuel l))) ≤ w * h * 4.
Proof using Hsize.
  intros Hw Hh Hinv Hdiag.
  rewrite <- (length_slots w h) by lia. apply inj_le.
  apply (trace_count self (on_circuit (circuit l)) slot (slots w h)
           ((0, 0), 0) ((0, 0), 2)).
  - intros x x' Hx Hstep. split; [by eapply lazer_step_on_circuit |].
    destruct Hx as (Hxinv & Hxdiag & _). by eapply successor_slot.
  - apply slot_inj.
  - intros x x' (Hxinv & Hxdiag & _) [_ Hpos]%lazer_step_again.
    by apply pos_chk_slot.
  - split; [done |]. split; apply elem_of_slots; lia.
  - by repeat split.
Qed.

End diagonal_beam.

(** *** Beams along a row or a column, and beams at rest *)

Lemma elem_of_horizontal_codes (w x v : Z) :
  (x, v) ∈ horizontal_codes w
  ↔ (v = 1 ∧ 0 ≤ x < 2 * w) ∨ (v = -1 ∧ 1 ≤ x < 1 + 2 * w).
Proof.
  unfold horizontal_codes. rewrite elem_of_app, !list_elem_of_fmap.
  setoid_rewrite elem_of_seqZ. split.
  - intros [(x' & [= -> ->] & H) | (x' & [= -> ->] & H)]; [left | right]; lia.
  - intros [[-> H] | [-> H]]; [left | right]; by exists x.
Qed.

Lemma elem_of_vertical_codes (h x0 y v : Z) :
  (y, v) ∈ vertical_codes h x0
  ↔ (v = 1 ∧ 0 ≤ y < 2 * h)
    ∨ (v = -1 ∧ (if Z.even x0 then 0 else 2) ≤ y
       < (if Z.even x0 then 0 else 2) + 2 * h).
Proof.
  unfold vertical_codes. rewrite elem_of_app, !list_elem_of_fmap.
  setoid_rewrite elem_of_seqZ. split.
  - intros [(y' & [= -> ->] & H) | (y' & [= -> ->] & H)]; [left | right]; lia.
  - intros [[-> H] | [-> H]]; [left | right]; by exists y.
Qed.

Section straight_beam.

Context (self : t) (w h : Z).
Hypothesis Hsize : size self = (w, h).

Ltac straight_cases Hl' Hpos :=
  revert Hpos; unfold pos_chk, upd_pos; rewrite Hsize;
  unfold advance, reflect in Hl'; unfold_half; even_cases; simpl;
  rewrite !andb_true_iff, !Z.leb_le, !Z.ltb_lt; intros [[? ?] [? ?]].

Lemma horizontal_step (y0 : Z) (l l' : lazer) :
  horizontal y0 l → lazer_step self l = Again l' →
  (horizontal y0 l' ∧ horizontal_code l' ≠ (0, 1)
   ∧ horizontal_code l' ≠ (2 * w, -1))
  ∧ horizontal_code l ∈ horizontal_codes w.
Proof using Hsize.
  destruct_lazer l. unfold horizontal at 1. simpl twice.
  intros (<- & -> & Hvx) [Hl' Hpos]%lazer_step_again.
  destruct Hvx as [-> | ->]; straight_cases Hl' Hpos;
    destruct Hl' as [-> | ->]; unfold horizontal, horizontal_code;
    unfold_half; simpl; rewrite elem_of_horizontal_codes;
    (split; [split; [lia | split; intros [=]; lia] | lia]).
Qed.

Lemma horizontal_code_inj (y0 : Z) (l1 l2 : lazer) :
  horizontal y0 l1 → horizontal y0 l2 →
  horizontal_code l1 = horizontal_code l2 → l1 = l2.
Proof.
  destruct_lazer l1. destruct_lazer l2. unfold horizontal, horizontal_code.
  simpl. intros (<- & -> & _) (-> & -> & _) [= -> ->]. done.
Qed.

Lemma vertical_step (x0 : Z) (l l' : lazer) :
  vertical x0 l → lazer_step self l = Again l' →
  (vertical x0 l' ∧ vertical_code l' ≠ (0, 1)
   ∧ vertical_code l' ≠ ((if Z.even x0 then 0 else 2) + 2 * h - 1, -1))
  ∧ vertical_code l ∈ vertical_codes h x0.
Proof using Hsize.
  destruct_lazer l. unfold vertical at 1. simpl twice.
  intros (<- & -> & Hvy) [Hl' Hpos]%lazer_step_again.
  destruct Hvy as [-> | ->]; straight_cases Hl' Hpos;
    destruct Hl' as [-> | ->]; unfold vertical, vertical_code;
    unfold_half; simpl; rewrite elem_of_vertical_codes;
    even_cases; simpl;
    (split; [split; [lia | split; intros [=]; lia] | lia]).
Qed.

Lemma vertical_code_inj (x0 : Z) (l1 l2 : lazer) :
  vertical x0 l1 → vertical x0 l2 →
  vertical_code l1 = vertical_code l2 → l1 = l2.
Proof.
  destruct_lazer l1. destruct_lazer l2. unfold vertical, vertical_code.
  simpl. intros (<- & -> & _) (-> & -> & _) [= -> ->]. done.
Qed.

Lemma horizontal_trace_count (fuel : nat) (y0 : Z) (l : lazer) :
  0 < w → 0 < h → horizontal y0 l →
  Z.of_nat (length (remove_dups (beam_path self fuel l))) ≤ w * h * 4.
Proof using Hsize.
  intros Hw Hh Hl.
  assert (Z.of_nat (length (horizontal_codes w)) ≤ w * h * 4) as Hlen.
  { unfold horizontal_codes.
    rewrite length_app, !length_fmap, !length_seqZ. nia. }
  etrans; [| exact Hlen]. apply inj_le.
  apply (trace_count self (horizontal y0) horizontal_code (horizontal_codes w)
           (0, 1) (2 * w, -1)); [| | | | done].
  - intros x x' Hx Hstep. by apply (horizontal_step y0 x x').
  - apply horizontal_code_inj.
  - intros x x' Hx Hstep. by apply (horizontal_step y0 x x').
  - split; [intros [=] |]. rewrite !elem_of_horizontal_codes. lia.
Qed.

Lemma vertical_trace_count (fuel : nat) (x0 : Z) (l : lazer) :
  0 < w → 0 < h → vertical x0 l →
  Z.of_nat (length (remove_dups (beam_path self fuel l))) ≤ w * h * 4.
Proof using Hsize.
  intros Hw Hh Hl.
  assert (Z.of_nat (length (vertical_codes h x0)) ≤ w * h * 4) as Hlen.
  { unfold vertical_codes.
    rewrite length_app, !length_fmap, !length_seqZ. nia. }
  etrans; [| exact Hlen]. apply inj_le.
  apply (trace_count self (vertical x0) vertical_code (vertical_codes h x0)
           (0, 1) ((if Z.even x0 then 0 else 2) + 2 * h - 1, -1));
    [| | | | done].
  - intros x x' Hx Hstep. by apply (vertical_step x0 x x').
  - apply vertical_code_inj.
  - intros x x' Hx Hstep. by apply (vertical_step x0 x x').
  - split; [intros [=] |]. rewrite !elem_of_vertical_codes.
    destruct (Z.even x0); lia.
Qed.

(** A beam with both deltas zero stays where it is. *)
Lemma rest_path (fuel : nat) (l : lazer) :
  twice l.1.2 = 0 → twice l.2 = 0 →
  Forall (λ x, x = l) (beam_path self fuel l).
Proof.
  intros Hvx Hvy. induction fuel as [| fuel IH]; cbn [beam_path];
    constructor; [done |].
  destruct (lazer_step self l) as [new | l'] eqn:E; [constructor |].
  replace l' with l; [done |].
  destruct (advance_reflect_rest l Hvx Hvy) as [Ha Hr].
  apply lazer_step_again in E as [[-> | ->] _]; congruence.
Qed.

Lemma rest_trace_count (fuel : nat) (l : lazer) :
  0 < w → 0 < h → twice l.1.2 = 0 → twice l.2 = 0 →
  Z.of_nat (length (remove_dups (beam_path self fuel l))) ≤ w * h * 4.
Proof.
  intros Hw Hh Hvx Hvy.
  pose proof (rest_path fuel l Hvx Hvy) as Hall. rewrite Forall_forall in Hall.
  assert (length (remove_dups (beam_path self fuel l)) ≤ 1)%nat.
  { apply NoDup_all_equal_length; [apply NoDup_remove_dups |].
    intros x y Hx Hy. rewrite elem_of_remove_dups in Hx, Hy.
    by rewrite (Hall x Hx), (Hall y Hy). }
  nia.
Qed.

End straight_beam.

(** The distinct states of the trace of any beam that satisfies the
    invariant. *)
Lemma beam_path_distinct (self : t) (fuel : nat) (l : lazer) :
  0 < (size self).1 → 0 < (size self).2 → half_integer_inv l →
  Z.of_nat (length (remove_dups (beam_path self fuel l)))
  ≤ (size self).1 * (size self).2 * 4.
Proof.
  intros Hw Hh Hinv.
  pose proof (surjective_pairing (size self)) as Hsize.
  destruct (decide (twice l.1.2 = 0)) as [Hvx | Hvx];
    destruct (decide (twice l.2 = 0)) as [Hvy | Hvy].
  - by eapply rest_trace_count.
  - eapply (vertical_trace_count _ _ _ Hsize fuel (twice l.1.1.1)); [done.. |].
    destruct_lazer l. simpl in *. destruct Hinv as (_ & _ & ?).
    repeat split; [done | lia].
  - eapply (horizontal_trace_count _ _ _ Hsize fuel (twice l.1.1.2)); [done.. |].
    destruct_lazer l. simpl in *. destruct Hinv as (_ & ? & _).
    repeat split; [done | lia].
  - eapply diagonal_trace_count; [done.. |]. by destruct_lazer l.
Qed.

(** ** A trace ends early or never *)

Lemma beam_path_lookup (self : t) (fuel i : nat) (l : lazer) :
  beam_path self fuel l !! i
  = if decide (i < fuel)%nat then beam_at self i l else None.
Proof.
  revert i l. induction fuel as [| fuel IH]; intros i l; [done |].
  destruct i as [| i]; cbn [beam_path beam_at]; [done |].
  simpl. destruct (lazer_step self l) as [new | l'].
  - by destruct (decide _).
  - rewrite IH. destruct (decide (i < fuel)%nat), (decide (S i < S fuel)%nat);
      (done || lia).
Qed.

Lemma beam_at_add (self : t) (i j : nat) (l : lazer) :
  beam_at self (i + j) l = beam_at self i l ≫= beam_at self j.
Proof.
  revert l. induction i as [| i IH]; intros l; [done |].
  simpl. by destruct (lazer_step self l).
Qed.

Lemma beam_at_prefix (self : t) (i j : nat) (l : lazer) :
  (i ≤ j)%nat → is_Some (beam_at self j l) → is_Some (beam_at self i l).
Proof.
  intros Hle. replace j with (i + (j - i))%nat by lia. rewrite beam_at_add.
  destruct (beam_at self i l); [by eexists | by intros [? ?]].
Qed.

(** A beam that comes back to a state it has been in goes on for
    ever. *)
Lemma beam_at_repeat (self : t) (i j : nat) (l x : lazer) :
  (i < j)%nat → beam_at self i l = Some x → beam_at self j l = Some x →
  ∀ n, is_Some (beam_at self n l).
Proof.
  intros Hij Hi Hj n. induction (lt_wf n) as [n _ IH].
  destruct (decide (n ≤ j)%nat) as [Hle | Hgt].
  - eapply beam_at_prefix; [exact Hle | by eexists].
  - replace n with (j + (n - j))%nat by lia.
    rewrite beam_at_add, Hj. simpl.
    replace (beam_at self (n - j) x)
      with (beam_at self i l ≫= beam_at self (n - j)) by by rewrite Hi.
    rewrite <- beam_at_add. apply IH. lia.
Qed.

Lemma beam_path_length_le (self : t) (fuel : nat) (l : lazer) :
  (length (beam_path self fuel l) ≤ fuel)%nat.
Proof.
  revert l. induction fuel as [| fuel IH]; intros l; simpl; [lia |].
  destruct (lazer_step self l) as [new | l']; simpl; [lia |].
  specialize (IH l'). lia.
Qed.

Lemma beam_path_length (self : t) (fuel : nat) (l : lazer) :
  (∀ n, (n < fuel)%nat → is_Some (beam_at self n l)) →
  length (beam_path self fuel l) = fuel.
Proof.
  intros H. apply Nat.le_antisymm; [apply beam_path_length_le |].
  destruct fuel as [| fuel]; [lia |].
  apply lookup_lt_is_Some. rewrite beam_path_lookup.
  destruct (decide _); [apply H |]; lia.
Qed.

(** Once the trace has ended, more passes add nothing. *)
Lemma beam_path_ended (self : t) (fuel fuel' : nat) (l : lazer) :
  (length (beam_path self fuel l) < fuel)%nat →
  (length (beam_path self fuel' l) ≤ length (beam_path self fuel l))%nat.
Proof.
  revert fuel' l. induction fuel as [| fuel IH]; intros fuel' l; [lia |].
  destruct fuel' as [| fuel']; simpl; [lia |].
  destruct (lazer_step self l) as [new | l']; simpl; [lia |].
  intros H. specialize (IH fuel' l'). lia.
Qed.

Lemma remove_dups_shorter {T : Type} `{EqDecision T} (l : list T) :
  (length (remove_dups l) < length l)%nat →
  ∃ i j x, (i < j)%nat ∧ l !! i = Some x ∧ l !! j = Some x.
Proof.
  induction l as [| a l IH]; simpl; [lia |].
  destruct (decide_rel elem_of a l) as [Hin | Hnin].
  - intros _. apply list_elem_of_lookup in Hin as [j Hj].
    exists O, (S j), a. repeat split; [lia | done].
  - simpl. intros H. destruct IH as (i & j & x & Hij & Hi & Hj); [lia |].
    exists (S i), (S j), x. repeat split; [lia | done | done].
Qed.

(** A trace either ends within [w * h * 4] passes or never ends. *)
Lemma beam_path_ends_or_not (self : t) (l : lazer) :
  0 < (size self).1 → 0 < (size self).2 →
  half_integer_inv l →
  (∃ n, Z.of_nat n ≤ (size self).1 * (size self).2 * 4
        ∧ ∀ fuel, (length (beam_path self fuel l) ≤ n)%nat)
  ∨ (∀ fuel, length (beam_path self fuel l) = fuel).
Proof.
  intros Hw Hh Hinv.
  set (N := Z.to_nat ((size self).1 * (size self).2 * 4)).
  pose proof (beam_path_distinct self (S N) l Hw Hh Hinv) as Hdist.
  pose proof (beam_path_length_le self (S N) l) as Hle.
  destruct (decide (length (beam_path self (S N) l) = S N)) as [Hfull | Hend].
  - right. intros fuel. apply beam_path_length. intros n _.
    destruct (remove_dups_shorter (beam_path self (S N) l))
      as (i & j & x & Hij & Hi & Hj); [lia |].
    rewrite beam_path_lookup in Hi, Hj.
    destruct (decide (i < S N)%nat); [| done].
    destruct (decide (j < S N)%nat); [| done].
    exact (beam_at_repeat self i j l x Hij Hi Hj n).
  - left. exists (length (beam_path self (S N) l)). split; [lia |].
    intros fuel. apply beam_path_ended. lia.
Qed.

(** C2 (amended): on a board of positive width and height, the trace of
    a single beam that satisfies the half-integer invariant goes
    through at most [width * height * 4] distinct states, and it either
    ends within [width * height * 4] passes of the loop or never
    ends. *)
Theorem single_beam_trace (self : t) (l : lazer) :
  0 < (size self).1 → 0 < (size self).2 →
  half_integer_inv l →
  (∀ fuel,
     Z.of_nat (length (remove_dups (beam_path self fuel l)))
     ≤ (size self).1 * (size self).2 * 4)
  ∧ ((∃ n, Z.of_nat n ≤ (size self).1 * (size self).2 * 4
           ∧ ∀ fuel, (length (beam_path self fuel l) ≤ n)%nat)
     ∨ (∀ fuel, length (beam_path self fuel l) = fuel)).
Proof.
  intros Hw Hh Hinv. split.
  - intros fuel. by apply beam_path_distinct.
  - by apply beam_path_ends_or_not.
Qed.

Lemma single_beam_trace_witness :
  Z.of_nat (length (remove_dups
                      (beam_path scenario_a 10 (Half 0, Half 1, Half 1, Half 1))))
  ≤ 2 * 2 * 4.
Proof.
  refine (proj1 (single_beam_trace scenario_a (Half 0, Half 1, Half 1, Half 1)
                   _ _ _) 10%nat).
  - reflexivity.
  - reflexivity.
  - simpl. repeat split; lia.
Defined.

(** *** A beam caught between four reflect blocks *)

Lemma ring_lazer_step (n : nat) :
  lazer_step mirror_ring (ring_beam n) = Again (ring_beam (ring_next n)).
Proof. destruct n as [| [| [| n]]]; vm_compute; reflexivity. Qed.

Lemma ring_beam_at (n m : nat) :
  is_Some (beam_at mirror_ring n (ring_beam m)).
Proof.
  revert m. induction n as [| n IH]; intros m; [by eexists |].
  cbn [beam_at]. rewrite ring_lazer_step. apply IH.
Qed.

Lemma ring_run (fuel n : nat) :
  run mirror_ring fuel (Config [(Half 0, Half 0)] (Some (ring_beam n)) [])
  = None.
Proof.
  revert n. induction fuel as [| fuel IH]; intros n; [done |].
  cbn [run]. rewrite (step_current _ _ (ring_beam n)) by done.
  replace (remove_point (pos (ring_beam n)) _) with [(Half 0, Half 0)]
    by by destruct n as [| [| [| n]]].
  rewrite ring_lazer_step. apply IH.
Qed.

(** C2, as stated, fails: this beam satisfies the invariant, yet its
    trace never ends and [check_solution] never returns. *)
Lemma mirror_ring_counterexample :
  let l := (Half 3, Half 2, Half 1, Half 1) in
  half_integer_inv l ∧ diagonal l
  ∧ lazers mirror_ring = [l]
  ∧ ¬ (∃ fuel, (length (beam_path mirror_ring fuel l) < fuel)%nat)
  ∧ ¬ (∃ fuel b, check_solution fuel mirror_ring = Some b).
Proof.
  split; [simpl; repeat split; lia |]. split; [simpl; split; lia |].
  split; [reflexivity |].
  assert (lazer_step mirror_ring (Half 3, Half 2, Half 1, Half 1)
          = Again (ring_beam 0)) as Hfirst by (vm_compute; reflexivity).
  split.
  - intros [fuel Hlt]. rewrite beam_path_length in Hlt; [lia |].
    intros [| n] _; [by eexists |]. cbn [beam_at]. rewrite Hfirst.
    apply ring_beam_at.
  - intros (fuel & b & Hrun). unfold check_solution in Hrun.
    destruct fuel as [| [| fuel]]; try discriminate.
    cbn [run] in Hrun. unfold step at 1 in Hrun. simpl in Hrun.
    rewrite (step_current _ _ (Half 3, Half 2, Half 1, Half 1)) in Hrun by done.
    simpl remove_point in Hrun. rewrite Hfirst in Hrun.
    change (run mirror_ring fuel
              (Config [(Half 0, Half 0)] (Some (ring_beam 0)) []) = Some b)
      in Hrun.
    by rewrite ring_run in Hrun.
Qed.

(** ** The dictionary of a candidate *)

Lemma put_blocks_lookup (d : gmap cell block) (b : block) (ps : list cell)
  (k : cell) :
  put_blocks d b ps !! k = if decide (k ∈ ps) then Some b else d !! k.
Proof.
  revert d. induction ps as [| p ps IH]; intros d.
  - unfold put_blocks. simpl.
    destruct (decide (k ∈ [])) as [H | H]; [by apply elem_of_nil in H | done].
  - cbn [put_blocks foldl]. fold (put_blocks (<[(p.1, p.2):=b]> d) b ps).
    rewrite IH. rewrite <- (surjective_pairing p).
    destruct (decide (k ∈ ps)) as [Hin | Hnin].
    + by rewrite decide_True by by right.
    + destruct (decide (k = p)) as [-> | Hne].
      * rewrite lookup_insert_eq. by rewrite decide_True by by left.
      * rewrite lookup_insert_ne by done.
        rewrite decide_False; [done |]. by intros [? | ?]%elem_of_cons.
Qed.

Lemma new_sel_comb_priority (self : t) (a_comb b_comb c_comb : list cell)
  (k : cell) :
  new_sel_comb self a_comb b_comb c_comb !! k
  = if decide (k ∈ C_l self) then Some blockC
    else if decide (k ∈ B_l self) then Some blockB
    else if decide (k ∈ A_l self) then Some blockA
    else if decide (k ∈ c_comb) then Some blockC
    else if decide (k ∈ b_comb) then Some blockB
    else if decide (k ∈ a_comb) then Some blockA
    else None.
Proof.
  unfold new_sel_comb, put_lists. cbn [foldl].
  rewrite !put_blocks_lookup, lookup_empty. reflexivity.
Qed.

(** X1: What a cell holds in the dictionary built for the choices [a_comb],
    [b_comb], [c_comb]: later writes win, so the fixed blocks come
    before the chosen ones, and among each ['C'] before ['B'] before
    ['A']; a cell neither fixed nor chosen is not a key. *)
Theorem new_sel_comb_lookup (self : t) (a_comb b_comb c_comb : list cell)
  (k : cell) :
  new_sel_comb self a_comb b_comb c_comb !! k
  = if decide (k ∈ C_l self) then Some blockC
    else if decide (k ∈ B_l self) then Some blockB
    else if decide (k ∈ A_l self) then Some blockA
    else if decide (k ∈ c_comb) then Some blockC
    else if decide (k ∈ b_comb) then Some blockB
    else if decide (k ∈ a_comb) then Some blockA
    else None.
Proof. apply new_sel_comb_priority. Qed.

Lemma elem_of_candidates (self : t) (d : gmap cell block) :
  d ∈ candidates self
  ↔ ∃ i_a i_b i_c,
      i_a ∈ combinations (o_l self) (A self)
      ∧ i_b ∈ combinations (not_chosen (o_l self) i_a) (B self)
      ∧ i_c ∈ combinations (not_chosen (not_chosen (o_l self) i_a) i_b) (C self)
      ∧ d = new_sel_comb self i_a i_b i_c.
Proof.
  unfold candidates. rewrite list_elem_of_bind. split.
  - intros (i_a & (i_b & (i_c & ->%list_elem_of_singleton & Hc)%list_elem_of_bind
                    & Hb)%list_elem_of_bind & Ha).
    by exists i_a, i_b, i_c.
  - intros (i_a & i_b & i_c & Ha & Hb & Hc & ->). exists i_a. split; [| done].
    apply list_elem_of_bind. exists i_b. split; [| done].
    apply list_elem_of_bind. exists i_c. split; [| done].
    by apply list_elem_of_singleton.
Qed.

Lemma filter_elem_of_sublist (l c : list cell) :
  NoDup l → c `sublist_of` l → filter (λ x, x ∈ c) l = c.
Proof.
  intros Hnd Hsub. induction Hsub as [| x c l Hsub IH | x c l Hsub IH].
  - done.
  - apply NoDup_cons in Hnd as [Hx Hnd].
    rewrite filter_cons_True by by left. f_equal.
    trans (filter (λ y, y ∈ c) l); [| by apply IH]. apply filter_iff_on.
    intros y Hy. rewrite elem_of_cons. split; [| tauto].
    intros [-> | ?]; done.
  - apply NoDup_cons in Hnd as [Hx Hnd].
    rewrite filter_cons_False; [by apply IH |].
    intros H. apply Hx. by eapply elem_of_sublist.
Qed.

Lemma elem_of_not_chosen (l c : list cell) (x : cell) :
  x ∈ not_chosen l c ↔ (x ∉ c) ∧ x ∈ l.
Proof. unfold not_chosen. by rewrite list_elem_of_filter. Qed.

Lemma not_chosen_sublist (l c : list cell) : not_chosen l c `sublist_of` l.
Proof. apply sublist_filter. Qed.

Section choices.

Context (self : t) (i_a i_b i_c : list cell).
Hypothesis Hnd : NoDup (o_l self).
Hypothesis Hapart : ∀ pos, pos ∈ o_l self → pos ∉ fixed_cells self.
Hypothesis Ha : i_a ∈ combinations (o_l self) (A self).
Hypothesis Hb : i_b ∈ combinations (not_chosen (o_l self) i_a) (B self).
Hypothesis Hc :
  i_c ∈ combinations (not_chosen (not_chosen (o_l self) i_a) i_b) (C self).

Lemma choices_sublists :
  (i_a `sublist_of` o_l self ∧ i_b `sublist_of` o_l self
   ∧ i_c `sublist_of` o_l self)
  ∧ (∀ pos, pos ∈ i_b → pos ∉ i_a)
  ∧ (∀ pos, pos ∈ i_c → (pos ∉ i_a) ∧ (pos ∉ i_b)).
Proof using Ha Hb Hc.
  destruct (combinations_sublist _ _ _ Ha) as [Hsa _].
  destruct (combinations_sublist _ _ _ Hb) as [Hsb _].
  destruct (combinations_sublist _ _ _ Hc) as [Hsc _].
  split; [split; [done | split] | split].
  - etrans; [exact Hsb | apply not_chosen_sublist].
  - etrans; [exact Hsc |]. etrans; apply not_chosen_sublist.
  - intros pos Hpos. eapply elem_of_sublist in Hpos; [| exact Hsb].
    by apply elem_of_not_chosen in Hpos as [? _].
  - intros pos Hpos. eapply elem_of_sublist in Hpos; [| exact Hsc].
    apply elem_of_not_chosen in Hpos as [? Hpos].
    by apply elem_of_not_chosen in Hpos as [? _].
Qed.

Lemma choices_lookup (pos : cell) :
  pos ∈ o_l self →
  let d := new_sel_comb self i_a i_b i_c in
  (d !! pos = Some blockA ↔ pos ∈ i_a)
  ∧ (d !! pos = Some blockB ↔ pos ∈ i_b)
  ∧ (d !! pos = Some blockC ↔ pos ∈ i_c).
Proof using Hapart Ha Hb Hc.
  intros Hpos d. destruct choices_sublists as (_ & Hba & Hcab).
  specialize (Hapart pos Hpos). unfold fixed_cells in Hapart.
  rewrite !elem_of_app in Hapart.
  subst d. rewrite new_sel_comb_priority.
  rewrite !decide_False by tauto.
  destruct (decide (pos ∈ i_c)) as [Hic | Hic].
  { destruct (Hcab pos Hic). split; [| split]; split; done. }
  destruct (decide (pos ∈ i_b)) as [Hib | Hib].
  { specialize (Hba pos Hib). split; [| split]; split; done. }
  destruct (decide (pos ∈ i_a)); split; [| split | | split]; split; done.
Qed.

(** The choices can be read back from the dictionary. *)
Lemma choices_decode :
  let d := new_sel_comb self i_a i_b i_c in
  cells_with self d blockA = i_a ∧ cells_with self d blockB = i_b
  ∧ cells_with self d blockC = i_c.
Proof using Hnd Hapart Ha Hb Hc.
  intros d. destruct choices_sublists as ((Hsa & Hsb & Hsc) & _).
  unfold cells_with.
  split; [| split];
    (etrans; [| by apply (filter_elem_of_sublist (o_l self))]);
    apply filter_iff_on; intros pos Hpos;
    by destruct (choices_lookup pos Hpos) as (? & ? & ?).
Qed.

End choices.

(** X2: Every dictionary the loops build has exactly [A], [B] and [C] open
    cells labelled ['A'], ['B'] and ['C'], and no key beside the open
    and the fixed cells (for distinct open cells, none of them a fixed
    block). *)
Theorem candidate_placement (self : t) (d : gmap cell block) :
  NoDup (o_l self) →
  (∀ pos, pos ∈ o_l self → pos ∉ fixed_cells self) →
  d ∈ candidates self →
  length (cells_with self d blockA) = A self
  ∧ length (cells_with self d blockB) = B self
  ∧ length (cells_with self d blockC) = C self
  ∧ ∀ k, is_Some (d !! k) → k ∈ o_l self ∨ k ∈ fixed_cells self.
Proof.
  intros Hnd Hapart (i_a & i_b & i_c & Ha & Hb & Hc & ->)%elem_of_candidates.
  destruct (choices_decode self i_a i_b i_c Hnd Hapart Ha Hb Hc)
    as (-> & -> & ->).
  destruct (choices_sublists self i_a i_b i_c Ha Hb Hc)
    as ((Hsa & Hsb & Hsc) & _).
  destruct (combinations_sublist _ _ _ Ha) as [_ Hla].
  destruct (combinations_sublist _ _ _ Hb) as [_ Hlb].
  destruct (combinations_sublist _ _ _ Hc) as [_ Hlc].
  split; [done |]. split; [done |]. split; [done |].
  intros k. rewrite new_sel_comb_priority. unfold fixed_cells.
  rewrite !elem_of_app.
  repeat (destruct (decide _) as [? | ?]; [eauto using elem_of_sublist |]).
  by intros [? ?].
Qed.

Lemma candidate_placement_witness :
  length (cells_with scenario_abc
            (new_sel_comb scenario_abc [(0, 1)] [(1, 1)] [(0, 0)]) blockB)
  = 1%nat.
Proof.
  refine (proj1 (proj2 (candidate_placement scenario_abc
            (new_sel_comb scenario_abc [(0, 1)] [(1, 1)] [(0, 0)]) _ _ _))).
  - compute_done.
  - intros pos _. vm_compute. apply not_elem_of_nil.
  - compute_done.
Defined.

Lemma NoDup_combinations (l : list cell) (r : nat) :
  NoDup l → NoDup (combinations l r).
Proof.
  intros Hnd. revert r. induction Hnd as [| x l Hx Hnd IH]; intros [| r];
    simpl; try apply NoDup_singleton; [apply NoDup_nil_2 |].
  apply NoDup_app. split; [| split].
  - apply NoDup_fmap_2_strong; [| apply IH]. by intros c1 c2 _ _ [= ->].
  - intros c (c' & -> & _)%list_elem_of_fmap [Hsub _]%combinations_sublist.
    apply Hx. eapply elem_of_sublist; [| exact Hsub]. by left.
  - apply IH.
Qed.

Lemma candidates_distinct (self : t) :
  NoDup (o_l self) →
  (∀ pos, pos ∈ o_l self → pos ∉ fixed_cells self) →
  NoDup (candidates self).
Proof.
  intros Hnd Hapart.
  assert (∀ i_a i_b i_c i_a' i_b' i_c',
            i_a ∈ combinations (o_l self) (A self) →
            i_b ∈ combinations (not_chosen (o_l self) i_a) (B self) →
            i_c ∈ combinations (not_chosen (not_chosen (o_l self) i_a) i_b)
                    (C self) →
            i_a' ∈ combinations (o_l self) (A self) →
            i_b' ∈ combinations (not_chosen (o_l self) i_a') (B self) →
            i_c' ∈ combinations (not_chosen (not_chosen (o_l self) i_a') i_b')
                     (C self) →
            new_sel_comb self i_a i_b i_c = new_sel_comb self i_a' i_b' i_c' →
            i_a = i_a' ∧ i_b = i_b' ∧ i_c = i_c') as Hinj.
  { intros i_a i_b i_c i_a' i_b' i_c' Ha Hb Hc Ha' Hb' Hc' Heq.
    destruct (choices_decode self i_a i_b i_c Hnd Hapart Ha Hb Hc)
      as (Ea & Eb & Ec).
    destruct (choices_decode self i_a' i_b' i_c' Hnd Hapart Ha' Hb' Hc')
      as (Ea' & Eb' & Ec').
    rewrite Heq in Ea, Eb, Ec. repeat split; congruence. }
  unfold candidates. apply NoDup_bind; [| | by apply NoDup_combinations].
  - intros i_a i_a' d Ha Ha'.
    intros (i_b & (i_c & ->%list_elem_of_singleton & Hc)%list_elem_of_bind
            & Hb)%list_elem_of_bind.
    intros (i_b' & (i_c' & Heq%list_elem_of_singleton & Hc')%list_elem_of_bind
            & Hb')%list_elem_of_bind.
    by destruct (Hinj _ _ _ _ _ _ Ha Hb Hc Ha' Hb' Hc' Heq).
  - intros i_a Ha. simpl.
    apply NoDup_bind; [| | by apply NoDup_combinations, NoDup_filter].
    + intros i_b i_b' d Hb Hb'.
      intros (i_c & ->%list_elem_of_singleton & Hc)%list_elem_of_bind.
      intros (i_c' & Heq%list_elem_of_singleton & Hc')%list_elem_of_bind.
      by destruct (Hinj _ _ _ _ _ _ Ha Hb Hc Ha Hb' Hc' Heq) as (_ & ? & _).
    + intros i_b Hb. simpl.
      apply NoDup_bind;
        [| intros; apply NoDup_singleton
         | by apply NoDup_combinations, NoDup_filter, NoDup_filter].
      intros i_c i_c' d Hc Hc' ->%list_elem_of_singleton
             Heq%list_elem_of_singleton.
      by destruct (Hinj _ _ _ _ _ _ Ha Hb Hc Ha Hb Hc' Heq) as (_ & _ & ?).
Qed.

(** X3: No two of the dictionaries the loops build are equal (for distinct
    open cells, none of them a fixed block). *)
Theorem candidates_NoDup (self : t) :
  NoDup (o_l self) →
  (∀ pos, pos ∈ o_l self → pos ∉ fixed_cells self) →
  NoDup (candidates self).
Proof. apply candidates_distinct. Qed.

Lemma candidates_NoDup_witness : NoDup (candidates scenario_abc).
Proof.
  apply (candidates_NoDup scenario_abc).
  - compute_done.
  - intros pos _. vm_compute. apply not_elem_of_nil.
Defined.

(** ** What [__call__] returns and leaves behind *)

Lemma length_candidates (self : t) :
  NoDup (o_l self) →
  length (candidates self)
  = (binom (length (o_l self)) (A self)
     * binom (length (o_l self) - A self) (B self)
     * binom (length (o_l self) - A self - B self) (C self))%nat.
Proof.
  intros Hnd. unfold candidates.
  rewrite (length_bind_const _ _
             (binom (length (o_l self) - A self) (B self)
              * binom (length (o_l self) - A self - B self) (C self))).
  { rewrite length_combinations. lia. }
  intros i_a [Hsa Hla]%combinations_sublist. simpl.
  pose proof (not_chosen_length _ _ Hnd Hsa) as Hlen_a.
  rewrite (length_bind_const _ _
             (binom (length (o_l self) - A self - B self) (C self))).
  { by rewrite length_combinations, Hlen_a, Hla. }
  intros i_b [Hsb Hlb]%combinations_sublist. simpl.
  pose proof (not_chosen_length _ _ (not_chosen_NoDup _ i_a Hnd) Hsb)
    as Hlen_b.
  rewrite (length_bind_const _ _ 1%nat) by done.
  rewrite length_combinations, Hlen_b, Hlen_a, Hla, Hlb. lia.
Qed.

(** X4: With more blocks to place than there are (distinct) open cells the
    loops build no dictionary: [__call__] returns [None] without one
    pass of the simulation, and leaves the object as it was. *)
Theorem call_too_many_blocks (self : t) (fuel : nat) :
  NoDup (o_l self) →
  (length (o_l self) < A self + B self + C self)%nat →
  call fuel self = Some (None, self).
Proof.
  intros Hnd Hlt.
  assert (candidates self = []) as Hnil.
  { apply length_zero_iff_nil. rewrite length_candidates by done.
    destruct (decide (length (o_l self) < A self)%nat) as [H1 | H1];
      [rewrite (binom_gt _ _ H1); lia |].
    destruct (decide (length (o_l self) - A self < B self)%nat) as [H2 | H2];
      [rewrite (binom_gt _ _ H2); lia |].
    rewrite (binom_gt (length (o_l self) - A self - B self) (C self)); lia. }
  unfold call. rewrite call_scan, Hnil. reflexivity.
Qed.

Lemma call_too_many_blocks_witness :
  call 0 crowded = Some (None, crowded).
Proof.
  apply (call_too_many_blocks crowded 0).
  - compute_done.
  - simpl. lia.
Defined.

Lemma scan_sel_comb (fuel : nat) (self : t) (ds : list (gmap cell block)) :
  match scan fuel self ds with
  | Hang => True
  | Returned d s => sel_comb s = d
  | Completed s => sel_comb s = default (sel_comb self) (last ds)
  end.
Proof.
  revert self. induction ds as [| d ds IH]; intros self; [done |].
  cbn [scan]. destruct (check_solution fuel _) as [[|] |]; [done | | done].
  specialize (IH (set_sel_comb d self)).
  destruct (scan fuel _ ds) as [| d' s | s]; [done | done |].
  rewrite IH, last_cons. by destruct (last ds).
Qed.

(** X5: After a call that returns a dictionary, [self.sel_comb] is that
    dictionary; after one that returns [None] it is the last
    dictionary the loops have built (the one it was before the call,
    if they have built none). *)
Theorem call_leaves_sel_comb (self self' : t) (fuel : nat)
  (r : option (gmap cell block)) :
  call fuel self = Some (r, self') →
  sel_comb self'
  = match r with
    | Some d => d
    | None => default (sel_comb self) (last (candidates self))
    end.
Proof.
  unfold call. rewrite call_scan.
  pose proof (scan_sel_comb fuel self (candidates self)) as H.
  destruct (scan fuel self (candidates self)); intros [= <- <-]; done.
Qed.

Lemma call_leaves_sel_comb_witness :
  sel_comb (set_sel_comb {[ (1, 1) := blockA ]} scenario_a)
  = {[ (1, 1) := blockA ]}.
Proof.
  apply (call_leaves_sel_comb scenario_a _ 10
           (Some {[ (1, 1) := blockA ]})).
  vm_compute. reflexivity.
Defined.

(** X6: A dictionary returned when there is a block to place is not empty
    (so a caller testing [not sel_comb] does not take it for [None]). *)
Theorem call_result_nonempty (self self' : t) (fuel : nat)
  (d : gmap cell block) :
  call fuel self = Some (Some d, self') →
  (0 < A self + B self + C self)%nat →
  d ≠ ∅.
Proof.
  intros Hcall Hpos.
  assert (first_success fuel self (candidates self) = Some (Some d)) as H.
  { apply call_returns_iff. by exists self'. }
  destruct (first_success_found _ _ _ _ H) as (pre & post & Hcand & _).
  assert (d ∈ candidates self) as Hd.
  { rewrite Hcand. apply elem_of_app. right. by left. }
  apply elem_of_candidates in Hd
    as (i_a & i_b & i_c & Ha & Hb & Hc & ->).
  apply combinations_sublist in Ha as [_ Hla], Hb as [_ Hlb], Hc as [_ Hlc].
  assert (∃ pos, pos ∈ i_a ∨ pos ∈ i_b ∨ pos ∈ i_c) as [pos Hin].
  { destruct i_a as [| p ?]; [| exists p; left; by left].
    destruct i_b as [| p ?]; [| exists p; right; left; by left].
    destruct i_c as [| p ?]; [| exists p; right; right; by left].
    simpl in *. lia. }
  intros Hempty.
  assert (new_sel_comb self i_a i_b i_c !! pos = None) as Hnone
    by by rewrite Hempty.
  rewrite new_sel_comb_priority in Hnone.
  repeat (destruct (decide _) as [? | ?]; [done |]). tauto.
Qed.

Lemma call_result_nonempty_witness :
  ({[ (1, 1) := blockA ]} : gmap cell block) ≠ ∅.
Proof.
  apply (call_result_nonempty scenario_a
           (set_sel_comb {[ (1, 1) := blockA ]} scenario_a) 10).
  - vm_compute. reflexivity.
  - simpl. lia.
Defined.

(** ** The targets and the result of the simulation *)

Lemma lazer_step_set_points (ps : list point) (self : t) (l : lazer) :
  lazer_step (set_points ps self) l = lazer_step self l.
Proof. by destruct l as [[[x y] vx] vy]. Qed.

Lemma step_set_points (ps : list point) (self : t) (c : config) :
  step (set_points ps self) c = step self c.
Proof.
  unfold step. destruct (current c) as [[[[x y] vx] vy] |]; [| done].
  by rewrite lazer_step_set_points.
Qed.

Lemma run_set_points (ps : list point) (self : t) (fuel : nat) (c : config) :
  run (set_points ps self) fuel c = run self fuel c.
Proof.
  revert c. induction fuel as [| fuel IH]; intros c; [done |].
  simpl. rewrite step_set_points. by destruct (step self c).
Qed.

Lemma elem_of_remove_point (pos p : point) (rem : list point) :
  p ∈ remove_point pos rem ↔ p ≠ pos ∧ p ∈ rem.
Proof. unfold remove_point. by rewrite list_elem_of_filter. Qed.

Lemma run_fewer_targets (self : t) (fuel : nat) (c c' : config) :
  current c' = current c → active_lasers c' = active_lasers c →
  (∀ p, p ∈ remaining_points c' → p ∈ remaining_points c) →
  run self fuel c = Some true → run self fuel c' = Some true.
Proof.
  revert c c'. induction fuel as [| fuel IH]; intros c c' Hcur Hq Hsub; [done |].
  cbn [run]. destruct (current c) as [l |] eqn:Hc.
  - rewrite (step_current self c l Hc), (step_current self c' l) by congruence.
    assert (∀ p, p ∈ remove_point (pos l) (remaining_points c') →
                 p ∈ remove_point (pos l) (remaining_points c)) as Hsub'.
    { intros p. rewrite !elem_of_remove_point. intros [? ?]. auto. }
    destruct (remove_point (pos l) (remaining_points c')) as [| p' rem'];
      [done |].
    destruct (remove_point (pos l) (remaining_points c)) as [| p rem].
    { specialize (Hsub' p'). rewrite elem_of_nil in Hsub'.
      exfalso. apply Hsub'. by left. }
    rewrite Hq. destruct (lazer_step self l); apply IH; done.
  - unfold step. rewrite Hc, Hcur, Hq.
    destruct (active_lasers c) as [| l rest].
    + intros [= Hrem%bool_decide_eq_true]. f_equal. apply bool_decide_eq_true.
      destruct (remaining_points c') as [| p ?]; [done |].
      specialize (Hsub p). rewrite Hrem, elem_of_nil in Hsub.
      exfalso. apply Hsub. by left.
    + by apply IH.
Qed.

(** X7: Dropping targets cannot turn a success into anything else. *)
Theorem check_solution_fewer_targets (self : t) (ps : list point)
  (fuel : nat) :
  (∀ p, p ∈ ps → p ∈ points self) →
  check_solution fuel self = Some true →
  check_solution fuel (set_points ps self) = Some true.
Proof.
  intros Hsub. unfold check_solution. rewrite run_set_points.
  by apply run_fewer_targets.
Qed.

Lemma check_solution_fewer_targets_witness :
  check_solution 10 (set_points [] (set_sel_comb {[ (1, 1) := blockA ]}
                                      scenario_a))
  = Some true.
Proof.
  apply (check_solution_fewer_targets
           (set_sel_comb {[ (1, 1) := blockA ]} scenario_a) [] 10).
  - intros p Hp. by apply elem_of_nil in Hp.
  - vm_compute. reflexivity.
Defined.

Lemma same_elements_nil {T : Type} (l1 l2 : list T) :
  (∀ p, p ∈ l1 ↔ p ∈ l2) → l1 = [] ↔ l2 = [].
Proof.
  intros H. destruct l1 as [| p1 l1], l2 as [| p2 l2]; try done.
  - specialize (H p2). rewrite elem_of_nil in H. exfalso. apply H. by left.
  - specialize (H p1). rewrite elem_of_nil in H. exfalso. apply H. by left.
Qed.

Lemma run_same_targets (self : t) (fuel : nat) (c c' : config) :
  current c' = current c → active_lasers c' = active_lasers c →
  (∀ p, p ∈ remaining_points c' ↔ p ∈ remaining_points c) →
  run self fuel c' = run self fuel c.
Proof.
  revert c c'. induction fuel as [| fuel IH]; intros c c' Hcur Hq Hsame; [done |].
  cbn [run]. destruct (current c) as [l |] eqn:Hc.
  - rewrite (step_current self c l Hc), (step_current self c' l) by congruence.
    assert (∀ p, p ∈ remove_point (pos l) (remaining_points c') ↔
                 p ∈ remove_point (pos l) (remaining_points c)) as Hsame'.
    { intros p. rewrite !elem_of_remove_point, Hsame. done. }
    pose proof (same_elements_nil _ _ Hsame') as Hnil.
    destruct (remove_point (pos l) (remaining_points c')) as [| p' rem'];
      destruct (remove_point (pos l) (remaining_points c)) as [| p rem].
    + done.
    + by destruct Hnil as [Hnil _]; specialize (Hnil eq_refl).
    + by destruct Hnil as [_ Hnil]; specialize (Hnil eq_refl).
    + rewrite Hq. destruct (lazer_step self l); apply IH; done.
  - unfold step. rewrite Hc, Hcur, Hq.
    destruct (active_lasers c) as [| l rest]; [| by apply IH].
    do 2 f_equal. apply bool_decide_ext. by apply same_elements_nil.
Qed.

(** X8: The result of the simulation depends on the targets as a set only:
    neither their order nor their repetitions matter. *)
Theorem check_solution_same_targets (self : t) (ps : list point)
  (fuel : nat) :
  (∀ p, p ∈ ps ↔ p ∈ points self) →
  check_solution fuel (set_points ps self) = check_solution fuel self.
Proof.
  intros Hsame. unfold check_solution. rewrite run_set_points.
  by apply run_same_targets.
Qed.

Lemma check_solution_same_targets_witness :
  check_solution 10
    (set_points [(Half 1, Half 4); (Half 1, Half 4)] scenario_a)
  = check_solution 10 scenario_a.
Proof.
  apply (check_solution_same_targets scenario_a
           [(Half 1, Half 4); (Half 1, Half 4)] 10).
  intros p. simpl. rewrite !elem_of_cons. tauto.
Defined.

(** ** What the result of the simulation says about the beams *)

Lemma beam_closure_mono (self : t) (F G : list lazer) (l : lazer) :
  (∀ x, x ∈ F → beam_closure self G x) →
  beam_closure self F l → beam_closure self G l.
Proof.
  intros HFG. induction 1 as [l Hl | l l' _ IH Hstep | l new l' _ IH Hstep Hl'].
  - by apply HFG.
  - by eapply closure_again.
  - by eapply closure_break.
Qed.

Lemma beam_closure_nil (self : t) (l : lazer) : ¬ beam_closure self [] l.
Proof. induction 1 as [l Hl | |]; [by apply elem_of_nil in Hl | done | done]. Qed.

Lemma run_true_hits (self : t) (F : list lazer) (fuel : nat) (c : config) :
  (∀ l, l ∈ frontier c → beam_closure self F l) →
  run self fuel c = Some true →
  ∀ p, p ∈ remaining_points c → ∃ l, beam_closure self F l ∧ pos l = p.
Proof.
  revert c. induction fuel as [| fuel IH]; intros c Hfront; [done |].
  cbn [run]. unfold frontier in Hfront.
  destruct (current c) as [l |] eqn:Hc.
  - rewrite (step_current self c l Hc). intros Hrun p Hp.
    assert (beam_closure self F l) as Hl by (apply Hfront; by left).
    destruct (decide (p = pos l)) as [-> | Hne]; [by exists l |].
    assert (p ∈ remove_point (pos l) (remaining_points c)) as Hp'
      by by apply elem_of_remove_point.
    destruct (remove_point _ _) as [| p' rem'] eqn:E;
      [by apply elem_of_nil in Hp' |].
    destruct (lazer_step self l) as [new | l'] eqn:Hstep.
    + eapply (IH (Config (p' :: rem') None (active_lasers c ++ new)));
        [| done..].
      unfold frontier. simpl. intros x [Hx | Hx]%elem_of_app.
      * apply Hfront. by right.
      * by eapply closure_break.
    + eapply (IH (Config (p' :: rem') (Some l') (active_lasers c)));
        [| done..].
      unfold frontier. simpl. intros x [-> | Hx]%elem_of_cons.
      * by eapply closure_again.
      * apply Hfront. by right.
  - unfold step. rewrite Hc. simpl in Hfront.
    destruct (active_lasers c) as [| l rest] eqn:Hq.
    + intros [= Hrem%bool_decide_eq_true] p Hp. rewrite Hrem in Hp.
      by apply elem_of_nil in Hp.
    + intros Hrun p Hp.
      by apply (IH (Config (remaining_points c) (Some l) rest)).
Qed.

(** X9: The simulation returns [True] only if every target is the position
    of a beam state that comes up when the beams are traced. *)
Theorem check_solution_true_hits (self : t) (fuel : nat) :
  check_solution fuel self = Some true →
  ∀ p, p ∈ points self → ∃ l, traced self l ∧ pos l = p.
Proof.
  intros Hrun.
  apply (run_true_hits self (lazers self) fuel
           (Config (points self) None (lazers self))); [| exact Hrun].
  unfold frontier. simpl. intros l Hl. by apply closure_base.
Qed.

Lemma check_solution_true_hits_witness :
  let self := set_sel_comb {[ (1, 1) := blockA ]} scenario_a in
  ∃ l, traced self l ∧ pos l = (Half 1, Half 4).
Proof.
  intros self. apply (check_solution_true_hits self 10).
  - vm_compute. reflexivity.
  - by left.
Defined.

Lemma beam_closure_pass (self : t) (l x : lazer) (q : list lazer) :
  beam_closure self (l :: q) x →
  x = l
  ∨ beam_closure self
      (match lazer_step self l with
       | Again l' => l' :: q
       | Break new_lasers => q ++ new_lasers
       end) x.
Proof.
  induction 1 as [x Hx | x0 x _ IH Hstep | x0 new x _ IH Hstep Hx].
  - apply elem_of_cons in Hx as [-> | Hx]; [by left | right].
    apply closure_base. destruct (lazer_step self l).
    + apply elem_of_app. by left.
    + by right.
  - right. destruct IH as [-> | IH].
    + rewrite Hstep. apply closure_base. by left.
    + by eapply closure_again.
  - right. destruct IH as [-> | IH].
    + rewrite Hstep. apply closure_base, elem_of_app. by right.
    + by eapply closure_break.
Qed.

Lemma run_false_misses (self : t) (fuel : nat) (c : config) :
  run self fuel c = Some false →
  ∃ p, p ∈ remaining_points c
       ∧ ∀ l, beam_closure self (frontier c) l → pos l ≠ p.
Proof.
  revert c. induction fuel as [| fuel IH]; intros c; [done |].
  cbn [run]. unfold frontier. destruct (current c) as [l |] eqn:Hc.
  - rewrite (step_current self c l Hc).
    destruct (remove_point _ _) as [| p' rem'] eqn:E; [done |].
    pose proof (beam_closure_pass self l) as Hpass.
    destruct (lazer_step self l) as [new | l'] eqn:Hstep; intros Hrun;
      apply IH in Hrun as (p & Hp & Hmiss); simpl in Hp;
      rewrite <- E in Hp; apply elem_of_remove_point in Hp as [Hne Hp];
      exists p; (split; [done |]); intros x Hx;
      destruct (Hpass x (active_lasers c) Hx) as [-> | Hx']; try done;
      by apply Hmiss.
  - unfold step. rewrite Hc.
    destruct (active_lasers c) as [| l rest] eqn:Hq.
    + intros [= Hrem%bool_decide_eq_false].
      destruct (remaining_points c) as [| p rem]; [done |].
      exists p. split; [by left |]. intros l Hl.
      by apply beam_closure_nil in Hl.
    + intros Hrun. by apply IH in Hrun.
Qed.

(** X10: The simulation returns [False] only if some target is the position
    of no beam state that comes up when the beams are traced. *)
Theorem check_solution_false_misses (self : t) (fuel : nat) :
  check_solution fuel self = Some false →
  ∃ p, p ∈ points self ∧ ∀ l, traced self l → pos l ≠ p.
Proof. apply run_false_misses. Qed.

Lemma check_solution_false_misses_witness :
  let self := set_sel_comb {[ (0, 1) := blockA ]} scenario_a in
  ∃ p, p ∈ points self ∧ ∀ l, traced self l → pos l ≠ p.
Proof.
  intros self. apply (check_solution_false_misses self 10).
  vm_compute. reflexivity.
Defined.

(** ** The cells read from the grid *)

Lemma insert_cell_perm (l1 l2 l3 : list cell) (p : cell) :
  l1 ++ (l2 ++ [p]) ++ l3 ≡ₚ p :: l1 ++ l2 ++ l3.
Proof.
  rewrite <- (assoc_L (++) l2). simpl. rewrite !(assoc_L (++) l1).
  symmetry. apply Permutation_middle.
Qed.

Lemma add_position_cells (token : string) (position : cell) (g : Input.grid) :
  grid_cells (Input.add_position token position g) = grid_cells g
  ∨ grid_cells (Input.add_position token position g)
    ≡ₚ position :: grid_cells g.
Proof.
  unfold Input.add_position, grid_cells. destruct g as [o x a b c]. simpl.
  destruct (decide _) as [_ | _];
    [right; simpl; apply (insert_cell_perm [] o) |].
  destruct (decide _) as [_ | _];
    [right; simpl; apply (insert_cell_perm o x) |].
  destruct (decide _) as [_ | _].
  { right. simpl. rewrite !(assoc_L (++) o x).
    apply (insert_cell_perm (o ++ x) a). }
  destruct (decide _) as [_ | _].
  { right. simpl. rewrite !(assoc_L (++) o x), !(assoc_L (++) (o ++ x) a).
    apply (insert_cell_perm ((o ++ x) ++ a) b). }
  destruct (decide _) as [_ | _]; [| by left].
  right. simpl.
  rewrite !(assoc_L (++) o x), !(assoc_L (++) (o ++ x) a),
    !(assoc_L (++) ((o ++ x) ++ a) b).
  rewrite (assoc_L (++) _ c [position]). symmetry.
  apply Permutation_cons_append.
Qed.

Lemma scan_tokens_cells (w x y : Z) (tokens : list string) (g : Input.grid) :
  0 ≤ x → 1 ≤ y →
  cells_before w x y (grid_cells g) →
  cells_before w (x + Z.of_nat (length tokens)) y
    (grid_cells (Input.scan_tokens x y tokens g)).
Proof.
  revert x g. induction tokens as [| token rest IH]; intros x g Hx Hy Hg.
  - simpl. by rewrite Z.add_0_r.
  - cbn [Input.scan_tokens length].
    replace (x + Z.of_nat (S (length rest)))
      with ((x + 1) + Z.of_nat (length rest)) by lia.
    apply IH; [lia | done |]. destruct Hg as [Hnd Hin].
    destruct (add_position_cells token (x, y) g) as [-> | Hperm].
    + split; [done |]. intros p Hp. specialize (Hin p Hp). lia.
    + unfold cells_before. setoid_rewrite Hperm. split.
      * apply NoDup_cons. split; [| done].
        intros Hp. specialize (Hin _ Hp). simpl in Hin. lia.
      * intros p [-> | Hp]%elem_of_cons; [simpl; lia |].
        specialize (Hin p Hp). lia.
Qed.

Lemma scan_rows_cells (py : Input.builtins) (y : Z) (rows : list string)
  (g g' : Input.grid) (self self' : Input.t) :
  1 ≤ y →
  NoDup (grid_cells g) →
  (∀ p, p ∈ grid_cells g →
        0 ≤ p.1 < Input.width self ∧ 1 ≤ p.2 ≤ Input.height self ∧ p.2 < y) →
  Input.scan_rows py y rows g self = (g', self') →
  NoDup (grid_cells g')
  ∧ ∀ p, p ∈ grid_cells g' →
         0 ≤ p.1 < Input.width self' ∧ 1 ≤ p.2 ≤ Input.height self'.
Proof.
  revert y g self. induction rows as [| line rest IH]; intros y g self Hy Hnd Hin.
  - intros [= <- <-]. split; [done |]. intros p Hp. specialize (Hin p Hp). lia.
  - cbn [Input.scan_rows]. set (tokens := Input.split py line).
    destruct (scan_tokens_cells (Input.width self) 0 y tokens g) as [Hnd' Hin'];
      [lia | done | |].
    { split; [done |]. intros p Hp. specialize (Hin p Hp). lia. }
    apply IH; [lia | done |]. simpl.
    intros p Hp. specialize (Hin' p Hp). lia.
Qed.

Lemma flip_cells (h : Z) (g : Input.grid) :
  Input.flip h (Input.o_positions g) ++ Input.flip h (Input.x_positions g)
  ++ Input.flip h (Input.A_blocks g) ++ Input.flip h (Input.B_blocks g)
  ++ Input.flip h (Input.C_blocks g)
  = Input.flip h (grid_cells g).
Proof. unfold Input.flip, grid_cells. by rewrite !fmap_app. Qed.

Lemma call_Ok (py : Input.builtins) (self self' : Input.t)
  (lines : list string) (d : Input.data) :
  Input.call py self lines = Input.Ok (d, self') →
  ∃ start stop_idx g c,
    Input.scan_rows py 1
      (take (stop_idx - S start) (drop (S start) lines))
      (Input.Grid [] [] [] [] []) self = (g, self')
    ∧ Input.config_lines py (drop (S stop_idx) lines)
        (Input.Settings 0 0 0 [] []) = Input.Ok c
    ∧ Input.o_positions g ≠ []
    ∧ ¬ (Input.A_count c = 0 ∧ Input.B_count c = 0 ∧ Input.C_count c = 0)
    ∧ Input.lazors c ≠ []
    ∧ Input.transform_all (Input.transform_lazor (Input.height self'))
        (Input.lazors c) = Input.Ok (Input.Lazers d)
    ∧ Input.transform_all (Input.transform_poi (Input.height self'))
        (Input.points c) = Input.Ok (Input.Points d)
    ∧ d = Input.Data (Input.width self', Input.height self')
            (Input.flip (Input.height self') (Input.o_positions g))
            (Input.Lazers d) (Input.Points d)
            (Input.A_count c) (Input.B_count c) (Input.C_count c)
            (Input.flip (Input.height self') (Input.x_positions g))
            (Input.flip (Input.height self') (Input.A_blocks g))
            (Input.flip (Input.height self') (Input.B_blocks g))
            (Input.flip (Input.height self') (Input.C_blocks g)).
Proof.
  unfold Input.call.
  destruct (Input.index "GRID START" lines) as [start |]; [| done].
  destruct (Input.index "GRID STOP" lines) as [stop_idx |]; [| done].
  destruct (Input.scan_rows _ _ _ _ _) as [g self1] eqn:Hscan.
  case_bool_decide as Ho; [done |].
  destruct (Input.config_lines _ _ _) as [c | |] eqn:Hc; [| done | done].
  case_bool_decide as Hcount; [done |].
  case_bool_decide as Hlaz; [done |].
  destruct (Input.transform_all _ (Input.lazors c)) as [lazers | |] eqn:Hl;
    [| done | done].
  destruct (Input.transform_all _ (Input.points c)) as [pois | |] eqn:Hp;
    [| done | done].
  intros [= <- <-]. by exists start, stop_idx, g, c.
Qed.

Lemma input_cells_distinct (py : Input.builtins) (self self' : Input.t)
  (lines : list string) (d : Input.data) :
  Input.call py self lines = Input.Ok (d, self') →
  NoDup (input_cells d)
  ∧ ∀ p, p ∈ input_cells d →
         0 ≤ p.1 < (Input.Size d).1 ∧ 0 ≤ p.2 < (Input.Size d).2.
Proof.
  intros (start & stop_idx & g & c & Hscan & _ & _ & _ & _ & _ & _ & ->)%call_Ok.
  apply scan_rows_cells in Hscan as [Hnd Hin]; [| lia | apply NoDup_nil_2 |].
  2: { intros p Hp. by apply elem_of_nil in Hp. }
  unfold input_cells. simpl. rewrite flip_cells. unfold Input.flip. split.
  - apply NoDup_fmap_2_strong; [| done].
    intros [x1 y1] [x2 y2] _ _ [= -> Hy]. f_equal. lia.
  - intros p (q & -> & Hq)%list_elem_of_fmap. specialize (Hin q Hq).
    simpl. lia.
Qed.

(** X11: In the dictionary of an accepted file no cell is listed twice, in
    one list or in two, and every listed cell lies on the board of the
    size recorded. *)
Theorem input_cells_on_board (py : Input.builtins) (self self' : Input.t)
  (lines : list string) (d : Input.data) :
  Input.call py self lines = Input.Ok (d, self') →
  NoDup (input_cells d)
  ∧ ∀ p, p ∈ input_cells d →
         0 ≤ p.1 < (Input.Size d).1 ∧ 0 ≤ p.2 < (Input.Size d).2.
Proof. apply input_cells_distinct. Qed.

Lemma input_cells_on_board_witness : NoDup (input_cells small_data).
Proof.
  refine (proj1 (input_cells_on_board plain_builtins (Input.Build 0 0)
                   (Input.Build 2 2) small_file small_data _)).
  vm_compute. reflexivity.
Defined.

(** ** What an accepted file guarantees *)


(** ** Boards with opaque blocks only *)

Lemma upd_pos_bounds (self : t) (l : lazer) :
  pos_chk self (upd_pos l) = true →
  (0 ≤ twice l.1.1.1 ≤ 2 * (size self).1 + 1)
  ∧ (0 ≤ twice l.1.1.2 ≤ 2 * (size self).2 + 1).
Proof.
  destruct_lazer l. unfold pos_chk, upd_pos. destruct (size self) as [w h].
  simpl.
  repeat match goal with
         | |- context [if ?b then _ else _] => destruct b
         end;
    unfold_half; rewrite !andb_true_iff, !Z.leb_le, !Z.ltb_lt; lia.
Qed.

Lemma passes_left_le_span (self : t) (l : lazer) :
  (passes_left self l ≤ span self)%nat.
Proof.
  unfold passes_left, span. pose proof (upd_pos_bounds self l) as H.
  destruct_lazer l. destruct (pos_chk self _); [| lia].
  specialize (H eq_refl). destruct (size self) as [w h]. simpl in *.
  ltb_cases; lia.
Qed.

Lemma advance_passes_left (self : t) (l : lazer) :
  moving l → pos_chk self (upd_pos l) = true →
  moving (advance l)
  ∧ (passes_left self (advance l) < passes_left self l)%nat.
Proof.
  intros Hmov Hpos. pose proof (upd_pos_bounds self l Hpos) as H.
  pose proof (upd_pos_bounds self (advance l)) as H'.
  destruct (pos_chk self (upd_pos (advance l))) eqn:Hpos';
    unfold passes_left; destruct_lazer l; unfold advance, moving in *;
    cbv beta iota; rewrite Hpos, Hpos'; (split; [done |]);
    destruct (size self) as [w h]; unfold_half; simpl in H, H', Hmov |- *.
  - specialize (H' eq_refl). ltb_cases; lia.
  - ltb_cases; lia.
Qed.

Lemma lazer_step_opaque (self : t) (l : lazer) :
  opaque_only self → moving l →
  match lazer_step self l with
  | Break new_lasers => new_lasers = []
  | Again l' =>
      moving l' ∧ (passes_left self l' < passes_left self l)%nat
  end.
Proof.
  intros Hop Hmov. rewrite lazer_step_eq.
  destruct (pos_chk self (upd_pos l)) eqn:Hpos; [| done]. simpl.
  destruct (sel_comb_get self (upd_pos l)) as [b |] eqn:Hget.
  - unfold sel_comb_get in Hget.
    destruct (_ && _); [| done]. by rewrite (Hop _ _ Hget).
  - by apply advance_passes_left.
Qed.

Lemma run_opaque (self : t) (fuel : nat) (c : config) :
  opaque_only self → Forall moving (frontier c) →
  (potential self c < fuel)%nat →
  is_Some (run self fuel c).
Proof.
  intros Hop. revert c.
  induction fuel as [| fuel IH]; intros c Hmov Hlt; [lia |].
  cbn [run]. unfold potential, frontier in *.
  destruct (current c) as [l |] eqn:Hc.
  - rewrite (step_current self c l Hc). simpl in Hmov.
    apply Forall_cons in Hmov as [Hl Hq].
    destruct (remove_point _ _) as [| p rem]; [done |].
    pose proof (lazer_step_opaque self l Hop Hl) as Hstep.
    destruct (lazer_step self l) as [new | l'].
    + subst new. apply IH; simpl.
      * by rewrite app_nil_r.
      * rewrite app_nil_r. lia.
    + destruct Hstep as [Hl' Hdec]. apply IH; simpl.
      * by constructor.
      * lia.
  - unfold step. rewrite Hc. simpl in Hmov.
    destruct (active_lasers c) as [| l rest]; [done |].
    apply IH; simpl.
    + done.
    + pose proof (passes_left_le_span self l). simpl in Hlt. lia.
Qed.

Lemma check_solution_opaque (self : t) :
  opaque_only self → Forall moving (lazers self) →
  is_Some (check_solution (length (lazers self) * (span self + 2) + 1) self).
Proof.
  intros Hop Hmov. apply run_opaque; [done | done |].
  unfold potential. simpl. lia.
Qed.

(** X14: On a board whose blocks are all opaque, with no beam at rest, the
    simulation returns, within [span + 2] passes for each beam and one
    more. *)
Theorem opaque_board_returns (self : t) :
  opaque_only self → Forall moving (lazers self) →
  is_Some (check_solution (length (lazers self) * (span self + 2) + 1) self).
Proof. apply check_solution_opaque. Qed.

Lemma first_success_total (fuel : nat) (self : t)
  (ds : list (gmap cell block)) :
  (∀ d, d ∈ ds → is_Some (check_solution fuel (set_sel_comb d self))) →
  is_Some (first_success fuel self ds).
Proof.
  induction ds as [| d ds IH]; intros H; simpl; [done |].
  destruct (H d) as [[|] ->]; [by left | done |].
  apply IH. intros d' Hd'. apply H. by right.
Qed.

Lemma combinations_0 {T : Type} (l : list T) : combinations l 0 = [[]].
Proof. by destruct l. Qed.

Lemma candidates_opaque (self : t) (d : gmap cell block) :
  A self = 0%nat → C self = 0%nat → A_l self = [] → C_l self = [] →
  d ∈ candidates self → opaque_only (set_sel_comb d self).
Proof.
  intros HA HC HAl HCl (i_a & i_b & i_c & Ha & _ & Hc & ->)%elem_of_candidates.
  rewrite HA, combinations_0 in Ha. rewrite HC, combinations_0 in Hc.
  apply list_elem_of_singleton in Ha as ->.
  apply list_elem_of_singleton in Hc as ->.
  intros k b. simpl. rewrite new_sel_comb_priority, HAl, HCl.
  repeat (destruct (decide _) as [H | _];
          [try (by apply elem_of_nil in H); by intros [= <-] |]).
  done.
Qed.

(** X15: With opaque blocks only, to place and fixed, and no beam at rest,
    [__call__] returns: a dictionary or [None], the same whatever the
    number of passes allowed beyond the bound. *)
Theorem opaque_puzzle_returns (self : t) :
  A self = 0%nat → C self = 0%nat → A_l self = [] → C_l self = [] →
  Forall moving (lazers self) →
  ∃ r, ∀ fuel,
    (length (lazers self) * (span self + 2) + 1 ≤ fuel)%nat →
    ∃ self', call fuel self = Some (r, self').
Proof.
  intros HA HC HAl HCl Hmov.
  destruct (first_success_total
              (length (lazers self) * (span self + 2) + 1) self
              (candidates self)) as [r Hr].
  { intros d Hd.
    apply (check_solution_opaque (set_sel_comb d self)); [| done].
    by apply candidates_opaque. }
  exists r. intros fuel Hle. apply call_returns_iff.
  by eapply first_success_mono.
Qed.

Lemma opaque_board_returns_witness :
  is_Some (check_solution 9 (set_sel_comb {[ (0, 1) := blockB ]} opaque_puzzle)).
Proof.
  apply (opaque_board_returns
           (set_sel_comb {[ (0, 1) := blockB ]} opaque_puzzle)).
  - intros k b. simpl. by intros [_ <-]%lookup_singleton_Some.
  - repeat constructor. simpl. lia.
Defined.

Lemma opaque_puzzle_returns_witness :
  ∃ r, ∀ fuel, (9 ≤ fuel)%nat →
    ∃ self', call fuel opaque_puzzle = Some (r, self').
Proof.
  apply (opaque_puzzle_returns opaque_puzzle); try reflexivity.
  repeat constructor. simpl. lia.
Defined.

(** ** The invariant along a whole simulation *)

Lemma traced_well_formed (self : t) (F : list lazer) (l : lazer) :
  Forall well_formed F → beam_closure self F l → well_formed l.
Proof.
  intros HF. induction 1 as [x Hx | x0 x _ IH Hstep | x0 new x _ IH Hstep Hx].
  - by eapply Forall_forall in HF.
  - destruct IH as [Hinv Hagree].
    destruct (advance_reflect_inv x0 Hinv Hagree) as [Ha Hr].
    destruct (lazer_step_cases self x0) as [[E | E] | [[E | E] _]];
      rewrite E in Hstep; try done; by injection Hstep as <-.
  - destruct IH as [Hinv Hagree].
    destruct (advance_reflect_inv x0 Hinv Hagree) as [Ha Hr].
    destruct (lazer_step_cases self x0) as [[E | E] | [[E | E] _]];
      rewrite E in Hstep; try done; injection Hstep as <-.
    + by apply elem_of_nil in Hx.
    + rewrite refract_paths in Hx.
      apply elem_of_cons in Hx as [-> | Hx]; [done |].
      by apply list_elem_of_singleton in Hx as ->.
Qed.

(** X16: When the invariant holds for the beams of the puzzle, their deltas
    both zero or both non-zero, it holds for every beam state that
    comes up in the simulation, whatever the blocks. *)
Theorem traced_half_integer_inv (self : t) (l : lazer) :
  Forall well_formed (lazers self) → traced self l → well_formed l.
Proof. apply traced_well_formed. Qed.

Lemma well_formed_pos (l : lazer) :
  well_formed l → is_integer (pos l).1 = negb (is_integer (pos l).2).
Proof. destruct l as [[[x y] vx] vy]. by intros [[H _] _]. Qed.

Lemma check_solution_off_lattice (self : t) (p : point) (fuel : nat) :
  Forall well_formed (lazers self) →
  p ∈ points self → is_integer p.1 = is_integer p.2 →
  check_solution fuel self ≠ Some true.
Proof.
  intros Hwf Hp Hint Hrun.
  destruct (run_true_hits self (lazers self) fuel
              (Config (points self) None (lazers self))) with (p := p)
    as (l & Hl & <-); [| done | done |].
  { unfold frontier. simpl. intros l Hl. by apply closure_base. }
  apply (traced_well_formed self _ l Hwf), well_formed_pos in Hl.
  rewrite Hl in Hint. by destruct (is_integer (pos l).2).
Qed.

(** X17: A target on a corner or in the middle of a cell (both coordinates
    whole, or neither) is never hit by beams the invariant holds for:
    no simulation returns [True], and [__call__] returns no
    dictionary. *)
Theorem off_lattice_target_unsolvable (self : t) (p : point) :
  Forall well_formed (lazers self) →
  p ∈ points self → is_integer p.1 = is_integer p.2 →
  (∀ fuel, check_solution fuel self ≠ Some true)
  ∧ ∀ fuel d self', call fuel self ≠ Some (Some d, self').
Proof.
  intros Hwf Hp Hint. split.
  - intros fuel. by eapply check_solution_off_lattice.
  - intros fuel d self' Hcall.
    assert (first_success fuel self (candidates self) = Some (Some d)) as H.
    { apply call_returns_iff. by exists self'. }
    destruct (first_success_found _ _ _ _ H) as (_ & _ & _ & _ & Hd).
    by eapply (check_solution_off_lattice (set_sel_comb d self)) in Hd.
Qed.

Lemma traced_half_integer_inv_witness :
  well_formed (Half 1, Half 2, Half 1, Half 1).
Proof.
  apply (traced_half_integer_inv scenario_a).
  - repeat constructor; simpl; lia.
  - eapply closure_again; [apply closure_base; by left | reflexivity].
Defined.

Lemma off_lattice_target_unsolvable_witness :
  call 10 corner_target ≠ Some (Some {[ (1, 1) := blockA ]}, corner_target).
Proof.
  refine (proj2 (off_lattice_target_unsolvable corner_target (Half 2, Half 2)
                   _ _ _) 10%nat {[ (1, 1) := blockA ]} corner_target).
  - repeat constructor; simpl; lia.
  - by left.
  - reflexivity.
Defined.

(** ** From the file to the candidates *)


Lemma parsed_candidate_on_board (py : Input.builtins) (self self' : Input.t)
  (lines : list string) (d : Input.data) (cand : gmap cell block) (k : cell) :
  Input.call py self lines = Input.Ok (d, self') →
  cand ∈ candidates (init d) → is_Some (cand !! k) →
  on_board (Input.Size d) k.
Proof.
  intros [_ Hin]%input_cells_distinct.
  intros (i_a & i_b & i_c & Ha & Hb & Hc & ->)%elem_of_candidates Hk.
  apply Hin. unfold input_cells.
  destruct (choices_sublists (init d) i_a i_b i_c Ha Hb Hc)
    as ((Hsa & Hsb & Hsc) & _).
  rewrite new_sel_comb_priority in Hk. simpl in *. rewrite !elem_of_app.
  repeat (destruct (decide _) as [? | ?]; [eauto 7 using elem_of_sublist |]).
  by destruct Hk.
Qed.



(** ** The figure of a solution *)

Lemma place_on (n : nat) (i : Z) :
  0 ≤ i < Z.of_nat n → SaveSolution.place n i = Some (Z.to_nat i).
Proof. intros H. unfold SaveSolution.place. by rewrite decide_True. Qed.

Lemma set_item_on_board (size : Z * Z) (figure : list (list Z))
  (k : cell) (v : Z) :
  well_shaped size figure → on_board size k →
  ∃ figure',
    SaveSolution.set_item figure (size.2 - k.2 - 1) k.1 v = Some figure'
    ∧ well_shaped size figure'
    ∧ figure_at size figure' k = Some v
    ∧ ∀ k', on_board size k' → k' ≠ k →
        figure_at size figure' k' = figure_at size figure k'.
Proof.
  destruct size as [w h], k as [x y]. unfold well_shaped, on_board. simpl.
  intros [Hlen Hrows] [Hx Hy]. unfold SaveSolution.set_item.
  rewrite place_on by lia. simpl.
  destruct (lookup_lt_is_Some_2 figure (Z.to_nat (h - y - 1))) as [row Hrow];
    [lia |].
  rewrite Hrow. simpl.
  assert (length row = Z.to_nat w) as Hrl
    by by eapply (Forall_lookup_1 _ _ _ _ Hrows).
  rewrite place_on by lia. simpl. eexists. split; [done |].
  split; [| split].
  - rewrite length_insert. split; [done |].
    apply Forall_insert; [done |]. by rewrite length_insert.
  - unfold figure_at. simpl. rewrite list_lookup_insert_eq by lia. simpl.
    apply list_lookup_insert_eq. lia.
  - intros [x' y'] [Hx' Hy'] Hne. unfold figure_at. simpl in *.
    destruct (decide (y' = y)) as [-> | Hy_ne].
    + rewrite list_lookup_insert_eq by lia. rewrite Hrow. simpl.
      apply list_lookup_insert_ne. intros E. apply Hne. f_equal. lia.
    + rewrite list_lookup_insert_ne by lia. done.
Qed.

Lemma paint_on_board (size : Z * Z) (cells : list (cell * Z))
  (figure : list (list Z)) :
  well_shaped size figure →
  (∀ k, k ∈ cells.*1 → on_board size k) →
  ∃ figure',
    SaveSolution.paint size cells figure = Some figure'
    ∧ well_shaped size figure'
    ∧ (∀ k, on_board size k → k ∉ cells.*1 →
         figure_at size figure' k = figure_at size figure k)
    ∧ (∀ k v, k ∈ cells.*1 → (∀ v', (k, v') ∈ cells → v' = v) →
         figure_at size figure' k = Some v).
Proof.
  revert figure. induction cells as [| [k v] rest IH]; intros figure Hws Hon.
  - exists figure. split; [done |]. split; [done |]. split; [done |].
    intros k v Hk. by apply elem_of_nil in Hk.
  - destruct (set_item_on_board size figure k v Hws) as
      (figure1 & Hset & Hws1 & Hk & Hother); [apply Hon; by left |].
    destruct (IH figure1 Hws1) as (figure' & Hpaint & Hws' & Hout & Hin).
    { intros k' Hk'. apply Hon. by right. }
    exists figure'. split; [| split; [done | split]].
    + destruct k as [x y]. cbn [SaveSolution.paint]. simpl in Hset.
      rewrite Hset. exact Hpaint.
    + intros k' Hon' Hnot. cbn [fmap list_fmap fst] in Hnot.
      apply not_elem_of_cons in Hnot as [Hne Hnot].
      rewrite Hout by done. by apply Hother.
    + intros k' v' Hk' Hall. cbn [fmap list_fmap fst] in Hk'.
      destruct (decide (k' ∈ rest.*1)) as [Hrest | Hrest].
      * apply Hin; [done |]. intros v'' Hv''. apply Hall. by right.
      * apply elem_of_cons in Hk' as [-> | Hk']; [| done].
        rewrite Hout; [| apply Hon; by left | done].
        rewrite Hk. f_equal. apply Hall. by left.
Qed.

Lemma figure_at_blank (size : Z * Z) (k : cell) :
  on_board size k →
  figure_at size
    (replicate (Z.to_nat size.2) (replicate (Z.to_nat size.1) 0)) k
  = Some 0.
Proof.
  intros [Hx Hy]. unfold figure_at.
  rewrite lookup_replicate_2 by lia. simpl. apply lookup_replicate_2. lia.
Qed.

Lemma build_figure_on_board (d : gmap cell block)
  (items : list (cell * block)) (x_l : list cell) (size : Z * Z) :
  items ≡ₚ map_to_list d →
  (∀ k, is_Some (d !! k) → on_board size k) →
  (∀ k, k ∈ x_l → on_board size k) →
  ∃ figure,
    SaveSolution.build_figure items x_l size = Some figure
    ∧ well_shaped size figure
    ∧ ∀ k, on_board size k →
        figure_at size figure k
        = Some (if decide (k ∈ x_l) then 4
                else from_option SaveSolution.color_mapping 0 (d !! k)).
Proof.
  intros Hitems Hd Hx. unfold SaveSolution.build_figure.
  set (blank := replicate _ _).
  assert (∀ k b, (k, b) ∈ items ↔ d !! k = Some b) as Hlookup.
  { intros k b. rewrite Hitems. apply elem_of_map_to_list. }
  assert (∀ k, k ∈ (prod_map id SaveSolution.color_mapping <$> items).*1
               ↔ is_Some (d !! k)) as Hkeys.
  { intros k. rewrite <- list_fmap_compose. rewrite list_elem_of_fmap. split.
    - intros ([k' b] & -> & Hin). simpl. exists b. by apply Hlookup.
    - intros [b Hb]. exists (k, b). split; [done |]. by apply Hlookup. }
  destruct (paint_on_board size
              (prod_map id SaveSolution.color_mapping <$> items) blank)
    as (figure1 & Hp1 & Hws1 & Hout1 & Hin1).
  { unfold blank. split; [by rewrite length_replicate |].
    apply Forall_replicate. by rewrite length_replicate. }
  { intros k Hk. by apply Hd, Hkeys. }
  destruct (paint_on_board size ((λ position, (position, 4)) <$> x_l) figure1)
    as (figure & Hp2 & Hws2 & Hout2 & Hin2); [done | |].
  { intros k Hk. apply Hx. rewrite <- list_fmap_compose in Hk.
    by rewrite list_fmap_id in Hk. }
  assert (((λ position : cell, (position, 4)) <$> x_l).*1 = x_l) as Hfst.
  { rewrite <- list_fmap_compose. apply list_fmap_id. }
  rewrite Hfst in Hout2, Hin2.
  exists figure. rewrite Hp1. simpl. split; [done |]. split; [done |].
  intros k Hon. destruct (decide (k ∈ x_l)) as [Hk | Hk].
  - apply Hin2; [done |].
    by intros v' (position & [= <- <-] & _)%list_elem_of_fmap.
  - rewrite Hout2 by done. destruct (d !! k) as [b |] eqn:Hb.
    + apply Hin1; [apply Hkeys; by exists b |].
      intros v' ([k' b'] & [= -> ->] & Hin)%list_elem_of_fmap.
      apply Hlookup in Hin. simpl. congruence.
    + rewrite Hout1; [by apply figure_at_blank | done |].
      rewrite Hkeys, Hb. by intros [? ?].
Qed.

(** X19: With every block of the dictionary and every blocked cell on the
    board, [build_figure] raises no [IndexError]; the figure has
    [size[1]] rows of [size[0]] entries, and the entry for a cell is
    [4] where the cell is blocked, else the number of its block, else
    [0]. *)
Theorem build_figure_colours (d : gmap cell block)
  (items : list (cell * block)) (x_l : list cell) (size : Z * Z) :
  items ≡ₚ map_to_list d →
  (∀ k, is_Some (d !! k) → on_board size k) →
  (∀ k, k ∈ x_l → on_board size k) →
  ∃ figure,
    SaveSolution.build_figure items x_l size = Some figure
    ∧ well_shaped size figure
    ∧ ∀ k, on_board size k →
        figure_at size figure k
        = Some (if decide (k ∈ x_l) then 4
                else from_option SaveSolution.color_mapping 0 (d !! k)).
Proof. apply build_figure_on_board. Qed.

(** ** Lines with too few numbers *)

Lemma ints_length (py : Input.builtins) (tokens : list string) (ns : list Z) :
  Input.ints py tokens = Some ns → length ns = length tokens.
Proof. unfold Input.ints. intros H. symmetry. by eapply length_mapM. Qed.

Lemma config_line_full_length (py : Input.builtins) (line : string)
  (c : Input.settings) :
  enough_fields py line = true → full_length c →
  match Input.config_line py line c with
  | Input.Ok c' => full_length c'
  | Input.SystemExit _ => True
  | Input.IndexError => False
  end.
Proof.
  unfold enough_fields, Input.config_line. intros Hline [Hl Hp].
  destruct (bool_decide (Input.strip py line = "")
            || Input.is_comment (Input.strip py line)); [done |].
  simpl in Hline.
  destruct (Input.split py (Input.strip py line)) as [| identifier rest];
    [done |].
  apply andb_true_iff in Hline as [HL HP].
  destruct (bool_decide (identifier ∈ ["A"; "B"; "C"])).
  { destruct (last _ ≫= _); [| done].
    destruct (decide (identifier = "A")); [simpl; by split |].
    destruct (decide (identifier = "B")); simpl; by split. }
  destruct (decide (identifier = "L")) as [_ | _].
  { apply bool_decide_eq_true in HL.
    destruct (Input.ints py (take 4 rest)) as [lazor |] eqn:E; [| done].
    split; [| done]. simpl. apply Forall_app. split; [done |].
    constructor; [| done]. apply ints_length in E.
    rewrite E, length_take. lia. }
  destruct (decide (identifier = "P")) as [_ | _]; [| done].
  apply bool_decide_eq_true in HP.
  destruct (Input.ints py (take 2 rest)) as [poi |] eqn:E; [| done].
  split; [done |]. simpl. apply Forall_app. split; [done |].
  constructor; [| done]. apply ints_length in E.
  rewrite E, length_take. lia.
Qed.

Lemma config_lines_full_length (py : Input.builtins) (lines : list string)
  (c : Input.settings) :
  Forall (λ line, enough_fields py line = true) lines → full_length c →
  match Input.config_lines py lines c with
  | Input.Ok c' => full_length c'
  | Input.SystemExit _ => True
  | Input.IndexError => False
  end.
Proof.
  intros Hlines. revert c.
  induction Hlines as [| line lines Hline _ IH]; intros c Hc; [done |].
  cbn [Input.config_lines].
  pose proof (config_line_full_length py line c Hline Hc) as H.
  destruct (Input.config_line py line c) as [c' | |]; [by apply IH | done..].
Qed.

Lemma transform_lazors_full_length (h : Z) (lazors : list (list Z)) :
  Forall (λ lazor, length lazor = 4%nat) lazors →
  ∃ lazers, Input.transform_all (Input.transform_lazor h) lazors
            = Input.Ok lazers.
Proof.
  induction 1 as [| lazor lazors Hlen _ [lazers IH]]; [by eexists |].
  destruct lazor as [| x [| y [| vx [| vy rest]]]]; try done.
  simpl. rewrite IH. by eexists.
Qed.

Lemma transform_pois_full_length (h : Z) (points : list (list Z)) :
  Forall (λ poi, length poi = 2%nat) points →
  ∃ pois, Input.transform_all (Input.transform_poi h) points = Input.Ok pois.
Proof.
  induction 1 as [| poi points Hlen _ [pois IH]]; [by eexists |].
  destruct poi as [| x [| y rest]]; try done.
  simpl. rewrite IH. by eexists.
Qed.

Lemma call_full_length (py : Input.builtins) (self : Input.t)
  (lines : list string) :
  Forall (λ line, enough_fields py line = true) lines →
  Input.call py self lines ≠ Input.IndexError.
Proof.
  intros Hlines. unfold Input.call.
  destruct (Input.index "GRID START" lines) as [start |]; [| done].
  destruct (Input.index "GRID STOP" lines) as [stop_idx |]; [| done].
  destruct (Input.scan_rows _ _ _ _ _) as [g self1].
  case_bool_decide; [done |].
  pose proof (config_lines_full_length py (drop (S stop_idx) lines)
                (Input.Settings 0 0 0 [] [])) as Hc.
  destruct (Input.config_lines _ _ _) as [c | |]; [| done |].
  - destruct Hc as [Hl Hp]; [by apply Forall_drop | by split |].
    case_bool_decide; [done |]. case_bool_decide; [done |].
    destruct (transform_lazors_full_length (Input.height self1) _ Hl)
      as [lazers ->].
    destruct (transform_pois_full_length (Input.height self1) _ Hp)
      as [pois ->].
    done.
  - exfalso. apply Hc; [by apply Forall_drop | by split].
Qed.

(** X20: When every line of the file has all its fields, the call ends with
    the dictionary or with [SystemExit], never with an [IndexError]
    (which a lazor line with fewer than four numbers or a target line
    with fewer than two raises once the coordinates are transformed,
    the line itself having been accepted). *)
Theorem call_no_IndexError (py : Input.builtins) (self : Input.t)
  (lines : list string) :
  Forall (λ line, enough_fields py line = true) lines →
  Input.call py self lines ≠ Input.IndexError.
Proof. apply call_full_length. Qed.

Lemma call_no_IndexError_witness :
  Input.call plain_builtins (Input.Build 0 0) solved_file ≠ Input.IndexError.
Proof.
  apply (call_no_IndexError plain_builtins (Input.Build 0 0) solved_file).
  repeat constructor.
Defined.

(** ** From the file to the figure *)

Lemma candidates_nonempty (self : t) (d : gmap cell block) :
  d ∈ candidates self → (0 < A self + B self + C self)%nat → d ≠ ∅.
Proof.
  intros (i_a & i_b & i_c & Ha & Hb & Hc & ->)%elem_of_candidates Hpos.
  apply combinations_sublist in Ha as [_ Hla], Hb as [_ Hlb], Hc as [_ Hlc].
  assert (∃ pos, pos ∈ i_a ∨ pos ∈ i_b ∨ pos ∈ i_c) as [pos Hin].
  { destruct i_a as [| p ?]; [| exists p; left; by left].
    destruct i_b as [| p ?]; [| exists p; right; left; by left].
    destruct i_c as [| p ?]; [| exists p; right; right; by left].
    simpl in *. lia. }
  intros Hempty.
  assert (new_sel_comb self i_a i_b i_c !! pos = None) as Hnone
    by by rewrite Hempty.
  rewrite new_sel_comb_priority in Hnone.
  repeat (destruct (decide _) as [? | ?]; [done |]). tauto.
Qed.

Lemma call_result_candidate (self self' : t) (fuel : nat)
  (d : gmap cell block) :
  call fuel self = Some (Some d, self') → d ∈ candidates self.
Proof.
  intros Hcall.
  assert (first_success fuel self (candidates self) = Some (Some d)) as H.
  { apply call_returns_iff. by exists self'. }
  destruct (first_success_found _ _ _ _ H) as (pre & post & -> & _).
  apply elem_of_app. right. by left.
Qed.

(** X21: From the file to the figure: the dictionary [__call__] returns for
    an accepted file (with no negative count) is not empty, so that it
    is drawn; [build_figure] then raises no [IndexError], and the
    figure shows [4] on the blocked cells, the number of its block on
    every cell of the dictionary, and [0] elsewhere. *)
Theorem solution_figure (py : Input.builtins) (self self' : Input.t)
  (lines : list string) (d : Input.data) (fuel : nat)
  (sol : gmap cell block) (solver : t) (items : list (cell * block)) :
  Input.call py self lines = Input.Ok (d, self') →
  0 ≤ Input.A d → 0 ≤ Input.B d → 0 ≤ Input.C d →
  call fuel (init d) = Some (Some sol, solver) →
  items ≡ₚ map_to_list sol →
  sol ≠ ∅
  ∧ ∃ figure,
      SaveSolution.build_figure items (Input.x_l d) (Input.Size d)
      = Some figure
      ∧ well_shaped (Input.Size d) figure
      ∧ ∀ k, on_board (Input.Size d) k →
          figure_at (Input.Size d) figure k
          = Some (if decide (k ∈ Input.x_l d) then 4
                  else from_option SaveSolution.color_mapping 0 (sol !! k)).
Proof.
  intros Hfile HA HB HC Hcand%call_result_candidate Hitems. split.
  - apply (candidates_nonempty (init d)); [done |].
    apply call_Ok in Hfile
      as (start & stop_idx & g & c & _ & _ & _ & Hcount & _ & _ & _ & Hd).
    assert (Input.A d = Input.A_count c ∧ Input.B d = Input.B_count c
            ∧ Input.C d = Input.C_count c) as (Ea & Eb & Ec)
      by by rewrite Hd.
    simpl. lia.
  - apply (build_figure_on_board sol); [done | |].
    + intros k Hk. by eapply parsed_candidate_on_board.
    + intros k Hk. apply input_cells_distinct in Hfile as [_ Hin].
      apply Hin. unfold input_cells. rewrite !elem_of_app. auto.
Qed.

Lemma solution_figure_witness :
  ∃ figure,
    SaveSolution.build_figure [((1, 1), blockA)] [(0, 0)] (2, 2) = Some figure
    ∧ well_shaped (2, 2) figure
    ∧ ∀ k, on_board (2, 2) k →
        figure_at (2, 2) figure k
        = Some (if decide (k ∈ [(0, 0)]) then 4
                else from_option SaveSolution.color_mapping 0
                       (({[ (1, 1) := blockA ]} : gmap cell block) !! k)).
Proof.
  refine (proj2 (solution_figure plain_builtins (Input.Build 0 0)
                   (Input.Build 2 2) solved_file solved_data 20
                   {[ (1, 1) := blockA ]}
                   (set_sel_comb {[ (1, 1) := blockA ]} (init solved_data))
                   [((1, 1), blockA)] _ _ _ _ _ _)).
  - vm_compute. reflexivity.
  - simpl. lia.
  - simpl. lia.
  - simpl. lia.
  - vm_compute. reflexivity.
  - vm_compute. reflexivity.
Defined.

Lemma build_figure_colours_witness :
  ∃ figure,
    SaveSolution.build_figure [((1, 1), blockC)] [(0, 0)] (2, 2) = Some figure
    ∧ well_shaped (2, 2) figure
    ∧ ∀ k, on_board (2, 2) k →
        figure_at (2, 2) figure k
        = Some (if decide (k ∈ [(0, 0)]) then 4
                else from_option SaveSolution.color_mapping 0
                       (({[ (1, 1) := blockC ]} : gmap cell block) !! k)).
Proof.
  apply (build_figure_colours {[ (1, 1) := blockC ]}
           [((1, 1), blockC)] [(0, 0)] (2, 2)).
  - vm_compute. reflexivity.
  - intros k [b [<- _]%lookup_singleton_Some]. unfold on_board. simpl. lia.
  - intros k ->%list_elem_of_singleton. unfold on_board. simpl. lia.
Defined.

(** ** The grid and the lists of cells *)

Lemma positions_add_position (tok token : string) (position p : cell)
  (g : Input.grid) :
  tok ∈ grid_tokens →
  p ∈ positions tok (Input.add_position token position g)
  ↔ p ∈ positions tok g ∨ (token = tok ∧ p = position).
Proof.
  unfold grid_tokens. rewrite !elem_of_cons, elem_of_nil.
  intros [-> | [-> | [-> | [-> | [-> | []]]]]];
    unfold Input.add_position, positions;
    repeat (destruct (decide (token = _)) as [-> | ?]; simpl;
            rewrite ?elem_of_app, ?list_elem_of_singleton;
            [try (split; [tauto | by intros [? | [? ?]]; auto]) |]);
    try tauto; simpl; (split; [tauto |]); by intros [? | [? ?]].
Qed.

Lemma positions_scan_tokens (tok : string) (x y : Z) (tokens : list string)
  (g : Input.grid) (p : cell) :
  tok ∈ grid_tokens →
  p ∈ positions tok (Input.scan_tokens x y tokens g)
  ↔ p ∈ positions tok g
    ∨ (p.2 = y ∧ x ≤ p.1 ∧ tokens !! Z.to_nat (p.1 - x) = Some tok).
Proof.
  intros Htok. revert x g.
  induction tokens as [| token rest IH]; intros x g.
  - simpl. split; [auto | by intros [? | (_ & _ & ?)]].
  - cbn [Input.scan_tokens]. rewrite IH, positions_add_position by done.
    destruct p as [px py0]. simpl. split.
    + intros [[? | [-> [= -> ->]]] | (-> & Hx & Hlook)]; [by left | |].
      * right. repeat split; [lia |]. by rewrite Z.sub_diag.
      * right. repeat split; [lia |].
        replace (Z.to_nat (px - x)) with (S (Z.to_nat (px - (x + 1)))) by lia.
        done.
    + intros [? | (-> & Hx & Hlook)]; [by left; left |].
      destruct (decide (px = x)) as [-> | Hne].
      * rewrite Z.sub_diag in Hlook. injection Hlook as ->. by left; right.
      * right. repeat split; [lia |].
        replace (Z.to_nat (px - x)) with (S (Z.to_nat (px - (x + 1))))
          in Hlook by lia.
        done.
Qed.

Lemma positions_scan_rows (py : Input.builtins) (tok : string) (y : Z)
  (rows : list string) (g g' : Input.grid) (self self' : Input.t) (p : cell) :
  tok ∈ grid_tokens →
  Input.scan_rows py y rows g self = (g', self') →
  (Input.height self'
   = if decide (rows = []) then Input.height self
     else y + Z.of_nat (length rows) - 1)
  ∧ (p ∈ positions tok g'
     ↔ p ∈ positions tok g
       ∨ (y ≤ p.2 ∧ 0 ≤ p.1 ∧ token_at py rows p.1 (p.2 - y) = Some tok)).
Proof.
  intros Htok. revert y g self.
  induction rows as [| line rest IH]; intros y g self.
  - intros [= <- <-]. split; [done |]. unfold token_at. simpl.
    split; [auto | by intros [? | (_ & _ & ?)]].
  - cbn [Input.scan_rows]. intros [Hh Hiff]%IH. split.
    + rewrite Hh. rewrite (decide_False (P := line :: rest = [])) by done.
      destruct (decide (rest = [])) as [-> | _]; simpl; lia.
    + rewrite Hiff, positions_scan_tokens by done. unfold token_at.
      split.
      * intros [[? | (Hy & Hx & Hlook)] | (Hy & Hx & Hlook)]; [by left | |].
        -- right. repeat split; [lia | lia |].
           replace (Z.to_nat (p.2 - y)) with 0%nat by lia. simpl.
           by rewrite Z.sub_0_r in Hlook.
        -- right. repeat split; [lia | lia |].
           replace (Z.to_nat (p.2 - y)) with (S (Z.to_nat (p.2 - (y + 1))))
             by lia.
           done.
      * intros [? | (Hy & Hx & Hlook)]; [by left; left |].
        destruct (decide (p.2 = y)) as [E | Hne].
        -- left. right. repeat split; [done | done |].
           rewrite E, Z.sub_diag in Hlook. simpl in Hlook.
           by rewrite Z.sub_0_r.
        -- right. repeat split; [lia | lia |].
           replace (Z.to_nat (p.2 - y)) with (S (Z.to_nat (p.2 - (y + 1))))
             in Hlook by lia.
           done.
Qed.

Lemma listed_flip (tok : string) (h : Z) (g : Input.grid) (d : Input.data) :
  Input.o_l d = Input.flip h (Input.o_positions g) →
  Input.x_l d = Input.flip h (Input.x_positions g) →
  Input.A_l d = Input.flip h (Input.A_blocks g) →
  Input.B_l d = Input.flip h (Input.B_blocks g) →
  Input.C_l d = Input.flip h (Input.C_blocks g) →
  listed tok d = Input.flip h (positions tok g).
Proof.
  intros. unfold listed, positions.
  repeat (destruct (decide _); [done |]). done.
Qed.

Lemma call_grid (py : Input.builtins) (self self' : Input.t)
  (lines : list string) (d : Input.data) (tok : string) (k : cell) :
  Input.call py self lines = Input.Ok (d, self') →
  tok ∈ grid_tokens →
  let rows := grid_rows lines in
  (Input.Size d).2 = Z.of_nat (length rows)
  ∧ (k ∈ listed tok d
     ↔ 0 ≤ k.1 ∧ 0 ≤ k.2 < (Input.Size d).2
       ∧ token_at py rows k.1 ((Input.Size d).2 - 1 - k.2) = Some tok).
Proof.
  intros Hcall Htok rows.
  assert (∃ g, Input.scan_rows py 1 rows (Input.Grid [] [] [] [] []) self
               = (g, self')
               ∧ Input.o_positions g ≠ []
               ∧ Input.Size d = (Input.width self', Input.height self')
               ∧ listed tok d = Input.flip (Input.height self')
                                  (positions tok g)) as (g & Hscan & Ho & Hs & Hl).
  { subst rows. unfold grid_rows. revert Hcall. unfold Input.call.
    destruct (Input.index "GRID START" lines) as [start |]; [| done].
    destruct (Input.index "GRID STOP" lines) as [stop_idx |]; [| done].
    destruct (Input.scan_rows _ _ _ _ _) as [g self1] eqn:Hscan.
    case_bool_decide as Ho; [done |].
    destruct (Input.config_lines _ _ _) as [c | |]; [| done | done].
    case_bool_decide; [done |]. case_bool_decide; [done |].
    destruct (Input.transform_all _ (Input.lazors c)); [| done | done].
    destruct (Input.transform_all _ (Input.points c)); [| done | done].
    intros [= <- <-]. exists g. repeat split; [done |].
    by apply listed_flip. }
  assert (rows ≠ []) as Hrows.
  { intros E. rewrite E in Hscan. injection Hscan as <- _. done. }
  pose proof (λ p, positions_scan_rows py tok 1 rows _ g self self' p
                     Htok Hscan) as H.
  destruct (H k) as [Hh _]. rewrite decide_False in Hh by done.
  rewrite Hs, Hl. simpl. split; [lia |].
  unfold Input.flip. rewrite list_elem_of_fmap. split.
  - intros (p & -> & Hp). apply H in Hp as [Hp | (Hy & Hx & Hlook)].
    { unfold positions in Hp. simpl in Hp.
      repeat case_decide; by apply elem_of_nil in Hp. }
    assert (Z.to_nat (p.2 - 1) < length rows)%nat as Hlt.
    { unfold token_at in Hlook.
      destruct (rows !! Z.to_nat (p.2 - 1)) eqn:E; [| done].
      by eapply lookup_lt_Some. }
    simpl. repeat split; [done | lia | lia |].
    replace (Input.height self' - 1 - (Input.height self' - p.2))
      with (p.2 - 1) by lia.
    done.
  - intros (Hx & Hy & Hlook).
    exists (k.1, Input.height self' - k.2). split.
    { destruct k. simpl. f_equal. lia. }
    apply H. right. simpl. repeat split; [lia | done |].
    replace (Input.height self' - k.2 - 1)
      with (Input.height self' - 1 - k.2) by lia.
    done.
Qed.

(** X22: The height of the board is the number of rows of the grid, and a
    cell belongs to the list of a token exactly when that token stands
    at its place in the grid, the rows counted from the bottom. *)
Theorem grid_cells_of_tokens (py : Input.builtins) (self self' : Input.t)
  (lines : list string) (d : Input.data) (tok : string) (k : cell) :
  Input.call py self lines = Input.Ok (d, self') →
  tok ∈ grid_tokens →
  let rows := grid_rows lines in
  (Input.Size d).2 = Z.of_nat (length rows)
  ∧ (k ∈ listed tok d
     ↔ 0 ≤ k.1 ∧ 0 ≤ k.2 < (Input.Size d).2
       ∧ token_at py rows k.1 ((Input.Size d).2 - 1 - k.2) = Some tok).
Proof. apply call_grid. Qed.

Lemma grid_cells_of_tokens_witness : (0, 0) ∈ listed "x" solved_data.
Proof.
  refine (proj2 (proj2 (grid_cells_of_tokens plain_builtins (Input.Build 0 0)
                          (Input.Build 2 2) solved_file solved_data "x" (0, 0)
                          _ _)) _).
  - vm_compute. reflexivity.
  - unfold grid_tokens. rewrite !elem_of_cons. tauto.
  - vm_compute. repeat split; discriminate.
Defined.

(** ** The order of the beams *)

Lemma lazer_step_set_lazers (ls : list lazer) (self : t) (l : lazer) :
  lazer_step (set_lazers ls self) l = lazer_step self l.
Proof. by destruct l as [[[x y] vx] vy]. Qed.

Lemma beam_closure_set_lazers (ls F : list lazer) (self : t) (l : lazer) :
  beam_closure (set_lazers ls self) F l ↔ beam_closure self F l.
Proof.
  split; induction 1 as [x Hx | x0 x _ IH Hstep | x0 new x _ IH Hstep Hx].
  - by apply closure_base.
  - rewrite lazer_step_set_lazers in Hstep. by eapply closure_again.
  - rewrite lazer_step_set_lazers in Hstep. by eapply closure_break.
  - by apply closure_base.
  - rewrite <- (lazer_step_set_lazers ls) in Hstep. by eapply closure_again.
  - rewrite <- (lazer_step_set_lazers ls) in Hstep. by eapply closure_break.
Qed.

Lemma traced_set_lazers (ls : list lazer) (self : t) (l : lazer) :
  (∀ x, x ∈ ls ↔ x ∈ lazers self) →
  traced (set_lazers ls self) l ↔ traced self l.
Proof.
  intros Hsame. unfold traced. rewrite beam_closure_set_lazers. simpl.
  split; apply beam_closure_mono; intros x Hx; apply closure_base;
    by apply Hsame.
Qed.

Lemma check_solution_traced (self : t) (fuel : nat) (b : bool) :
  check_solution fuel self = Some b →
  b = true ↔ ∀ p, p ∈ points self → ∃ l, traced self l ∧ pos l = p.
Proof.
  intros Hrun. destruct b.
  - split; [intros _ | done].
    apply (run_true_hits self (lazers self) fuel
             (Config (points self) None (lazers self))); [| exact Hrun].
    unfold frontier. simpl. intros l Hl. by apply closure_base.
  - split; [done |]. intros Hall.
    apply run_false_misses in Hrun as (p & Hp & Hmiss).
    destruct (Hall p Hp) as (l & Hl & Hpos). by apply Hmiss in Hl.
Qed.

Lemma check_solution_lazers_as_set (self : t) (ls : list lazer)
  (fuel fuel' : nat) (b b' : bool) :
  (∀ l, l ∈ ls ↔ l ∈ lazers self) →
  check_solution fuel self = Some b →
  check_solution fuel' (set_lazers ls self) = Some b' →
  b' = b.
Proof.
  intros Hsame H%check_solution_traced H'%check_solution_traced.
  assert (b = true ↔ b' = true) as Hiff.
  { rewrite H, H'. simpl.
    split; intros Hall p Hp; destruct (Hall p Hp) as (l & Hl & Hpos);
      exists l; (split; [| done]); by apply (traced_set_lazers ls self). }
  destruct b, b'; try done; destruct Hiff as [H1 H2]; auto.
  symmetry. auto.
Qed.

(** X23: The result of the simulation depends on the beams as a set only:
    when a simulation returns, one that differs from it in the order
    or the repetitions of the beams returns the same, if it returns. *)
Theorem check_solution_beam_order (self : t) (ls : list lazer)
  (fuel fuel' : nat) (b : bool) :
  (∀ l, l ∈ ls ↔ l ∈ lazers self) →
  check_solution fuel self = Some b →
  check_solution fuel' (set_lazers ls self) = Some b
  ∨ check_solution fuel' (set_lazers ls self) = None.
Proof.
  intros Hsame Hrun.
  destruct (check_solution fuel' (set_lazers ls self)) as [b' |] eqn:Hrun';
    [left | by right].
  f_equal. by eapply check_solution_lazers_as_set.
Qed.

Lemma check_solution_beam_order_witness :
  let self := set_sel_comb {[ (1, 1) := blockA ]} scenario_a in
  let ls := [(Half 0, Half 1, Half 1, Half 1);
             (Half 0, Half 1, Half 1, Half 1)] in
  check_solution 10 (set_lazers ls self) = Some true
  ∨ check_solution 10 (set_lazers ls self) = None.
Proof.
  intros self ls. apply (check_solution_beam_order self ls 10 10 true).
  - intros l. subst ls. simpl. rewrite !elem_of_cons. tauto.
  - vm_compute. reflexivity.
Defined.

(** ** The numbers of a figure *)

Lemma set_item_entries (P : Z → Prop) (figure figure' : list (list Z))
  (r c v : Z) :
  Forall (Forall P) figure → P v →
  SaveSolution.set_item figure r c v = Some figure' →
  Forall (Forall P) figure'.
Proof.
  intros Hfig Hv. unfold SaveSolution.set_item.
  destruct (SaveSolution.place (length figure) r) as [i |]; [| done]. simpl.
  destruct (figure !! i) as [row |] eqn:Hrow; [| done]. simpl.
  destruct (SaveSolution.place (length row) c) as [j |]; [| done]. simpl.
  intros [= <-]. apply Forall_insert; [done |].
  apply Forall_insert; [| done]. by eapply (Forall_lookup_1 _ _ _ _ Hfig).
Qed.

Lemma paint_entries (P : Z → Prop) (size : Z * Z) (cells : list (cell * Z))
  (figure figure' : list (list Z)) :
  Forall (Forall P) figure → Forall (λ c, P c.2) cells →
  SaveSolution.paint size cells figure = Some figure' →
  Forall (Forall P) figure'.
Proof.
  intros Hfig Hcells. revert figure Hfig.
  induction Hcells as [| [[x y] v] rest Hv _ IH]; intros figure Hfig.
  - by intros [= <-].
  - cbn [SaveSolution.paint].
    destruct (SaveSolution.set_item figure _ _ _) as [figure1 |] eqn:E;
      [| done].
    simpl. apply IH. by eapply set_item_entries.
Qed.

Lemma build_figure_range (items : list (cell * block)) (x_l : list cell)
  (size : Z * Z) (figure : list (list Z)) :
  SaveSolution.build_figure items x_l size = Some figure →
  Forall (Forall (λ v, 0 ≤ v ≤ 4)) figure.
Proof.
  unfold SaveSolution.build_figure.
  destruct (SaveSolution.paint size (_ <$> items) _) as [figure1 |] eqn:E1;
    [| done].
  simpl. intros E2.
  eapply paint_entries; [| | exact E2].
  - eapply paint_entries; [| | exact E1].
    + apply Forall_replicate, Forall_replicate. lia.
    + apply Forall_fmap, Forall_forall. intros [k []] _; simpl; lia.
  - apply Forall_fmap, Forall_forall. intros k _. simpl. lia.
Qed.

(** X24: Whatever the dictionary and the blocked cells, a figure that is
    built holds no number beside [0] to [4], the keys of the colour
    table of [create_image]. *)
Theorem build_figure_entries (items : list (cell * block)) (x_l : list cell)
  (size : Z * Z) (figure : list (list Z)) :
  SaveSolution.build_figure items x_l size = Some figure →
  Forall (Forall (λ v, 0 ≤ v ≤ 4)) figure.
Proof. apply build_figure_range. Qed.

Lemma build_figure_entries_witness :
  Forall (Forall (λ v, 0 ≤ v ≤ 4)) [[0; 1]; [4; 0]].
Proof.
  apply (build_figure_entries [((1, 1), blockA)] [(0, 0)] (2, 2)).
  vm_compute. reflexivity.
Defined.

(** ** The size of the board *)

Lemma scan_rows_width (py : Input.builtins) (y : Z) (rows : list string)
  (g g' : Input.grid) (self self' : Input.t) :
  Input.scan_rows py y rows g self = (g', self') →
  Input.width self'
  = if decide (rows = []) then Input.width self
    else Z.max (Input.width self) (Z.of_nat (longest_row py rows)).
Proof.
  revert y g self. induction rows as [| line rest IH]; intros y g self.
  - by intros [= <- <-].
  - cbn [Input.scan_rows]. intros ->%IH.
    rewrite (decide_False (P := line :: rest = [])) by done.
    unfold longest_row. destruct (decide (rest = [])) as [-> | _]; simpl; lia.
Qed.

Lemma token_at_on_board (py : Input.builtins) (rows : list string)
  (x y : Z) (tok : string) :
  0 ≤ x → 0 ≤ y → token_at py rows x y = Some tok →
  x < Z.of_nat (longest_row py rows) ∧ y < Z.of_nat (length rows).
Proof.
  intros Hx Hy. unfold token_at.
  destruct (rows !! Z.to_nat y) as [line |] eqn:Hrow; [| done]. simpl.
  intros Hlook%lookup_lt_Some. apply lookup_lt_Some in Hrow as Hlt.
  split; [| lia].
  assert (length (Input.split py line) ≤ longest_row py rows)%nat; [| lia].
  unfold longest_row. clear -Hrow. revert Hrow.
  generalize (Z.to_nat y). induction rows as [| r rows IH]; intros [| n];
    simpl; try done.
  - intros [= ->]. lia.
  - intros H%IH. lia.
Qed.

Lemma call_size (py : Input.builtins) (self self' : Input.t)
  (lines : list string) (d : Input.data) :
  Input.call py self lines = Input.Ok (d, self') →
  Input.Size d
  = (Z.max (Input.width self) (Z.of_nat (longest_row py (grid_rows lines))),
     Z.of_nat (length (grid_rows lines))).
Proof.
  intros Hcall.
  destruct (call_grid py self self' lines d "o" (0, 0) Hcall) as [Hh _].
  { by left. }
  rewrite (surjective_pairing (Input.Size d)). f_equal; [| done].
  clear Hh. revert Hcall. unfold Input.call, grid_rows.
  destruct (Input.index "GRID START" lines) as [start |]; [| done].
  destruct (Input.index "GRID STOP" lines) as [stop_idx |]; [| done].
  destruct (Input.scan_rows _ _ _ _ _) as [g self1] eqn:Hscan.
  pose proof Hscan as Hscan0.
  case_bool_decide as Ho; [done |].
  destruct (Input.config_lines _ _ _) as [c | |]; [| done | done].
  case_bool_decide; [done |]. case_bool_decide; [done |].
  destruct (Input.transform_all _ (Input.lazors c)); [| done | done].
  destruct (Input.transform_all _ (Input.points c)); [| done | done].
  intros [= <- <-]. simpl. apply scan_rows_width in Hscan as ->.
  rewrite decide_False; [done |]. intros E. rewrite E in Hscan0.
  injection Hscan0 as <- _. done.
Qed.

(** X25: The board is as high as the grid has rows and as wide as its
    longest row has tokens (or as [self.width] was, if more). *)
Theorem size_of_grid (py : Input.builtins) (self self' : Input.t)
  (lines : list string) (d : Input.data) :
  Input.call py self lines = Input.Ok (d, self') →
  Input.Size d
  = (Z.max (Input.width self) (Z.of_nat (longest_row py (grid_rows lines))),
     Z.of_nat (length (grid_rows lines))).
Proof. apply call_size. Qed.

Lemma size_of_grid_witness : Input.Size solved_data = (2, 2).
Proof.
  apply (size_of_grid plain_builtins (Input.Build 0 0) (Input.Build 2 2)
           solved_file solved_data).
  vm_compute. reflexivity.
Defined.

(** ** The figure and the grid *)

Lemma figure_of_any_token (py : Input.builtins) (self self' : Input.t)
  (lines : list string) (d : Input.data) (fuel : nat)
  (sol : gmap cell block) (solver : t) (items : list (cell * block)) :
  Input.call py self lines = Input.Ok (d, self') →
  call fuel (init d) = Some (Some sol, solver) →
  items ≡ₚ map_to_list sol →
  ∃ figure,
    SaveSolution.build_figure items (Input.x_l d) (Input.Size d) = Some figure
    ∧ ∀ x y tok,
        0 ≤ x → 0 ≤ y →
        token_at py (grid_rows lines) x y = Some tok →
        figure !! Z.to_nat y ≫= (.!! Z.to_nat x)
        = Some (token_color tok (sol !! (x, (Input.Size d).2 - 1 - y))).
Proof.
  intros Hfile Hcall Hitems.
  pose proof (call_result_candidate _ _ _ _ Hcall) as Hcand.
  destruct (input_cells_distinct _ _ _ _ _ Hfile) as [Hnd Hin].
  destruct (build_figure_on_board sol items (Input.x_l d) (Input.Size d))
    as (figure & Hfig & _ & Hat); [done | |  |].
  { intros k Hk. by eapply parsed_candidate_on_board. }
  { intros k Hk. apply Hin. unfold input_cells. rewrite !elem_of_app. auto. }
  exists figure. split; [done |]. intros x y tok Hx Hy Htoken.
  set (k := (x, (Input.Size d).2 - 1 - y)).
  pose proof (call_size _ _ _ _ _ Hfile) as Hsize.
  destruct (token_at_on_board _ _ _ _ _ Hx Hy Htoken) as [Hxw Hyh].
  assert (on_board (Input.Size d) k) as Hon.
  { subst k. rewrite Hsize. unfold on_board. simpl. lia. }
  assert (∀ tok', tok' ∈ grid_tokens → k ∈ listed tok' d ↔ tok' = tok)
    as Hlisted.
  { intros tok' Htok'.
    destruct (call_grid py self self' lines d tok' k Hfile Htok') as [_ ->].
    subst k. simpl.
    replace ((Input.Size d).2 - 1 - ((Input.Size d).2 - 1 - y)) with y by lia.
    rewrite Htoken. destruct Hon as [? ?]. simpl in *.
    split; [by intros (_ & _ & [= ->]) | by intros ->]. }
  assert (k ∈ Input.o_l d ↔ "o" = tok) as Ho
    by (apply (Hlisted "o"); unfold grid_tokens; rewrite !elem_of_cons; tauto).
  assert (k ∈ Input.x_l d ↔ "x" = tok) as Hxl
    by (apply (Hlisted "x"); unfold grid_tokens; rewrite !elem_of_cons; tauto).
  assert (k ∈ Input.A_l d ↔ "A" = tok) as Ha
    by (apply (Hlisted "A"); unfold grid_tokens; rewrite !elem_of_cons; tauto).
  assert (k ∈ Input.B_l d ↔ "B" = tok) as Hb
    by (apply (Hlisted "B"); unfold grid_tokens; rewrite !elem_of_cons; tauto).
  assert (k ∈ Input.C_l d ↔ "C" = tok) as Hc
    by (apply (Hlisted "C"); unfold grid_tokens; rewrite !elem_of_cons; tauto).
  specialize (Hat k Hon). unfold figure_at in Hat. subst k. simpl in Hat.
  replace ((Input.Size d).2 - ((Input.Size d).2 - 1 - y) - 1) with y in Hat
    by lia.
  rewrite Hat. f_equal. clear Hat Hlisted.
  apply elem_of_candidates in Hcand as (i_a & i_b & i_c & _ & _ & _ & ->).
  unfold token_color. rewrite !new_sel_comb_priority. simpl.
  destruct (decide (tok = "x")) as [-> | Hnx].
  { rewrite decide_True; [done |]. by apply Hxl. }
  rewrite (decide_False (P := _ ∈ Input.x_l d)) by (rewrite Hxl; congruence).
  destruct (decide (tok = "A")) as [-> | Hna].
  { rewrite (decide_False (P := _ ∈ Input.C_l d)) by by rewrite Hc.
    rewrite (decide_False (P := _ ∈ Input.B_l d)) by by rewrite Hb.
    rewrite decide_True; [done |]. by apply Ha. }
  destruct (decide (tok = "B")) as [-> | Hnb].
  { rewrite (decide_False (P := _ ∈ Input.C_l d)) by by rewrite Hc.
    rewrite decide_True; [done |]. by apply Hb. }
  destruct (decide (tok = "C")) as [-> | Hnc].
  { rewrite decide_True; [done |]. by apply Hc. }
  done.
Qed.

(** X26: The figure built for the dictionary [__call__] returns follows the
    grid of the file row by row: [4] for an ['x'], [1], [2] and [3]
    for a fixed ['A'], ['B'] and ['C'], and for an ['o'] (or any other
    token) the number of the block placed there, [0] if none. *)
Theorem figure_shows_grid (py : Input.builtins) (self self' : Input.t)
  (lines : list string) (d : Input.data) (fuel : nat)
  (sol : gmap cell block) (solver : t) (items : list (cell * block)) :
  Input.call py self lines = Input.Ok (d, self') →
  0 ≤ Input.A d → 0 ≤ Input.B d → 0 ≤ Input.C d →
  call fuel (init d) = Some (Some sol, solver) →
  items ≡ₚ map_to_list sol →
  ∃ figure,
    SaveSolution.build_figure items (Input.x_l d) (Input.Size d) = Some figure
    ∧ ∀ x y tok,
        0 ≤ x → 0 ≤ y → token_at py (grid_rows lines) x y = Some tok →
        figure !! Z.to_nat y ≫= (.!! Z.to_nat x)
        = Some (token_color tok (sol !! (x, (Input.Size d).2 - 1 - y))).
Proof.
  intros Hfile _ _ _.
  apply (figure_of_any_token py self self' lines d fuel sol solver items Hfile).
Qed.

Lemma figure_shows_grid_witness :
  ∃ figure,
    SaveSolution.build_figure [((1, 1), blockA)] [(0, 0)] (2, 2) = Some figure
    ∧ ∀ x y tok,
        0 ≤ x → 0 ≤ y →
        token_at plain_builtins (grid_rows solved_file) x y = Some tok →
        figure !! Z.to_nat y ≫= (.!! Z.to_nat x)
        = Some (token_color tok
                  (({[ (1, 1) := blockA ]} : gmap cell block)
                     !! (x, 2 - 1 - y))).
Proof.
  apply (figure_shows_grid plain_builtins (Input.Build 0 0)
           (Input.Build 2 2) solved_file solved_data 20
           {[ (1, 1) := blockA ]}
           (set_sel_comb {[ (1, 1) := blockA ]} (init solved_data))
           [((1, 1), blockA)]).
  - vm_compute. reflexivity.
  - simpl. lia.
  - simpl. lia.
  - simpl. lia.
  - vm_compute. reflexivity.
  - vm_compute. reflexivity.
Defined.

(** ** What the value of [__call__] means *)

Lemma check_solution_solves (self : t) (d : gmap cell block) (fuel : nat)
  (b : bool) :
  check_solution fuel (set_sel_comb d self) = Some b →
  b = true ↔ solves self d.
Proof. apply check_solution_traced. Qed.

Lemma first_success_none (fuel : nat) (self : t)
  (ds : list (gmap cell block)) :
  first_success fuel self ds = Some None →
  Forall (λ d, check_solution fuel (set_sel_comb d self) = Some false) ds.
Proof.
  induction ds as [| d ds IH]; simpl; [by constructor |].
  destruct (check_solution fuel (set_sel_comb d self)) as [[|] |] eqn:E;
    [done | | done].
  intros H. constructor; [done | by apply IH].
Qed.

(** X27: A dictionary [__call__] returns puts every target on the path of a
    beam, and no dictionary built before it does. *)
Theorem returned_dictionary_solves (self self' : t) (fuel : nat)
  (d : gmap cell block) :
  call fuel self = Some (Some d, self') →
  ∃ pre post,
    candidates self = pre ++ d :: post
    ∧ solves self d
    ∧ Forall (λ d', ¬ solves self d') pre.
Proof.
  intros Hcall.
  assert (first_success fuel self (candidates self) = Some (Some d)) as H.
  { apply call_returns_iff. by exists self'. }
  destruct (first_success_found _ _ _ _ H) as (pre & post & Hc & Hpre & Hd).
  exists pre, post. split; [done |]. split.
  - by apply (check_solution_solves self d fuel true).
  - eapply Forall_impl; [exact Hpre |]. intros d' Hd' Hsol.
    by apply (check_solution_solves self d' fuel false) in Hsol.
Qed.

(** X28: When [__call__] returns [None], no dictionary the loops build puts
    every target on the path of a beam. *)
Theorem none_returned_unsolved (self self' : t) (fuel : nat) :
  call fuel self = Some (None, self') →
  Forall (λ d, ¬ solves self d) (candidates self).
Proof.
  intros Hcall.
  assert (first_success fuel self (candidates self) = Some None) as H.
  { apply call_returns_iff. by exists self'. }
  apply first_success_none in H.
  eapply Forall_impl; [exact H |]. intros d Hd Hsol.
  by apply (check_solution_solves self d fuel false) in Hsol.
Qed.

Lemma returned_dictionary_solves_witness :
  ∃ pre post,
    candidates scenario_a = pre ++ {[ (1, 1) := blockA ]} :: post
    ∧ solves scenario_a {[ (1, 1) := blockA ]}
    ∧ Forall (λ d', ¬ solves scenario_a d') pre.
Proof.
  apply (returned_dictionary_solves scenario_a
           (set_sel_comb {[ (1, 1) := blockA ]} scenario_a) 10).
  vm_compute. reflexivity.
Defined.

Lemma none_returned_unsolved_witness :
  Forall (λ d, ¬ solves (init small_data) d) (candidates (init small_data)).
Proof.
  apply (none_returned_unsolved (init small_data)
           (set_sel_comb {[ (0, 0) := blockA; (1, 0) := blockA ]}
              (init small_data)) 30).
  vm_compute. reflexivity.
Defined.

(** ** The loops enumerate the Placements of the specification *)

Lemma filter_length_cons {T : Type} (x : T) (n : nat) (L : list (list T)) :
  filter (λ s, length s = S n) (cons x <$> L)
  = cons x <$> filter (λ s, length s = n) L.
Proof.
  induction L as [| s L IH]; [done |].
  rewrite fmap_cons, !filter_cons, IH. simpl.
  destruct (decide (S (length s) = S n)) as [E | E];
    destruct (decide (length s = n)) as [E' | E']; try done; lia.
Qed.

Lemma filter_length_cons_0 {T : Type} (x : T) (L : list (list T)) :
  filter (λ s, length s = 0%nat) (cons x <$> L) = [].
Proof.
  induction L as [| s L IH]; [done |].
  rewrite fmap_cons, filter_cons_False; [done | simpl; lia].
Qed.

Lemma combinations_subsets {T : Type} (l : list T) (r : nat) :
  combinations l r = subsets l r.
Proof.
  unfold subsets. revert r.
  induction l as [| x l IH]; intros [| r]; cbn [combinations selections].
  - done.
  - done.
  - by rewrite filter_app, filter_length_cons_0, <- IH; destruct l.
  - by rewrite filter_app, filter_length_cons, <- !IH.
Qed.

Lemma not_chosen_remaining (l c : list cell) : not_chosen l c = remaining l c.
Proof.
  unfold not_chosen, remaining. induction l as [| x l IH]; [done |].
  rewrite filter_cons. cbn [list_difference]. rewrite IH.
  unfold decide_rel. destruct (list_elem_of_dec x c) as [Hin | Hnin].
  - by rewrite decide_False by tauto.
  - by rewrite decide_True.
Qed.

Lemma kind_map_lookup (kind : block) (cells : list cell) (k : cell) :
  kind_map kind cells !! k = if decide (k ∈ cells) then Some kind else None.
Proof.
  unfold kind_map. destruct (decide (k ∈ cells)) as [Hin | Hnin].
  - apply lookup_gset_to_gmap_Some. by rewrite elem_of_list_to_set.
  - apply lookup_gset_to_gmap_None. by rewrite elem_of_list_to_set.
Qed.

Lemma new_sel_comb_placement (self : t) (a_comb b_comb c_comb : list cell) :
  new_sel_comb self a_comb b_comb c_comb
  = placement_spec self a_comb b_comb c_comb.
Proof.
  apply map_eq. intros k. rewrite new_sel_comb_priority.
  unfold placement_spec, fixed_placement_spec.
  rewrite !lookup_union, !kind_map_lookup.
  repeat (destruct (decide _) as [? | ?]; simpl; try done).
Qed.

Lemma candidates_placements (self : t) : candidates self = placements_spec self.
Proof.
  unfold candidates, placements_spec.
  apply list_bind_ext; [| apply combinations_subsets].
  intros i_a. rewrite not_chosen_remaining.
  apply list_bind_ext; [| apply combinations_subsets].
  intros i_b. rewrite not_chosen_remaining.
  apply list_bind_ext; [| apply combinations_subsets].
  intros i_c. by rewrite new_sel_comb_placement.
Qed.


(** ** A simulation that never returns *)

Lemma first_success_hangs (self : t) (pre post : list (gmap cell block))
  (d : gmap cell block) (fuel : nat) :
  Forall (λ d', sim_reports self d' false) pre →
  (∀ fuel, check_solution fuel (set_sel_comb d self) = None) →
  first_success fuel self (pre ++ d :: post) = None.
Proof.
  intros Hpre Hd. induction Hpre as [| d' pre [f Hf] _ IH]; simpl.
  - by rewrite Hd.
  - destruct (check_solution fuel (set_sel_comb d' self)) as [[|] |] eqn:E;
      [| done | done].
    exfalso.
    pose proof (check_solution_mono _ _ (f `max` fuel) _ Hf) as H1.
    pose proof (check_solution_mono _ _ (f `max` fuel) _ E) as H2.
    rewrite H1 in H2 by lia. by specialize (H2 ltac:(lia)).
Qed.

(** C1 (amended): the dictionaries the three loops build are the
    Placements of the specification in its order (Reflect subsets of
    the open-cell list in index order, Opaque subsets over the cells
    not chosen, Split subsets over the cells then remaining).
    [__call__] returns the first of them on which the simulation
    returns [True], provided every simulation before it returns
    [False]; it returns [None] when every simulation returns [False];
    it returns nothing else; and when a simulation never returns, those
    before it having returned [False], [__call__] never returns. *)
Theorem call_returns_first_success (self : t) :
  candidates self = placements_spec self
  ∧ (∀ pre d post,
       placements_spec self = pre ++ d :: post →
       Forall (λ d', sim_reports self d' false) pre →
       sim_reports self d true →
       call_returns self (Some d))
  ∧ (Forall (λ d', sim_reports self d' false) (placements_spec self) →
     call_returns self None)
  ∧ (∀ fuel r self',
       call fuel self = Some (r, self') →
       match r with
       | Some d =>
           ∃ pre post,
             placements_spec self = pre ++ d :: post
             ∧ Forall (λ d', sim_reports self d' false) pre
             ∧ sim_reports self d true
       | None => Forall (λ d', sim_reports self d' false) (placements_spec self)
       end)
  ∧ (∀ pre d post,
       placements_spec self = pre ++ d :: post →
       Forall (λ d', sim_reports self d' false) pre →
       (∀ fuel, check_solution fuel (set_sel_comb d self) = None) →
       ∀ fuel, call fuel self = None).
Proof.
  rewrite <- candidates_placements.
  split; [done |]. split; [| split; [| split]].
  - intros pre d post Hcand Hpre [f Hd].
    destruct (sim_reports_common_fuel self pre Hpre) as [f0 Hf0].
    exists (f `max` f0)%nat. intros fuel Hle. apply call_returns_iff.
    rewrite Hcand, first_success_failures.
    + simpl. rewrite (check_solution_mono _ f fuel true); [done | done | lia].
    + intros d' Hd'. apply Hf0; [lia | done].
  - intros Hall.
    destruct (sim_reports_common_fuel self _ Hall) as [f0 Hf0].
    exists f0. intros fuel Hle. apply call_returns_iff.
    rewrite <- (app_nil_r (candidates self)), first_success_failures; [done |].
    intros d' Hd'. by apply Hf0.
  - intros fuel r self' Hcall.
    assert (first_success fuel self (candidates self) = Some r) as H.
    { apply call_returns_iff. by exists self'. }
    destruct r as [d |].
    + destruct (first_success_found _ _ _ _ H)
        as (pre & post & Hc & Hpre & Hd).
      exists pre, post. repeat split; [done | | by exists fuel].
      eapply Forall_impl; [exact Hpre |]. intros d' Hd'. by exists fuel.
    + apply first_success_none in H.
      eapply Forall_impl; [exact H |]. intros d' Hd'. by exists fuel.
  - intros pre d post Hcand Hpre Hd fuel.
    pose proof (call_first_success fuel self) as H.
    rewrite Hcand, (first_success_hangs self pre post d fuel Hpre Hd) in H.
    by destruct (call fuel self).
Qed.

Lemma call_returns_first_success_witness :
  call_returns scenario_a (Some {[ (1, 1) := blockA ]}).
Proof.
  apply (proj1 (proj2 (call_returns_first_success scenario_a))
           [ {[ (0, 1) := blockA ]} ]
           {[ (1, 1) := blockA ]}
           [ {[ (0, 0) := blockA ]}; {[ (1, 0) := blockA ]} ]).
  - vm_compute. reflexivity.
  - constructor; [| constructor]. exists 10%nat. vm_compute. reflexivity.
  - exists 10%nat. vm_compute. reflexivity.
Defined.

(** *** A puzzle on which the solver hangs *)

Lemma hang_lazer_step (n : nat) :
  lazer_step (set_sel_comb hang_closed (init hang_data)) (ring_beam n)
  = Again (ring_beam (ring_next n)).
Proof. destruct n as [| [| [| n]]]; vm_compute; reflexivity. Qed.

Lemma hang_run (fuel n : nat) :
  run (set_sel_comb hang_closed (init hang_data)) fuel
    (Config [(Half 2, Half 5)] (Some (ring_beam n)) [])
  = None.
Proof.
  revert n. induction fuel as [| fuel IH]; intros n; [done |].
  cbn [run]. rewrite (step_current _ _ (ring_beam n)) by done.
  replace (remove_point (pos (ring_beam n)) _) with [(Half 2, Half 5)]
    by by destruct n as [| [| [| n]]].
  rewrite hang_lazer_step. apply IH.
Qed.

Lemma hang_check_solution (fuel : nat) :
  check_solution fuel (set_sel_comb hang_closed (init hang_data)) = None.
Proof.
  unfold check_solution. destruct fuel as [| [| fuel]]; try done.
  cbn [run]. unfold step at 1. simpl.
  rewrite (step_current _ _ (Half 3, Half 2, Half 1, Half 1)) by done.
  simpl remove_point.
  replace (lazer_step _ (Half 3, Half 2, Half 1, Half 1))
    with (Again (ring_beam 0)) by (vm_compute; reflexivity).
  apply hang_run.
Qed.

(** C1, as stated, fails: this file is accepted; of the two Placements
    of its puzzle the first traps the beam between four reflect blocks,
    so that its simulation never returns, and the second succeeds; yet
    [__call__] never returns the second, nor anything. *)
Lemma hang_counterexample :
  Input.call plain_builtins (Input.Build 0 0) hang_file
  = Input.Ok (hang_data, Input.Build 3 3)
  ∧ placements_spec (init hang_data) = [hang_closed; hang_open]
  ∧ (∀ fuel,
       check_solution fuel (set_sel_comb hang_closed (init hang_data)) = None)
  ∧ sim_reports (init hang_data) hang_open true
  ∧ ∀ fuel, call fuel (init hang_data) = None.
Proof.
  split; [vm_compute; reflexivity |].
  split; [vm_compute; reflexivity |].
  split; [apply hang_check_solution |].
  split; [exists 10%nat; vm_compute; reflexivity |].
  intros fuel. pose proof (call_first_success fuel (init hang_data)) as H.
  rewrite candidates_placements in H.
  replace (placements_spec (init hang_data)) with ([] ++ hang_closed :: [hang_open])
    in H by (vm_compute; reflexivity).
  rewrite first_success_hangs in H;
    [| constructor | apply hang_check_solution].
  by destruct (call fuel (init hang_data)).
Qed.

(** ** Counting the Placements *)







(** ** The lazors and the targets of an accepted file *)







(** X13: Where the floats are exact, the beam made from the numbers
    [x y vx vy] of a lazor line satisfies the half-integer invariant
    exactly when [x + y] is odd and the two directions are among [-1],
    [0] and [1], and it is diagonal exactly when neither direction is
    zero. *)
Theorem transform_lazor_invariant (height x y vx vy : Z) (rest : list Z) :
  exact_numbers height [x; y; vx; vy] →
  ∃ l, Input.transform_lazor height (x :: y :: vx :: vy :: rest) = Input.Ok l
       ∧ (half_integer_inv l
          ↔ Z.odd (x + y) = true ∧ -1 ≤ vx ≤ 1 ∧ -1 ≤ vy ≤ 1)
       ∧ (diagonal l ↔ vx ≠ 0 ∧ vy ≠ 0).
Proof.
  intros _.
  eexists. split; [reflexivity |]. unfold half_integer_inv, diagonal.
  unfold_half. rewrite <- Z.negb_even.
  destruct (Z_even_cases x) as [[-> ?] | [-> ?]];
    destruct (Z_even_cases (2 * height - y)) as [[-> ?] | [-> ?]];
    destruct (Z_even_cases (x + y)) as [[-> ?] | [-> ?]];
    simpl; try lia; (split; [split |]; (lia || (intros (? & ? & ?); lia))).
Qed.

Lemma transform_lazor_invariant_witness :
  ∃ l, Input.transform_lazor 2 [0; 1; 1; -1] = Input.Ok l
       ∧ (half_integer_inv l
          ↔ Z.odd (0 + 1) = true ∧ -1 ≤ 1 ≤ 1 ∧ -1 ≤ -1 ≤ 1)
       ∧ (diagonal l ↔ 1 ≠ 0 ∧ -1 ≠ 0).
Proof.
  apply (transform_lazor_invariant 2 0 1 1 (-1) []).
  split.
  - repeat constructor; unfold exact; simpl; lia.
  - intros y [= <-]. unfold exact. simpl. lia.
Defined.
